(** * 3d-force-graph: animation manager and node object factory

    A shallow embedding of [src/animation-manager.js] (class
    [AnimationManager]) and of the node object factory (class
    [NodeObjectFactory]), with the properties of their specification.

    JavaScript numbers are modelled as exact rationals extended with the
    two infinities and NaN; rounding of IEEE doubles and the sign of zero
    are not modelled.  Objects live in a store indexed by references, so
    that identity (the keys of the WeakMap, of the Set and of the Maps)
    is kept apart from contents.  Calls of user supplied functions and
    of [dispose] are recorded in a trace of events. *)

From Stdlib Require Import QArith Qminmax Lia Lqa.
From stdpp Require Import gmap strings fin_maps functions.
From stdpp Require Import list.

Local Open Scope Q_scope.

(** ** JavaScript numbers *)

Module JS.

Inductive jsnum : Type :=
  | Fin (q : Q)
  | PInf
  | NInf
  | NaN.

Definition Qlt_bool (x y : Q) : bool := negb (Qle_bool y x).

Definition js_neg (a : jsnum) : jsnum :=
  match a with
  | Fin x => Fin (- x)
  | PInf => NInf
  | NInf => PInf
  | NaN => NaN
  end.

Definition js_add (a b : jsnum) : jsnum :=
  match a, b with
  | NaN, _ | _, NaN => NaN
  | Fin x, Fin y => Fin (x + y)
  | PInf, NInf | NInf, PInf => NaN
  | PInf, _ | _, PInf => PInf
  | NInf, _ | _, NInf => NInf
  end.

Definition js_sub (a b : jsnum) : jsnum := js_add a (js_neg b).

(** [a / b]: a finite number divided by zero is an infinity of its sign,
    [0 / 0] is NaN. *)
Definition js_div (a b : jsnum) : jsnum :=
  match a, b with
  | NaN, _ | _, NaN => NaN
  | Fin x, Fin y =>
      if Qeq_bool y 0 then
        if Qeq_bool x 0 then NaN
        else if Qlt_bool 0 x then PInf else NInf
      else Fin (x / y)
  | Fin _, (PInf | NInf) => Fin 0
  | PInf, Fin y => if Qle_bool 0 y then PInf else NInf
  | NInf, Fin y => if Qle_bool 0 y then NInf else PInf
  | (PInf | NInf), (PInf | NInf) => NaN
  end.

(** [a < b] and [a >= b]; every comparison with NaN is false. *)
Definition js_lt (a b : jsnum) : bool :=
  match a, b with
  | NaN, _ | _, NaN => false
  | Fin x, Fin y => Qlt_bool x y
  | NInf, (Fin _ | PInf) => true
  | Fin _, PInf => true
  | _, _ => false
  end.

Definition js_ge (a b : jsnum) : bool :=
  match a, b with
  | NaN, _ | _, NaN => false
  | Fin x, Fin y => Qle_bool y x
  | PInf, _ => true
  | _, NInf => true
  | _, _ => false
  end.

(** [Math.min(a, b)] *)
Definition js_min (a b : jsnum) : jsnum :=
  match a, b with
  | NaN, _ | _, NaN => NaN
  | Fin x, Fin y => if Qle_bool x y then Fin x else Fin y
  | NInf, _ | _, NInf => NInf
  | PInf, c | c, PInf => c
  end.


(** Values that an options object or a node record can hold. *)
Inductive fnref : Type :=
  | FEasing (s : string)
  | FUser (n : nat).

Inductive jsval : Type :=
  | VUndef
  | VNull
  | VBool (b : bool)
  | VNum (n : jsnum)
  | VStr (s : string)
  | VFun (f : fnref).

Definition truthy (v : jsval) : bool :=
  match v with
  | VUndef | VNull => false
  | VBool b => b
  | VNum (Fin q) => negb (Qeq_bool q 0)
  | VNum NaN => false
  | VNum _ => true
  | VStr s => negb (String.eqb s EmptyString)
  | VFun _ => true
  end.

(** The number a value stands for in an arithmetic expression.  The
    options read as numbers are documented as numbers; a string is taken
    as NaN here. *)
Definition to_number (v : jsval) : jsnum :=
  match v with
  | VUndef => NaN
  | VNull => Fin 0
  | VBool true => Fin 1
  | VBool false => Fin 0
  | VNum n => n
  | VStr _ => NaN
  | VFun _ => NaN
  end.

(** A plain object used as a record of named properties. *)
Abbreviation jsobj := (gmap string jsval).

(** Reading a property: an absent property reads as [undefined]. *)
Definition prop (o : jsobj) (k : string) : jsval := default VUndef (o !! k).

(** [{ ...a, ...b }]: the properties of [b] win. *)
Definition spread (a b : jsobj) : jsobj := b ∪ a.

(** The result of calling a user supplied function. *)
Inductive outcome (A : Type) : Type :=
  | Returned (a : A)
  | Thrown.
Arguments Returned {A} a.
Arguments Thrown {A}.

End JS.

Import JS.

(** ** Object literals used as tables *)

Module JSObject.

(** The properties that an object literal inherits from
    [Object.prototype]. *)
Definition inherited_keys : list string :=
  ["__proto__"; "constructor"; "hasOwnProperty"; "isPrototypeOf";
   "propertyIsEnumerable"; "toLocaleString"; "toString"; "valueOf";
   "__defineGetter__"; "__defineSetter__"; "__lookupGetter__";
   "__lookupSetter__"]%string.

(** [obj[k] = v] on an object literal, as far as the own properties go:
    [__proto__] names the prototype, and an assignment to it makes no
    property. *)
Definition assign {V} (obj : gmap string V) (k : string) (v : V)
    : gmap string V :=
  if String.eqb k "__proto__" then obj else <[k := v]> obj.

End JSObject.

Import JSObject.

(** ** The animation manager ([src/animation-manager.js]) *)

Module AnimationManager.

(** Identity of a scene object: the key of [objectAnimations] (a
    WeakMap) and the element of [_animatedObjects] (a Set). *)
Abbreviation objref := nat.

(** The part of a [THREE.Object3D] the manager reads and writes. *)
Record vec3 : Type := Vec3 { vx : jsnum; vy : jsnum; vz : jsnum }.

Record Material : Type := mkMaterial {
  emissive : option vec3;
  emissiveIntensity : option jsnum;
  opacity : option jsnum;
  color : option vec3
}.

Record Object3D : Type := mkObject3D {
  scale : vec3;
  rotation : vec3;
  position : vec3;
  material : option Material
}.

(** [initialValues]: the clones taken by [startAnimation]. *)
Record InitialValues : Type := mkInitialValues {
  iv_scale : vec3;
  iv_rotation : vec3;
  iv_position : vec3;
  iv_material : option Material
}.

(** A registered animation type.  Each function gets the object and
    gives back the object as it left it, also when it throws. *)
Record AnimationType (astate : Type) : Type := mkAnimationType {
  update : Object3D → astate → jsnum → jsobj → jsnum → Object3D * outcome astate;
  defaultOptions : jsobj;
  init : option (Object3D → jsobj → Object3D * outcome astate);
  cleanup : option (Object3D → astate → jsobj → Object3D * outcome unit)
}.
Arguments mkAnimationType {astate} _ _ _ _.
Arguments update {astate} _ _ _ _ _ _.
Arguments defaultOptions {astate} _.
Arguments init {astate} _.
Arguments cleanup {astate} _.

(** The [config] argument of [registerAnimation]. *)
Record AnimationConfig (astate : Type) : Type := mkAnimationConfig {
  cfg_update : option (Object3D → astate → jsnum → jsobj → jsnum → Object3D * outcome astate);
  cfg_defaultOptions : option jsobj;
  cfg_init : option (Object3D → jsobj → Object3D * outcome astate);
  cfg_cleanup : option (Object3D → astate → jsobj → Object3D * outcome unit)
}.
Arguments mkAnimationConfig {astate} _ _ _ _.
Arguments cfg_update {astate} _.
Arguments cfg_defaultOptions {astate} _.
Arguments cfg_init {astate} _.
Arguments cfg_cleanup {astate} _.

(** An animation instance. *)
Record AnimationInstance (astate : Type) : Type := mkInstance {
  inst_id : Z;
  inst_name : string;
  inst_state : astate;
  inst_options : jsobj;
  startTime : Q;
  stopping : bool;
  stopStartTime : Q;
  initialValues : InitialValues;
  transitionProgress : jsnum
}.
Arguments mkInstance {astate} _ _ _ _ _ _ _ _ _.
Arguments inst_id {astate} _.
Arguments inst_name {astate} _.
Arguments inst_state {astate} _.
Arguments inst_options {astate} _.
Arguments startTime {astate} _.
Arguments stopping {astate} _.
Arguments stopStartTime {astate} _.
Arguments initialValues {astate} _.
Arguments transitionProgress {astate} _.

(** What the manager does that a caller can observe besides the state:
    the calls of the functions of an animation type, the restoration of
    the initial values, and the console. *)
Inductive event : Type :=
  | EvWarn
  | EvError (name : string)
  | EvInit (o : objref) (name : string)
  | EvUpdate (o : objref) (id : Z) (tp : jsnum)
  | EvCleanup (o : objref) (id : Z)
  | EvRestore (o : objref) (id : Z).

(** The state: the registry and the Set of the manager, the module level
    WeakMap and counter, the scene objects and the trace. *)
Record world (astate : Type) : Type := mkWorld {
  animationTypes : gmap string (AnimationType astate);
  animatedObjects : list objref;
  objectAnimations : gmap objref (list (AnimationInstance astate));
  animationIdCounter : Z;
  heap : objref → Object3D;
  trace : list event
}.
Arguments mkWorld {astate} _ _ _ _ _ _.
Arguments animationTypes {astate} _.
Arguments animatedObjects {astate} _.
Arguments objectAnimations {astate} _.
Arguments animationIdCounter {astate} _.
Arguments heap {astate} _.
Arguments trace {astate} _.

(** The second argument of [stopAnimation]. *)
Inductive selector : Type :=
  | SelAll
  | SelName (s : string)
  | SelId (i : Z).

Section Manager.
Context {astate : Type}.

Abbreviation anim := (AnimationInstance astate).
Abbreviation atype := (AnimationType astate).

Definition set_options (a : anim) (o : jsobj) : anim :=
  mkInstance (inst_id a) (inst_name a) (inst_state a) o (startTime a)
    (stopping a) (stopStartTime a) (initialValues a) (transitionProgress a).

Definition set_state (a : anim) (s : astate) : anim :=
  mkInstance (inst_id a) (inst_name a) s (inst_options a) (startTime a)
    (stopping a) (stopStartTime a) (initialValues a) (transitionProgress a).

Definition set_transitionProgress (a : anim) (p : jsnum) : anim :=
  mkInstance (inst_id a) (inst_name a) (inst_state a) (inst_options a)
    (startTime a) (stopping a) (stopStartTime a) (initialValues a) p.

(** [anim.stopping = true; anim.stopStartTime = now] *)
Definition mark_stopping (a : anim) (now : Q) : anim :=
  mkInstance (inst_id a) (inst_name a) (inst_state a) (inst_options a)
    (startTime a) true now (initialValues a) (transitionProgress a).

(** Set operations of [_animatedObjects], in insertion order. *)
Definition set_add (o : objref) (s : list objref) : list objref :=
  if decide (o ∈ s) then s else s ++ [o].

Definition set_delete (o : objref) (s : list objref) : list objref :=
  filter (λ x, x ≠ o) s.

Definition log (w : world astate) (ev : list event) : world astate :=
  mkWorld (animationTypes w) (animatedObjects w) (objectAnimations w)
    (animationIdCounter w) (heap w) (trace w ++ ev).

(** *** registerAnimation, unregisterAnimation *)

Definition registerAnimation (w : world astate) (name : string)
    (config : AnimationConfig astate) : outcome (world astate) :=
  if String.eqb name EmptyString then Thrown
  else match cfg_update config with
       | None => Thrown
       | Some u =>
           Returned
             (mkWorld
                (<[name := mkAnimationType u
                             (default ∅ (cfg_defaultOptions config))
                             (cfg_init config) (cfg_cleanup config)]>
                   (animationTypes w))
                (animatedObjects w) (objectAnimations w)
                (animationIdCounter w) (heap w) (trace w))
       end.

Definition unregisterAnimation (w : world astate) (name : string)
    : world astate * bool :=
  (mkWorld (delete name (animationTypes w)) (animatedObjects w)
     (objectAnimations w) (animationIdCounter w) (heap w) (trace w),
   bool_decide (is_Some (animationTypes w !! name))).

(** *** _cleanupAnimation *)

(** The restoration block.  The position is captured but not copied
    back ("position is typically managed by force graph, don't
    restore"). *)
Definition restore_material (im mat : Material) : Material :=
  mkMaterial
    (match emissive im, emissive mat with
     | Some e, Some _ => Some e
     | _, _ => emissive mat
     end)
    (match emissiveIntensity im with
     | Some i => Some i
     | None => emissiveIntensity mat
     end)
    (match opacity im with
     | Some p => Some p
     | None => opacity mat
     end)
    (match color im, color mat with
     | Some c, Some _ => Some c
     | _, _ => color mat
     end).

Definition restore (initial : InitialValues) (obj : Object3D) : Object3D :=
  mkObject3D (iv_scale initial) (iv_rotation initial) (position obj)
    (match iv_material initial, material obj with
     | Some im, Some mat => Some (restore_material im mat)
     | _, _ => material obj
     end).

(** The call of the cleanup function of the type, if there is one. *)
Definition run_cleanup (types : gmap string atype) (o : objref)
    (a : anim) (obj : Object3D) : Object3D * list event :=
  match types !! inst_name a with
  | Some animType =>
      match cleanup animType with
      | Some c =>
          match c obj (inst_state a) (inst_options a) with
          | (obj', Returned _) => (obj', [EvCleanup o (inst_id a)])
          | (obj', Thrown) =>
              (obj', [EvCleanup o (inst_id a); EvError (inst_name a)])
          end
      | None => (obj, [])
      end
  | None => (obj, [])
  end.

Definition cleanupAnimation (types : gmap string atype) (o : objref)
    (a : anim) (obj : Object3D) : Object3D * list event :=
  let '(obj1, ev1) := run_cleanup types o a obj in
  (restore (initialValues a) obj1, ev1 ++ [EvRestore o (inst_id a)]).

(** *** startAnimation *)

(** The names of [easing] in [animations/easing.js]. *)
Definition easing_names : list string :=
  ["linear"; "easeInQuad"; "easeOutQuad"; "easeInOutQuad"; "easeOutCubic";
   "easeInCubic"; "easeInOutCubic"; "easeOutElastic"; "easeOutBounce"]%string.

Definition getEasing (easingOrName : jsval) : jsval :=
  match easingOrName with
  | VFun f => VFun f
  | VStr s =>
      if bool_decide (s ∈ easing_names) then VFun (FEasing s)
      else VFun (FEasing "linear")
  | _ => VFun (FEasing "linear")
  end.

Definition baseOptions : jsobj :=
  {[ "loop"%string := VBool true;
     "duration"%string := VNum (Fin 1);
     "easing"%string := VStr "linear";
     "transitionDuration"%string := VNum (Fin (2 # 10)) ]}.

(** [animations.find(a => a.name === animationName && !a.stopping)] *)
Definition is_running (animationName : string) (a : anim) : bool :=
  String.eqb (inst_name a) animationName && negb (stopping a).

(** Assignment to a property of the first element that [p] finds. *)
Fixpoint update_first (p : anim → bool) (f : anim → anim) (l : list anim)
    : list anim :=
  match l with
  | [] => []
  | a :: l' => if p a then f a :: l' else a :: update_first p f l'
  end.

Definition capture (obj : Object3D) : InitialValues :=
  mkInitialValues (scale obj) (rotation obj) (position obj)
    (match material obj with
     | Some mat =>
         Some (mkMaterial (emissive mat) (emissiveIntensity mat)
                 (opacity mat) (color mat))
     | None => None
     end).

(** [empty_state] is the [{}] an animation type without [init] starts
    from.  The result is the id, or [Thrown] when [init] throws. *)
Definition startAnimation (empty_state : astate) (w : world astate) (now : Q)
    (object : option objref) (animationName : string) (options : jsobj)
    : world astate * outcome Z :=
  match object with
  | None => (log w [EvWarn], Returned (-1)%Z)
  | Some o =>
      match animationTypes w !! animationName with
      | None => (log w [EvWarn], Returned (-1)%Z)
      | Some animType =>
          let animations := default [] (objectAnimations w !! o) in
          match List.find (is_running animationName) animations with
          | Some existing =>
              (mkWorld (animationTypes w) (animatedObjects w)
                 (<[o := update_first (is_running animationName)
                           (λ a, set_options a
                                   (spread (defaultOptions animType) options))
                           animations]> (objectAnimations w))
                 (animationIdCounter w) (heap w) (trace w),
               Returned (inst_id existing))
          | None =>
              let merged :=
                spread (spread baseOptions (defaultOptions animType)) options in
              let mergedOptions :=
                <["easingFn"%string := getEasing (prop merged "easing")]> merged in
              let '(obj1, r, ev) :=
                match init animType with
                | Some f =>
                    let '(obj', r) := f (heap w o) mergedOptions in
                    (obj', r, [EvInit o animationName])
                | None => (heap w o, Returned empty_state, [])
                end in
              match r with
              | Thrown =>
                  (mkWorld (animationTypes w) (animatedObjects w)
                     (<[o := animations]> (objectAnimations w))
                     (animationIdCounter w) (<[o := obj1]> (heap w))
                     (trace w ++ ev),
                   Thrown)
              | Returned initialState =>
                  let id := (animationIdCounter w + 1)%Z in
                  let instance :=
                    mkInstance id animationName initialState mergedOptions
                      now false 0 (capture obj1) (Fin 0) in
                  (mkWorld (animationTypes w) (set_add o (animatedObjects w))
                     (<[o := animations ++ [instance]]> (objectAnimations w))
                     id (<[o := obj1]> (heap w)) (trace w ++ ev),
                   Returned id)
              end
          end
      end
  end.

(** *** stopAnimation *)

Definition shouldStop (sel : selector) (a : anim) : bool :=
  match sel with
  | SelAll => true
  | SelName s => String.eqb (inst_name a) s
  | SelId i => Z.eqb (inst_id a) i
  end.

(** The loop of [stopAnimation], from the last index down to 0: the
    instances after [a] are handled before [a]. *)
Fixpoint stop_anims (types : gmap string atype) (o : objref) (sel : selector)
    (immediate : bool) (now : Q) (l : list anim) (obj : Object3D)
    : Object3D * list anim * list event :=
  match l with
  | [] => (obj, [], [])
  | a :: rest =>
      let '(obj1, rest', ev1) := stop_anims types o sel immediate now rest obj in
      if shouldStop sel a && negb (stopping a) then
        if immediate then
          let '(obj2, ev2) := cleanupAnimation types o a obj1 in
          (obj2, rest', ev1 ++ ev2)
        else (obj1, mark_stopping a now :: rest', ev1)
      else (obj1, a :: rest', ev1)
  end.

(** Storing the list of an object after a loop: an object left without
    instances is dropped from the Set and from the WeakMap. *)
Definition store_animations (w : world astate) (o : objref)
    (res : Object3D * list anim * list event) : world astate :=
  let '(obj', animations', ev) := res in
  match animations' with
  | [] =>
      mkWorld (animationTypes w) (set_delete o (animatedObjects w))
        (delete o (objectAnimations w)) (animationIdCounter w)
        (<[o := obj']> (heap w)) (trace w ++ ev)
  | _ :: _ =>
      mkWorld (animationTypes w) (animatedObjects w)
        (<[o := animations']> (objectAnimations w)) (animationIdCounter w)
        (<[o := obj']> (heap w)) (trace w ++ ev)
  end.

Definition stopAnimation (w : world astate) (now : Q) (object : option objref)
    (animationNameOrId : selector) (immediate : bool) : world astate :=
  match object with
  | None => w
  | Some o =>
      match objectAnimations w !! o with
      | None | Some [] => w
      | Some animations =>
          store_animations w o
            (stop_anims (animationTypes w) o animationNameOrId immediate now
               animations (heap w o))
      end
  end.

(** *** isAnimating *)

Definition isAnimating (w : world astate) (object : option objref)
    (animationName : option string) : bool :=
  match object with
  | None => false
  | Some o =>
      match objectAnimations w !! o with
      | None | Some [] => false
      | Some animations =>
          match animationName with
          | Some n =>
              if negb (String.eqb n EmptyString) then existsb (is_running n) animations
              else existsb (λ a, negb (stopping a)) animations
          | None => existsb (λ a, negb (stopping a)) animations
          end
      end
  end.

(** *** tick *)

Definition transitionDuration (a : anim) : jsnum :=
  to_number (prop (inst_options a) "transitionDuration").

(** Transition in. *)
Definition transition_in (deltaTime : jsnum) (a : anim) : anim :=
  if js_lt (transitionProgress a) (Fin 1) && negb (stopping a) then
    set_transitionProgress a
      (js_min (Fin 1)
         (js_add (transitionProgress a)
            (js_div deltaTime (transitionDuration a))))
  else a.

Definition stopProgress (now : Q) (a : anim) : jsnum :=
  js_min (Fin 1) (js_div (Fin (now - stopStartTime a)) (transitionDuration a)).

(** Transition out: [None] when the animation has fully stopped. *)
Definition transition_out (now : Q) (a : anim) : option anim :=
  if stopping a then
    if js_ge (stopProgress now a) (Fin 1) then None
    else Some (set_transitionProgress a
                 (js_sub (Fin 1) (stopProgress now a)))
  else Some a.

(** The duration check of a non-looping animation. *)
Definition check_duration (now : Q) (a : anim) : anim :=
  if negb (truthy (prop (inst_options a) "loop")) then
    if js_ge (Fin (now - startTime a))
         (to_number (prop (inst_options a) "duration"))
    then mark_stopping a now
    else a
  else a.

(** The body of the inner loop of [tick] for one instance: the object as
    it is left, the instance if it is kept, and the events. *)
Definition tick_anim (types : gmap string atype) (now : Q) (deltaTime : jsnum)
    (o : objref) (a : anim) (obj : Object3D)
    : Object3D * option anim * list event :=
  match types !! inst_name a with
  | None => (obj, None, [])
  | Some animType =>
      match transition_out now (transition_in deltaTime a) with
      | None =>
          let '(obj', ev) :=
            cleanupAnimation types o (transition_in deltaTime a) obj in
          (obj', None, ev)
      | Some a2 =>
          let a3 := check_duration now a2 in
          match update animType obj (inst_state a3) deltaTime
                  (inst_options a3) (transitionProgress a3) with
          | (obj', Returned s) =>
              (obj', Some (set_state a3 s),
               [EvUpdate o (inst_id a3) (transitionProgress a3)])
          | (obj', Thrown) =>
              (obj', None,
               [EvUpdate o (inst_id a3) (transitionProgress a3);
                EvError (inst_name a3)])
          end
      end
  end.

(** The step of [a] on [obj] reaches the call of the update function,
    which throws and leaves the object as [obj']. *)
Definition update_throws (types : gmap string atype) (now : Q)
    (deltaTime : jsnum) (a : anim) (obj obj' : Object3D) : Prop :=
  ∃ animType a2,
    types !! inst_name a = Some animType ∧
    transition_out now (transition_in deltaTime a) = Some a2 ∧
    update animType obj (inst_state (check_duration now a2)) deltaTime
      (inst_options (check_duration now a2))
      (transitionProgress (check_duration now a2)) = (obj', Thrown).

(** The step of [a] reaches the call of the update function: the type
    of [a] is registered and [a] has not finished its stop transition. *)
Definition reaches_update (types : gmap string atype) (now : Q)
    (deltaTime : jsnum) (a : anim) : bool :=
  bool_decide (is_Some (types !! inst_name a)) &&
  bool_decide (is_Some (transition_out now (transition_in deltaTime a))).

(** The inner loop, from the last index down to 0. *)
Fixpoint tick_anims (types : gmap string atype) (now : Q) (deltaTime : jsnum)
    (o : objref) (l : list anim) (obj : Object3D)
    : Object3D * list anim * list event :=
  match l with
  | [] => (obj, [], [])
  | a :: rest =>
      let '(obj1, rest', ev1) := tick_anims types now deltaTime o rest obj in
      let '(obj2, a', ev2) := tick_anim types now deltaTime o a obj1 in
      (obj2, match a' with Some b => b :: rest' | None => rest' end,
       ev1 ++ ev2)
  end.

Definition tick_object (now : Q) (deltaTime : jsnum) (w : world astate)
    (o : objref) : world astate :=
  match objectAnimations w !! o with
  | None => w
  | Some animations =>
      store_animations w o
        (tick_anims (animationTypes w) now deltaTime o animations (heap w o))
  end.

(** [now] is [performance.now() / 1000] at the call. *)
Definition tick (w : world astate) (now : Q) (deltaTime : jsnum)
    : world astate :=
  foldl (tick_object now deltaTime) w (animatedObjects w).

(** *** Observations used in the statements *)

Definition ids (l : list anim) : list Z := map inst_id l.

(** The instance of [o] with id [i]. *)
Definition lookup_instance (w : world astate) (o : objref) (i : Z)
    : option anim :=
  objectAnimations w !! o ≫= List.find (λ a, Z.eqb (inst_id a) i).

(** How a loop leaves the list of an object in the WeakMap. *)
Definition stored (l : list anim) : option (list anim) :=
  match l with
  | [] => None
  | _ :: _ => Some l
  end.

(** [e] is the call of the cleanup function or the restoration of the
    initial values for instance [i] of object [o]. *)
Definition is_cleanup_of (o : objref) (i : Z) (e : event) : bool :=
  match e with
  | EvCleanup o' i' | EvRestore o' i' => Nat.eqb o' o && Z.eqb i' i
  | _ => false
  end.

(** [e] is a call of the update function for instance [i] of [o]. *)
Definition is_update_of (o : objref) (i : Z) (e : event) : bool :=
  match e with
  | EvUpdate o' i' _ => Nat.eqb o' o && Z.eqb i' i
  | _ => false
  end.

(** The events of one [tick] for object [o]. *)
Definition obj_events (w : world astate) (now : Q) (deltaTime : jsnum)
    (o : objref) : list event :=
  match objectAnimations w !! o with
  | None => []
  | Some l => (tick_anims (animationTypes w) now deltaTime o l (heap w o)).2
  end.

(** Consecutive calls of [tick] with the same [deltaTime], at the clock
    values [nows]. *)
Fixpoint ticks (w : world astate) (nows : list Q) (deltaTime : jsnum)
    : world astate :=
  match nows with
  | [] => w
  | now :: rest => ticks (tick w now deltaTime) rest deltaTime
  end.

(** What one pass over the instances of [o] leaves for [o]. *)
Definition self_result (w : world astate) (now : Q) (deltaTime : jsnum)
    (o : objref) : option (list anim) * Object3D :=
  match objectAnimations w !! o with
  | None => (None, heap w o)
  | Some l =>
      let r := tick_anims (animationTypes w) now deltaTime o l (heap w o) in
      (stored r.1.2, r.1.1)
  end.

(** [_animatedObjects] is a Set, and ids are handed out once. *)
Definition wf (w : world astate) : Prop :=
  NoDup (animatedObjects w) ∧
  map_Forall (λ _ l, NoDup (ids l)) (objectAnimations w).

(** The names of the instances that are not stopping. *)
Definition running_names (l : list anim) : list string :=
  map inst_name (filter (λ a, stopping a = false) l).

(** What a loop of [tick] or of [stopAnimation] does to a list: it drops
    instances and marks instances as stopping. *)
Inductive fades : list anim → list anim → Prop :=
  | fades_nil : fades [] []
  | fades_drop a l l' : fades l l' → fades (a :: l) l'
  | fades_keep a b l l' :
      fades l l' →
      inst_id b = inst_id a → inst_name b = inst_name a →
      (stopping a = true → stopping b = true) →
      fades (a :: l) (b :: l').

(** The invariant of the manager: [_animatedObjects] is a Set; no type
    has the empty name; and for each object, the ids of its instances
    are distinct and were handed out by the counter, their names are not
    empty, an object with an instance that is not stopping is in the
    Set, and at most one instance of a name is not stopping. *)
Definition inv (w : world astate) : Prop :=
  NoDup (animatedObjects w) ∧
  animationTypes w !! EmptyString = None ∧
  map_Forall
    (λ o l,
       NoDup (ids l) ∧
       Forall (λ a, (inst_id a <= animationIdCounter w)%Z ∧
                    inst_name a ≠ EmptyString) l ∧
       (running_names l ≠ [] → o ∈ animatedObjects w) ∧
       NoDup (running_names l))
    (objectAnimations w).

#[global] Instance inv_dec (w : world astate) : Decision (inv w).
Proof. unfold inv. apply _. Defined.

(** The states of a manager: a new manager, and what the operations
    make of a state, the host being free to change the scene objects in
    between. *)
Inductive reachable (empty_state : astate) : world astate → Prop :=
  | reach_new h : reachable empty_state (mkWorld ∅ [] ∅ 0 h [])
  | reach_scene w h :
      reachable empty_state w →
      reachable empty_state
        (mkWorld (animationTypes w) (animatedObjects w) (objectAnimations w)
           (animationIdCounter w) h (trace w))
  | reach_register w w' name config :
      reachable empty_state w →
      registerAnimation w name config = Returned w' →
      reachable empty_state w'
  | reach_unregister w name :
      reachable empty_state w →
      reachable empty_state (unregisterAnimation w name).1
  | reach_start w now object name options :
      reachable empty_state w →
      reachable empty_state
        (startAnimation empty_state w now object name options).1
  | reach_stop w now object sel immediate :
      reachable empty_state w →
      reachable empty_state (stopAnimation w now object sel immediate)
  | reach_tick w now deltaTime :
      reachable empty_state w →
      reachable empty_state (tick w now deltaTime).

(** The instance [i] of [o] is there and is not stopping. *)
Definition running_instance (w : world astate) (o : objref) (i : Z) : bool :=
  match lookup_instance w o i with
  | Some a => negb (stopping a)
  | None => false
  end.

(** *** hasAnimation, stopAllAnimations, toggleAnimation *)

Definition hasAnimation (w : world astate) (name : string) : bool :=
  bool_decide (is_Some (animationTypes w !! name)).

Definition stopAllAnimations (w : world astate) (now : Q)
    (object : option objref) (immediate : bool) : world astate :=
  stopAnimation w now object SelAll immediate.

(** The result is [Thrown] when the init function of the type throws. *)
Definition toggleAnimation (empty_state : astate) (w : world astate) (now : Q)
    (object : option objref) (animationName : string) (options : jsobj)
    (immediate : bool) : world astate * outcome bool :=
  match object with
  | None => (log w [EvWarn], Returned false)
  | Some _ =>
      if isAnimating w object (Some animationName) then
        (stopAnimation w now object (SelName animationName) immediate,
         Returned false)
      else
        match startAnimation empty_state w now object animationName options with
        | (w', Returned _) => (w', Returned true)
        | (w', Thrown) => (w', Thrown)
        end
  end.

(** *** getAnimationState *)

(** What [getAnimationState] returns: [null], the state of one instance,
    or the object of all states by name. *)
Inductive state_result : Type :=
  | StNull
  | StOne (s : astate)
  | StAll (states : gmap string astate).

Definition all_states (animations : list anim) : gmap string astate :=
  foldl (λ states a, assign states (inst_name a) (inst_state a)) ∅ animations.

Definition getAnimationState (w : world astate) (object : option objref)
    (animationName : option string) : state_result :=
  match object with
  | None => StNull
  | Some o =>
      match objectAnimations w !! o with
      | None => StNull
      | Some animations =>
          match animationName with
          | Some n =>
              if negb (String.eqb n EmptyString) then
                match List.find (λ a, String.eqb (inst_name a) n) animations with
                | Some a => StOne (inst_state a)
                | None => StNull
                end
              else StAll (all_states animations)
          | None => StAll (all_states animations)
          end
      end
  end.

(** *** getStats *)

(** A property of [byType]: a count, or the text that [+ 1] makes of an
    inherited property. *)
Inductive tally : Type :=
  | Count (n : nat)
  | Text.

(** [byType[name] = (byType[name] || 0) + 1] *)
Definition count_name (byType : gmap string tally) (name : string)
    : gmap string tally :=
  assign byType name
    (match byType !! name with
     | Some (Count n) => Count (S n)
     | Some Text => Text
     | None =>
         if bool_decide (name ∈ inherited_keys) then Text else Count 1
     end).

Record Stats : Type := mkStats {
  stat_animatedObjects : nat;
  stat_totalAnimations : nat;
  stat_registeredTypes : nat;
  stat_byType : gmap string tally
}.

Definition getStats (w : world astate) : Stats :=
  let '(totalAnimations, byType) :=
    foldl (λ '(totalAnimations, byType) o,
             match objectAnimations w !! o with
             | Some animations =>
                 ((totalAnimations + length animations)%nat,
                  foldl count_name byType (map inst_name animations))
             | None => (totalAnimations, byType)
             end)
      (0%nat, ∅) (animatedObjects w) in
  mkStats (length (animatedObjects w)) totalAnimations
    (size (animationTypes w)) byType.

(** *** clear *)

(** [now o] is the clock at the call of [stopAllAnimations] for [o]. *)
Definition clear (w : world astate) (now : objref → Q) (immediate : bool)
    : world astate :=
  let w1 :=
    foldl (λ w1 o, stopAllAnimations w1 (now o) (Some o) immediate) w
      (animatedObjects w) in
  mkWorld (animationTypes w1) [] (objectAnimations w1)
    (animationIdCounter w1) (heap w1) (trace w1).

(** *** Observations used in the statements *)

(** The instances of the objects in [_animatedObjects]. *)
Definition tracked_instances (w : world astate) : list anim :=
  flat_map (λ o, default [] (objectAnimations w !! o)) (animatedObjects w).

(** How many of the instances have the name [n]. *)
Definition count_named (n : string) (l : list anim) : nat :=
  length (filter (λ a, inst_name a = n) l).

(** A call of the update function of the type returns, whatever it is
    given. *)
Definition update_returns (ty : atype) : Prop :=
  ∀ obj s dt opts tp, ∃ obj' s', update ty obj s dt opts tp = (obj', Returned s').


(** The counter starts at 0, and the ids are the values it has had
    after an increment. *)
Definition ids_from_one (w : world astate) : Prop :=
  (0 <= animationIdCounter w)%Z ∧
  map_Forall (λ _ l, Forall (λ a, (1 <= inst_id a)%Z) l) (objectAnimations w).

#[global] Instance ids_from_one_dec (w : world astate) :
  Decision (ids_from_one w).
Proof. unfold ids_from_one. apply _. Defined.

End Manager.

End AnimationManager.

(** ** The node object factory (class [NodeObjectFactory]) *)

Module NodeObjectFactory.

(** Identity of a geometry, a material, an array or a scene object. *)
Abbreviation ref := nat.

(** A key of a [Map]: a string, a number or an object.  Node ids are
    strings or whole numbers. *)
Inductive jskey : Type :=
  | KStr (s : string)
  | KNum (z : Z)
  | KRef (r : ref).

#[global] Instance jskey_eq_dec : EqDecision jskey.
Proof. solve_decision. Defined.

#[global] Instance jskey_countable : Countable jskey.
Proof.
  refine (inj_countable'
    (λ k, match k with
          | KStr s => inl s
          | KNum z => inr (inl z)
          | KRef r => inr (inr r)
          end)
    (λ x, match x with
          | inl s => KStr s
          | inr (inl z) => KNum z
          | inr (inr r) => KRef r
          end) _).
  by intros [].
Defined.

(** [obj.material]: nothing, one material, or an array of materials. *)
Inductive material_slot : Type :=
  | MatNone
  | MatOne (m : ref)
  | MatMany (arr : ref) (ms : list ref).

Record Mesh : Type := mkMesh {
  visible : bool;
  geometry : option ref;
  material : material_slot
}.

Inductive cache_kind : Type := Geometry | Material.

(** The calls of functions given to the factory, the calls of [dispose]
    and the console. *)
Inductive event : Type :=
  | EvCreateFn (c : cache_kind) (key : string) (fn : nat)
  | EvCreator (typeName : string)
  | EvDispose (r : ref)
  | EvWarn
  | EvError.

#[global] Instance cache_kind_eq_dec : EqDecision cache_kind.
Proof. solve_decision. Defined.

#[global] Instance event_eq_dec : EqDecision event.
Proof. solve_decision. Defined.

(** A [createFn]: its identity and what a call does, given the next free
    reference: the next free reference after it, and the resource it
    returns unless it throws. *)
Record CreateFn : Type := mkCreateFn {
  fn_id : nat;
  fn_run : ref → ref * outcome ref
}.

(** The caches, the scene objects, the next free reference and the
    trace: what a creator function can reach through the factory. *)
Record store : Type := mkStore {
  geometryCache : gmap jskey ref;
  materialCache : gmap jskey ref;
  objects : ref → Mesh;
  nextRef : ref;
  trace : list event
}.

Record node : Type := mkNode {
  node_ref : ref;
  node_id : option jskey;
  node_attrs : jsobj
}.

(** A creator function [(node, THREE, factory) => object]: the store as
    it leaves it, and the object it returns unless it throws. *)
Abbreviation creator := (node → store → store * outcome ref).

Record factory : Type := mkFactory {
  typeRegistry : gmap string creator;
  objectPools : gmap string (list ref);
  activeObjects : gmap jskey (ref * string);
  st : store
}.

Definition log (s : store) (ev : list event) : store :=
  mkStore (geometryCache s) (materialCache s) (objects s) (nextRef s)
    (trace s ++ ev).

Definition set_st (f : factory) (s : store) : factory :=
  mkFactory (typeRegistry f) (objectPools f) (activeObjects f) s.

Definition empty_factory (objs : ref → Mesh) : factory :=
  mkFactory ∅ ∅ ∅ (mkStore ∅ ∅ objs 0 []).

(** *** registerType, unregisterType *)

Definition registerType (f : factory) (typeName : string)
    (creatorFn : creator) : outcome factory :=
  if String.eqb typeName EmptyString then Thrown
  else
    Returned
      (mkFactory (<[typeName := creatorFn]> (typeRegistry f))
         (match objectPools f !! typeName with
          | Some _ => objectPools f
          | None => <[typeName := []]> (objectPools f)
          end)
         (activeObjects f) (st f)).

(** [Map.has] *)
Definition has {V} (m : gmap jskey V) (k : jskey) : bool :=
  bool_decide (is_Some (m !! k)).

(** [_disposeObject]: the caches are asked for the geometry and the
    material themselves as keys. *)
Definition disposeObject (s : store) (obj : ref) : store :=
  let s1 :=
    match geometry (objects s obj) with
    | Some g =>
        if negb (has (geometryCache s) (KRef g)) then log s [EvDispose g]
        else s
    | None => s
    end in
  match material (objects s obj) with
  | MatNone => s1
  | MatOne m =>
      if negb (has (materialCache s) (KRef m)) then log s1 [EvDispose m]
      else s1
  | MatMany arr ms =>
      if negb (has (materialCache s) (KRef arr)) then
        log s1 (map EvDispose ms)
      else s1
  end.

Definition unregisterType (f : factory) (typeName : string)
    : factory * bool :=
  let had := bool_decide (is_Some (typeRegistry f !! typeName)) in
  match objectPools f !! typeName with
  | Some pool =>
      (mkFactory (delete typeName (typeRegistry f))
         (delete typeName (objectPools f)) (activeObjects f)
         (foldl disposeObject (st f) pool),
       had)
  | None =>
      (mkFactory (delete typeName (typeRegistry f)) (objectPools f)
         (activeObjects f) (st f),
       had)
  end.

(** *** getGeometry, getMaterial *)

(** Get-or-create on one cache: the cache, the next free reference, the
    events and the result. *)
Definition get_or_create (c : cache_kind) (cache : gmap jskey ref)
    (next : ref) (key : string) (createFn : CreateFn)
    : gmap jskey ref * ref * list event * outcome ref :=
  match cache !! KStr key with
  | Some r => (cache, next, [], Returned r)
  | None =>
      match fn_run createFn next with
      | (next', Returned r) =>
          (<[KStr key := r]> cache, next',
           [EvCreateFn c key (fn_id createFn)], Returned r)
      | (next', Thrown) =>
          (cache, next', [EvCreateFn c key (fn_id createFn)], Thrown)
      end
  end.

Definition getGeometry (s : store) (key : string) (createFn : CreateFn)
    : store * outcome ref :=
  let '(cache, next, ev, r) :=
    get_or_create Geometry (geometryCache s) (nextRef s) key createFn in
  (mkStore cache (materialCache s) (objects s) next (trace s ++ ev), r).

Definition getMaterial (s : store) (key : string) (createFn : CreateFn)
    : store * outcome ref :=
  let '(cache, next, ev, r) :=
    get_or_create Material (materialCache s) (nextRef s) key createFn in
  (mkStore (geometryCache s) cache (objects s) next (trace s ++ ev), r).

(** *** createObject, releaseObject *)

(** [pool.pop()] *)
Definition pop (pool : list ref) : option (list ref * ref) :=
  match last pool with
  | Some obj => Some (removelast pool, obj)
  | None => None
  end.

Definition set_visible (s : store) (obj : ref) (v : bool) : store :=
  mkStore (geometryCache s) (materialCache s)
    (<[obj := mkMesh v (geometry (objects s obj)) (material (objects s obj))]>
       (objects s))
    (nextRef s) (trace s).

(** [node.id !== undefined ? node.id : node] *)
Definition nodeId_of (n : node) : jskey :=
  match node_id n with
  | Some k => k
  | None => KRef (node_ref n)
  end.

(** The result is the object, or [None] for [null]. *)
Definition createObject (f : factory) (n : node) (typeAttribute : string)
    : factory * option ref :=
  let typeName := prop (node_attrs n) typeAttribute in
  if negb (truthy typeName) then (f, None)
  else
    match typeName with
    | VStr T =>
        match typeRegistry f !! T with
        | None => (set_st f (log (st f) [EvWarn]), None)
        | Some creatorFn =>
            match objectPools f !! T ≫= pop with
            | Some (pool', obj) =>
                (mkFactory (typeRegistry f) (<[T := pool']> (objectPools f))
                   (<[nodeId_of n := (obj, T)]> (activeObjects f))
                   (set_visible (st f) obj true),
                 Some obj)
            | None =>
                match creatorFn n (log (st f) [EvCreator T]) with
                | (s', Returned obj) =>
                    (mkFactory (typeRegistry f) (objectPools f)
                       (<[nodeId_of n := (obj, T)]> (activeObjects f)) s',
                     Some obj)
                | (s', Thrown) =>
                    (set_st f (log s' [EvError]), None)
                end
            end
        end
    | _ => (set_st f (log (st f) [EvWarn]), None)
    end.

Definition releaseObject (f : factory) (nodeId : jskey) : factory :=
  match activeObjects f !! nodeId with
  | Some (object, typeName) =>
      mkFactory (typeRegistry f)
        (match objectPools f !! typeName with
         | Some pool => <[typeName := pool ++ [object]]> (objectPools f)
         | None => objectPools f
         end)
        (delete nodeId (activeObjects f))
        (set_visible (st f) object false)
  | None => f
  end.

(** *** clearPools, clear, disposeCache, dispose *)

(** The pooled objects, pool after pool. *)
Definition pooled (f : factory) : list ref :=
  concat (snd <$> map_to_list (objectPools f)).

Definition clearPools (f : factory) : factory :=
  mkFactory (typeRegistry f) ((λ _, []) <$> objectPools f) (activeObjects f)
    (foldl disposeObject (st f) (pooled f)).

Definition clear (f : factory) : factory :=
  mkFactory ∅ ∅ ∅ (st (clearPools f)).

Definition disposeCache (f : factory) : factory :=
  set_st f
    (mkStore ∅ ∅ (objects (st f)) (nextRef (st f))
       (trace (st f)
        ++ map EvDispose (snd <$> map_to_list (geometryCache (st f)))
        ++ map EvDispose (snd <$> map_to_list (materialCache (st f))))).

Definition dispose (f : factory) : factory := disposeCache (clear f).

(** *** Observations used in the statements *)

(** The calls of [dispose] on [r]. *)
Definition disposals (r : ref) (evs : list event) : nat :=
  length (filter (λ e, e = EvDispose r) evs).









(** The pools belong to registered types, whose names are not empty. *)
Definition factory_wf (f : factory) : Prop :=
  (∀ T, is_Some (objectPools f !! T) → is_Some (typeRegistry f !! T)) ∧
  typeRegistry f !! EmptyString = None.

(** The states of a factory: a new factory, and what the operations
    make of a state; creator functions and callers reach the store
    through [getGeometry] and [getMaterial], and the host changes the
    scene objects. *)
Inductive reachable : factory → Prop :=
  | reach_new objs : reachable (empty_factory objs)
  | reach_store f s : reachable f → reachable (set_st f s)
  | reach_registerType f f' typeName creatorFn :
      reachable f → registerType f typeName creatorFn = Returned f' →
      reachable f'
  | reach_unregisterType f typeName :
      reachable f → reachable (unregisterType f typeName).1
  | reach_createObject f n typeAttribute :
      reachable f → reachable (createObject f n typeAttribute).1
  | reach_releaseObject f nodeId :
      reachable f → reachable (releaseObject f nodeId)
  | reach_clearPools f : reachable f → reachable (clearPools f)
  | reach_clear f : reachable f → reachable (clear f)
  | reach_disposeCache f : reachable f → reachable (disposeCache f)
  | reach_dispose f : reachable f → reachable (dispose f).

(** *** hasType *)

Definition hasType (f : factory) (typeName : string) : bool :=
  bool_decide (is_Some (typeRegistry f !! typeName)).

(** *** createAccessor *)

(** The [fallbackAccessor] argument: nothing, a function of the node
    (which gives an object or nothing, or throws), or an object. *)
Inductive fallback : Type :=
  | FbNone
  | FbFun (g : node → store → store * outcome (option ref))
  | FbValue (v : ref).

(** The accessor that [createAccessor] returns, applied to a node in the
    state [f] of the factory. *)
Definition createAccessor (fallbackAccessor : fallback)
    (typeAttribute : string) (f : factory) (n : node)
    : factory * outcome (option ref) :=
  match createObject f n typeAttribute with
  | (f', Some factoryObject) => (f', Returned (Some factoryObject))
  | (f', None) =>
      match fallbackAccessor with
      | FbNone => (f', Returned None)
      | FbFun g => let '(s', r) := g n (st f') in (set_st f' s', r)
      | FbValue v => (f', Returned (Some v))
      end
  end.

(** *** getStats *)

Record Stats : Type := mkStats {
  stat_registeredTypes : nat;
  stat_activeObjects : nat;
  stat_pooledObjects : gmap string nat;
  stat_cachedGeometries : nat;
  stat_cachedMaterials : nat
}.

Definition getStats (f : factory) : Stats :=
  mkStats (size (typeRegistry f)) (size (activeObjects f))
    (map_fold (λ typeName pool poolStats,
                 assign poolStats typeName (length pool))
       ∅ (objectPools f))
    (size (geometryCache (st f))) (size (materialCache (st f))).

(** *** Observations used in the statements *)



(** The object is in no pool and in no entry of the table of active
    objects. *)
Definition forgotten (f : factory) (obj : ref) : Prop :=
  (obj ∉ pooled f) ∧ ∀ k T, activeObjects f !! k ≠ Some (obj, T).

End NodeObjectFactory.

(** ** The easing functions ([src/animations/easing.js]) *)

Module Easing.

(** [a * b]: zero times an infinity is NaN. *)
Definition js_mul (a b : jsnum) : jsnum :=
  match a, b with
  | NaN, _ | _, NaN => NaN
  | Fin x, Fin y => Fin (x * y)
  | Fin x, PInf | PInf, Fin x =>
      if Qeq_bool x 0 then NaN else if Qlt_bool 0 x then PInf else NInf
  | Fin x, NInf | NInf, Fin x =>
      if Qeq_bool x 0 then NaN else if Qlt_bool 0 x then NInf else PInf
  | PInf, PInf | NInf, NInf => PInf
  | PInf, NInf | NInf, PInf => NInf
  end.


(** [Math.pow(x, 2)] and [Math.pow(x, 3)], which are products in exact
    arithmetic. *)
Definition pow2 (x : jsnum) : jsnum := js_mul x x.
Definition pow3 (x : jsnum) : jsnum := js_mul (js_mul x x) x.

Definition linear (t : jsnum) : jsnum := t.

Definition easeInQuad (t : jsnum) : jsnum := js_mul t t.

Definition easeOutQuad (t : jsnum) : jsnum :=
  js_sub (Fin 1) (js_mul (js_sub (Fin 1) t) (js_sub (Fin 1) t)).

Definition easeInOutQuad (t : jsnum) : jsnum :=
  if js_lt t (Fin (1 # 2)) then js_mul (js_mul (Fin 2) t) t
  else js_sub (Fin 1)
         (js_div (pow2 (js_add (js_mul (Fin (-2)) t) (Fin 2))) (Fin 2)).

Definition easeOutCubic (t : jsnum) : jsnum :=
  js_sub (Fin 1) (pow3 (js_sub (Fin 1) t)).

Definition easeInCubic (t : jsnum) : jsnum := js_mul (js_mul t t) t.

Definition easeInOutCubic (t : jsnum) : jsnum :=
  if js_lt t (Fin (1 # 2)) then js_mul (js_mul (js_mul (Fin 4) t) t) t
  else js_sub (Fin 1)
         (js_div (pow3 (js_add (js_mul (Fin (-2)) t) (Fin 2))) (Fin 2)).

Definition easeOutBounce (t : jsnum) : jsnum :=
  let n1 := Fin (75625 # 10000) in
  let d1 := Fin (275 # 100) in
  if js_lt t (js_div (Fin 1) d1) then js_mul (js_mul n1 t) t
  else if js_lt t (js_div (Fin 2) d1) then
    let t := js_sub t (js_div (Fin (15 # 10)) d1) in
    js_add (js_mul (js_mul n1 t) t) (Fin (75 # 100))
  else if js_lt t (js_div (Fin (25 # 10)) d1) then
    let t := js_sub t (js_div (Fin (225 # 100)) d1) in
    js_add (js_mul (js_mul n1 t) t) (Fin (9375 # 10000))
  else
    let t := js_sub t (js_div (Fin (2625 # 1000)) d1) in
    js_add (js_mul (js_mul n1 t) t) (Fin (984375 # 1000000)).

Section Transcendental.

(** [Math.pow] with an exponent that is not a whole number, [Math.sin]
    and [Math.PI] are left open. *)
Variable Math_pow : jsnum → jsnum → jsnum.
Variable Math_sin : jsnum → jsnum.
Variable Math_PI : jsnum.



End Transcendental.

(** The easing functions whose values stay between 0 and 1. *)
Definition bounded_easings : list (jsnum → jsnum) :=
  [linear; easeInQuad; easeOutQuad; easeInOutQuad; easeOutCubic; easeInCubic;
   easeInOutCubic; easeOutBounce].

(** The easing functions that never go back. *)
Definition monotone_easings : list (jsnum → jsnum) :=
  [linear; easeInQuad; easeOutQuad; easeInOutQuad; easeOutCubic; easeInCubic;
   easeInOutCubic].

(** The number is finite and lies between 0 and 1. *)
Definition unit_interval (x : jsnum) : Prop :=
  match x with
  | Fin q => 0 <= q <= 1
  | _ => False
  end.

(** [x <= y] on finite numbers. *)
Definition js_le (x y : jsnum) : Prop :=
  match x, y with
  | Fin p, Fin q => p <= q
  | _, _ => False
  end.

(** Case analysis on the comparisons of a function, with the inverses
    of the rational constants evaluated. *)
Ltac split_cases :=
  repeat match goal with
    | |- context [Qlt_bool ?x ?y] =>
        let E := fresh "E" in
        let H := fresh "H" in
        destruct (Qlt_bool x y) eqn:E; unfold Qlt_bool in E;
        [ apply negb_true_iff in E;
          destruct (Qlt_le_dec x y) as [H|H];
          [clear E | apply Qle_bool_iff in H; congruence]
        | apply negb_false_iff, Qle_bool_iff in E ]
    end;
  unfold Qdiv in *;
  repeat match goal with
    | |- context [/ ?c] =>
        let v := eval vm_compute in (/ c) in change (/ c) with v in *
    | H : context [/ ?c] |- _ =>
        let v := eval vm_compute in (/ c) in change (/ c) with v in *
    end.

End Easing.

(** ** The built-in animations spin, pulse and glow *)

Module BuiltIn.

Import AnimationManager Easing.

(** [Math.PI], the double nearest to pi, as a rational. *)
Definition Math_PI : Q := 884279719003555 # 281474976710656.

(** [s.toLowerCase()] on the letters A to Z; other characters are left
    as they are. *)
Definition lower_ascii (c : Ascii.ascii) : Ascii.ascii :=
  let n := Ascii.nat_of_ascii c in
  if Nat.leb 65 n && Nat.leb n 90 then Ascii.ascii_of_nat (n + 32) else c.

Fixpoint toLowerCase (s : string) : string :=
  match s with
  | EmptyString => EmptyString
  | String c s' => String (lower_ascii c) (toLowerCase s')
  end.

Definition set_scale (obj : Object3D) (v : vec3) : Object3D :=
  mkObject3D v (rotation obj) (position obj) (material obj).

Definition set_rotation (obj : Object3D) (v : vec3) : Object3D :=
  mkObject3D (scale obj) v (position obj) (material obj).

Definition set_material (obj : Object3D) (m : Material) : Object3D :=
  mkObject3D (scale obj) (rotation obj) (position obj) (Some m).

(** *** spin.js *)

Module Spin.

Definition name : string := "spin".

Definition defaultOptions : jsobj :=
  {[ "speed"%string := VNum (Fin 1);
     "axis"%string := VStr "y";
     "direction"%string := VNum (Fin 1) ]}.

Record state : Type := mkState {
  totalRotation : jsnum;
  initialRotation : vec3
}.

Definition init (object : Object3D) (options : jsobj)
    : Object3D * outcome state :=
  (object,
   Returned (mkState (Fin 0)
               (Vec3 (vx (rotation object)) (vy (rotation object))
                  (vz (rotation object))))).

(** [options.axis.toLowerCase()] throws unless the axis is a string; the
    total rotation has been advanced by then. *)
Definition update (object : Object3D) (st : state) (deltaTime : jsnum)
    (options : jsobj) (transitionProgress : jsnum)
    : Object3D * outcome state :=
  let rotationSpeed :=
    js_mul (js_mul (js_mul (to_number (prop options "speed")) (Fin Math_PI))
              (Fin 2))
      (to_number (prop options "direction")) in
  let delta := js_mul (js_mul deltaTime rotationSpeed) transitionProgress in
  let total := js_add (totalRotation st) delta in
  match prop options "axis" with
  | VStr a =>
      let axis := toLowerCase a in
      let initial := initialRotation st in
      let r := rotation object in
      (if String.eqb axis "x" then
         set_rotation object (Vec3 (js_add (vx initial) total) (vy r) (vz r))
       else if String.eqb axis "y" then
         set_rotation object (Vec3 (vx r) (js_add (vy initial) total) (vz r))
       else if String.eqb axis "z" then
         set_rotation object (Vec3 (vx r) (vy r) (js_add (vz initial) total))
       else object,
       Returned (mkState total (initialRotation st)))
  | _ => (object, Thrown)
  end.

Definition cleanup (object : Object3D) (st : state) (options : jsobj)
    : Object3D * outcome unit :=
  (object, Returned tt).

(** The module as [registerBuiltInAnimations] gives it to
    [registerAnimation]. *)
Definition config : AnimationConfig state :=
  mkAnimationConfig (Some update) (Some defaultOptions) (Some init)
    (Some cleanup).


End Spin.

(** *** pulse.js *)

Module Pulse.

Definition name : string := "pulse".

Definition defaultOptions : jsobj :=
  {[ "speed"%string := VNum (Fin 2);
     "amplitude"%string := VNum (Fin (2 # 10));
     "baseScale"%string := VNull;
     "axis"%string := VStr "all" ]}.

Record state : Type := mkState {
  phase : jsnum;
  baseScale : jsval
}.

(** [options.baseScale !== null ? options.baseScale : object.scale.x] *)
Definition init (object : Object3D) (options : jsobj)
    : Object3D * outcome state :=
  (object,
   Returned (mkState (Fin 0)
               (match prop options "baseScale" with
                | VNull => VNum (vx (scale object))
                | v => v
                end))).

Section Sine.

(** [Math.sin] is left open. *)
Variable Math_sin : jsnum → jsnum.

(** [state.baseScale + scaleOffset] is taken as a sum of numbers. *)
Definition update (object : Object3D) (st : state) (deltaTime : jsnum)
    (options : jsobj) (transitionProgress : jsnum)
    : Object3D * outcome state :=
  let phase' :=
    js_add (phase st)
      (js_mul (js_mul (js_mul deltaTime (to_number (prop options "speed")))
                 (Fin Math_PI))
         (Fin 2)) in
  let amplitude :=
    js_mul (to_number (prop options "amplitude")) transitionProgress in
  let scaleOffset := js_mul (Math_sin phase') amplitude in
  let s := js_add (to_number (baseScale st)) scaleOffset in
  let v := scale object in
  (match prop options "axis" with
   | VStr "x" => set_scale object (Vec3 s (vy v) (vz v))
   | VStr "y" => set_scale object (Vec3 (vx v) s (vz v))
   | VStr "z" => set_scale object (Vec3 (vx v) (vy v) s)
   | _ => set_scale object (Vec3 s s s)
   end,
   Returned (mkState phase' (baseScale st))).

End Sine.

Definition cleanup (object : Object3D) (st : state) (options : jsobj)
    : Object3D * outcome unit :=
  (object, Returned tt).

End Pulse.

(** *** glow.js: update and cleanup *)

Module Glow.

Record state : Type := mkState {
  phase : jsnum;
  hasMaterial : bool;
  originalEmissive : option vec3;
  originalIntensity : jsnum
}.

Definition set_emissiveIntensity (obj : Object3D) (x : jsnum) : Object3D :=
  match material obj with
  | Some mat =>
      match emissiveIntensity mat with
      | Some _ =>
          set_material obj
            (mkMaterial (emissive mat) (Some x) (opacity mat) (color mat))
      | None => obj
      end
  | None => obj
  end.

Section Sine.

Variable Math_sin : jsnum → jsnum.

(** The intensity that [update] computes. *)
Definition intensity (phase' : jsnum) (options : jsobj)
    (transitionProgress : jsnum) : jsnum :=
  js_mul
    (if truthy (prop options "pulse") then
       let range :=
         js_sub (to_number (prop options "maxIntensity"))
           (to_number (prop options "minIntensity")) in
       let sineValue := js_div (js_add (Math_sin phase') (Fin 1)) (Fin 2) in
       js_add (to_number (prop options "minIntensity")) (js_mul sineValue range)
     else to_number (prop options "maxIntensity"))
    transitionProgress.

Definition update (object : Object3D) (st : state) (deltaTime : jsnum)
    (options : jsobj) (transitionProgress : jsnum)
    : Object3D * outcome state :=
  if negb (hasMaterial st) || negb (bool_decide (is_Some (material object)))
  then (object, Returned st)
  else
    let phase' :=
      js_add (phase st)
        (js_mul (js_mul (js_mul deltaTime (to_number (prop options "speed")))
                   (Fin Math_PI))
           (Fin 2)) in
    (set_emissiveIntensity object (intensity phase' options transitionProgress),
     Returned (mkState phase' (hasMaterial st) (originalEmissive st)
                 (originalIntensity st))).

End Sine.

Definition cleanup (object : Object3D) (st : state) (options : jsobj)
    : Object3D * outcome unit :=
  if negb (hasMaterial st) then (object, Returned tt)
  else
    match material object with
    | None => (object, Returned tt)
    | Some mat =>
        let e :=
          match originalEmissive st, emissive mat with
          | Some c, Some _ => Some c
          | _, _ => emissive mat
          end in
        let i :=
          match emissiveIntensity mat with
          | Some _ => Some (originalIntensity st)
          | None => None
          end in
        (set_material object (mkMaterial e i (opacity mat) (color mat)),
         Returned tt)
    end.

End Glow.



End BuiltIn.

(** ** The built-in node object types cube, cone and cylinder *)

Module NodeTypes.

Import NodeObjectFactory Easing.

(** [a || b] *)
Definition js_or (a b : jsval) : jsval := if truthy a then a else b.

(** [() => new THREE.X(...)]: a new object at each call. *)
Definition construct (id : nat) : CreateFn :=
  mkCreateFn id (λ next, (S next, Returned next)).

(** [new THREE.Mesh(geometry, material)] *)
Definition new_mesh (s : store) (g m : ref) : store * outcome ref :=
  (mkStore (geometryCache s) (materialCache s)
     (<[nextRef s := mkMesh true (Some g) (MatOne m)]> (objects s))
     (S (nextRef s)) (trace s),
   Returned (nextRef s)).

(** What the three [create] functions end with, called with the
    factory: the geometry from the cache, the material from the cache,
    and a new mesh of the two.  [gid] and [mid] name the two creation
    functions. *)
Definition build (geometryKey : string) (gid : nat) (materialKey : string)
    (mid : nat) (s : store) : store * outcome ref :=
  let '(s1, rg) := getGeometry s geometryKey (construct gid) in
  match rg with
  | Thrown => (s1, Thrown)
  | Returned geometry =>
      let '(s2, rm) := getMaterial s1 materialKey (construct mid) in
      match rm with
      | Thrown => (s2, Thrown)
      | Returned material => new_mesh s2 geometry material
      end
  end.

Section Host.

(** [Math.cbrt] and the text of a value in a template literal are left
    open. *)
Variable Math_cbrt : jsval → jsnum.
Variable to_string : jsval → string.

Definition node_prop (n : node) (k : string) : jsval := prop (node_attrs n) k.

(** [node.color || '#ffffaa'] *)
Definition color_of (n : node) : jsval :=
  js_or (node_prop n "color") (VStr "#ffffaa").

(** [node.opacity !== undefined ? node.opacity : 0.75] *)
Definition opacity_of (n : node) : jsval :=
  match node_prop n "opacity" with
  | VUndef => VNum (Fin (75 # 100))
  | v => v
  end.

(** [`lambert_${color}_${opacity}`] *)
Definition materialKey (n : node) : string :=
  "lambert_" ++ to_string (color_of n) ++ "_" ++ to_string (opacity_of n).

(** [Math.cbrt(val) * 4] with [val = node.val || 1] *)
Definition baseSize (n : node) : jsnum :=
  js_mul (Math_cbrt (js_or (node_prop n "val") (VNum (Fin 1)))) (Fin 4).

Definition cube_create : creator :=
  λ node s,
    let size := js_or (node_prop node "cubeSize") (VNum (baseSize node)) in
    build ("cube_" ++ to_string size) 1 (materialKey node) 2 s.

Definition cone_create : creator :=
  λ node s,
    let radius :=
      js_or (node_prop node "coneRadius")
        (VNum (js_div (baseSize node) (Fin 2))) in
    let height := js_or (node_prop node "coneHeight") (VNum (baseSize node)) in
    let segments := js_or (node_prop node "coneSegments") (VNum (Fin 8)) in
    build ("cone_" ++ to_string radius ++ "_" ++ to_string height ++ "_"
           ++ to_string segments) 3 (materialKey node) 4 s.

Definition cylinder_create : creator :=
  λ node s,
    let radiusTop :=
      js_or (node_prop node "cylinderRadiusTop")
        (VNum (js_div (baseSize node) (Fin 2))) in
    let radiusBottom :=
      js_or (node_prop node "cylinderRadiusBottom")
        (VNum (js_div (baseSize node) (Fin 2))) in
    let height :=
      js_or (node_prop node "cylinderHeight") (VNum (baseSize node)) in
    let segments := js_or (node_prop node "cylinderSegments") (VNum (Fin 8)) in
    build ("cylinder_" ++ to_string radiusTop ++ "_" ++ to_string radiusBottom
           ++ "_" ++ to_string height ++ "_" ++ to_string segments)
      5 (materialKey node) 6 s.

(** [builtInTypes], in the order of [Object.values]. *)
Definition builtInTypes : list (string * creator) :=
  [("cube", cube_create); ("cone", cone_create);
   ("cylinder", cylinder_create)]%string.

Fixpoint register_all (f : factory) (types : list (string * creator))
    : outcome factory :=
  match types with
  | [] => Returned f
  | (typeName, create) :: rest =>
      match registerType f typeName create with
      | Returned f' => register_all f' rest
      | Thrown => Thrown
      end
  end.

Definition registerBuiltInTypes (f : factory) : outcome factory :=
  register_all f builtInTypes.

End Host.

End NodeTypes.

(** ** Concrete animation types, objects and runs *)

Module Examples.

Import AnimationManager.

Definition vec (a b c : Q) : vec3 := Vec3 (Fin a) (Fin b) (Fin c).

(** An object without material, as the mock of the tests. *)
Definition plain : Object3D :=
  mkObject3D (vec 1 1 1) (vec 0 0 0) (vec 0 0 0) None.

(** An object with a material. *)
Definition shaded : Object3D :=
  mkObject3D (vec 1 1 1) (vec 0 0 0) (vec 0 0 0)
    (Some (mkMaterial (Some (vec 0 0 0)) (Some (Fin 1)) (Some (Fin (3 # 4)))
             (Some (vec 1 1 0)))).

(** The state of these types counts the calls of [update]. *)
Definition testAnimation : AnimationType nat :=
  mkAnimationType
    (λ obj s _ _ _, (obj, Returned (S s)))
    {[ "testOption"%string := VStr "default" ]}
    (Some (λ obj _, (obj, Returned 0%nat)))
    (Some (λ obj _ _, (obj, Returned tt))).

(** Grows the object, moves it along x and dims it; no init, no
    cleanup. *)
Definition drift : AnimationType nat :=
  mkAnimationType
    (λ obj s dt _ _,
       (mkObject3D (vec 2 2 2) (vec 0 1 0)
          (Vec3 (js_add (vx (position obj)) (Fin 1)) (vy (position obj))
             (vz (position obj)))
          (match material obj with
           | Some m =>
               Some (mkMaterial (emissive m) (Some (Fin 0)) (Some (Fin 0))
                       (color m))
           | None => None
           end),
        Returned (S s)))
    ∅ None None.

(** Its update grows the object and throws. *)
Definition broken : AnimationType nat :=
  mkAnimationType
    (λ obj _ _ _ _,
       (mkObject3D (vec 3 3 3) (rotation obj) (position obj) (material obj),
        Thrown))
    ∅ None
    (Some (λ obj _ _, (obj, Returned tt))).

(** Its update gives the object a material without colours. *)
Definition swap : AnimationType nat :=
  mkAnimationType
    (λ obj s _ _ _,
       (mkObject3D (scale obj) (rotation obj) (position obj)
          (Some (mkMaterial None (Some (Fin 0)) (Some (Fin 1)) None)),
        Returned (S s)))
    ∅ None None.

Definition registry : gmap string (AnimationType nat) :=
  {[ "test"%string := testAnimation;
     "drift"%string := drift;
     "broken"%string := broken;
     "swap"%string := swap ]}.

(** Objects 7 and 8 are plain, every other object is shaded. *)
Definition scene (o : objref) : Object3D :=
  if bool_decide (o = 7%nat ∨ o = 8%nat) then plain else shaded.

Definition w0 : world nat := mkWorld registry [] ∅ 0 scene [].

Definition start (w : world nat) (now : Q) (o : objref) (name : string)
    (options : jsobj) : world nat :=
  (startAnimation 0%nat w now (Some o) name options).1.

Definition blank : AnimationInstance nat :=
  mkInstance 0 EmptyString 0%nat ∅ 0 false 0 (capture plain) NaN.

(** The instance [i] of [o], when there is one. *)
Definition instance_of (w : world nat) (o : objref) (i : Z)
    : AnimationInstance nat :=
  default blank (lookup_instance w o i).

Definition instances (w : world nat) (o : objref)
    : list (AnimationInstance nat) :=
  default [] (objectAnimations w !! o).

(** "test" on object 7, started at time 0. *)
Definition w_test : world nat := start w0 0 7%nat "test" ∅.

(** "test", "broken" and "drift" on object 7 and "test" on object 8. *)
Definition w_mixed : world nat :=
  start (start (start (start w0 0 7%nat "test" ∅) 0 7%nat "broken" ∅)
           0 7%nat "drift" ∅) 0 8%nat "test" ∅.

(** "drift" on the shaded object 9, after one tick. *)
Definition w_drift : world nat :=
  tick (start w0 0 9%nat "drift" ∅) (1 # 10) (Fin (1 # 10)).

(** A non-looping "drift" on object 9 (duration 1), after the tick at
    time 1 that marks it as stopping. *)
Definition w_faded : world nat :=
  tick (start w0 0 9%nat "drift" {[ "loop"%string := VBool false ]}) 1
    (Fin (1 # 10)).

(** "swap" on the shaded object 9, after one tick. *)
Definition w_swap : world nat :=
  tick (start w0 0 9%nat "swap" ∅) (1 # 10) (Fin (1 # 10)).



(** A non-looping "test" on object 7: duration 1, transition 0.2. *)
Definition w_once : world nat :=
  start w0 0 7%nat "test" {[ "loop"%string := VBool false ]}.


(** The options that [startAnimation] resolves for [w_once]. *)
Definition once_options : jsobj := inst_options (instance_of w_once 7%nat 1).

(** The clock of the [k]-th frame, 0.1 s apart, from time 1. *)
Definition frame (k : nat) : Q := Z.of_nat (10 + k) # 10.

Definition frames (n : nat) : list Q := map frame (seq 0 n).

End Examples.

(** ** Concrete creators, nodes and runs of the factory *)

Module FactoryExamples.

Import NodeObjectFactory.

Definition blank_mesh : Mesh := mkMesh true None MatNone.

(** [() => new THREE.BoxGeometry(...)]: a new object at each call. *)
Definition fresh (id : nat) : CreateFn :=
  mkCreateFn id (λ next, (S next, Returned next)).

(** A creation function that throws. *)
Definition failing (id : nat) : CreateFn :=
  mkCreateFn id (λ next, (next, Thrown)).

(** [create] of [node-object-types/cube.js] for a node without [val],
    [cubeSize], [color] and [opacity]: the geometry comes from the cache
    under ["cube_4"], the material under ["lambert_#ffffaa_0.75"], and
    the result is a new mesh of the two. *)
Definition cube_create : creator :=
  λ _ s,
    let '(s1, rg) := getGeometry s "cube_4" (fresh 1) in
    match rg with
    | Thrown => (s1, Thrown)
    | Returned g =>
        let '(s2, rm) := getMaterial s1 "lambert_#ffffaa_0.75" (fresh 2) in
        match rm with
        | Thrown => (s2, Thrown)
        | Returned m =>
            (mkStore (geometryCache s2) (materialCache s2)
               (<[nextRef s2 := mkMesh true (Some g) (MatOne m)]> (objects s2))
               (S (nextRef s2)) (trace s2),
             Returned (nextRef s2))
        end
    end.

(** [{ id: i, nodeThreeObjectType: 'cube' }] *)
Definition cube_node (i : Z) : node :=
  mkNode (Z.to_nat i) (Some (KNum i))
    {[ "nodeThreeObjectType"%string := VStr "cube" ]}.

Definition attr : string := "nodeThreeObjectType".

Definition register (f : factory) (typeName : string) (c : creator)
    : factory :=
  match registerType f typeName c with
  | Returned f' => f'
  | Thrown => f
  end.

(** 'cube' is registered. *)
Definition f_cube : factory :=
  register (empty_factory (λ _, blank_mesh)) "cube" cube_create.

(** Nodes 1 and 2 have got their cubes: geometry 0 and material 1 are in
    the caches, the meshes are 2 and 3. *)
Definition f_active : factory :=
  (createObject (createObject f_cube (cube_node 1) attr).1 (cube_node 2) attr).1.

(** The cube of node 1 is back in the pool; node 2 still shows its cube. *)
Definition f_pooled : factory := releaseObject f_active (KNum 1).



End FactoryExamples.

(** ** Further runs of the manager *)

Module MoreExamples.

Import AnimationManager Examples.

(** "test" on object 7 is fading out since time 0.1. *)
Definition w_fading : world nat :=
  stopAnimation w_test (1 # 10) (Some 7%nat) (SelName "test") false.

(** It has been ticked at 0.15, and "test" was started again at 0.2:
    the instance 1 is fading out, the instance 2 is running. *)
Definition w_restarted : world nat :=
  start (tick w_fading (15 # 100) (Fin (5 # 100))) (2 # 10) 7%nat "test" ∅.

(** A clock that stands still during a call. *)
Definition at_time (t : Q) : objref → Q := λ _, t.

End MoreExamples.

(** ** Further creators and nodes *)

Module FactoryMoreExamples.

Import NodeObjectFactory FactoryExamples.

(** A creator that throws. *)
Definition failing_creator : creator := λ _ s, (s, Thrown).

(** [{ id: 9 }]: a node without type. *)
Definition plain_node : node := mkNode 9 (Some (KNum 9)) ∅.

End FactoryMoreExamples.

(** ** Runs of the built-in animations *)

Module BuiltInExamples.

Import AnimationManager Examples BuiltIn.









End BuiltInExamples.

(** ** Nodes of the built-in types *)

Module NodeTypesExamples.

Import NodeObjectFactory NodeTypes FactoryExamples.

(** Values for the two host functions, for the examples: the texts of
    the strings and of the numbers that the examples use, and the cube
    roots of 1 and 8. *)
Definition sample_text (v : jsval) : string :=
  match v with
  | VStr s => s
  | VNum (Fin q) =>
      if Qeq_bool q (75 # 100) then "0.75"
      else if Qeq_bool q 4 then "4"
      else if Qeq_bool q 2 then "2"
      else if Qeq_bool q 8 then "8"
      else "?"
  | _ => "?"
  end.

Definition sample_cbrt (v : jsval) : jsnum :=
  match v with
  | VNum (Fin q) =>
      if Qeq_bool q 1 then Fin 1 else if Qeq_bool q 8 then Fin 2 else NaN
  | _ => NaN
  end.

(** The factory after [registerBuiltInTypes()]. *)
Definition f_built_in : factory :=
  match registerBuiltInTypes sample_cbrt sample_text
          (empty_factory (λ _, blank_mesh)) with
  | Returned f => f
  | Thrown => empty_factory (λ _, blank_mesh)
  end.

(** [{ id: 1, nodeThreeObjectType: 'cube', color: 'red' }] *)
Definition red_cube : node :=
  mkNode 1 (Some (KNum 1))
    {[ "nodeThreeObjectType"%string := VStr "cube";
       "color"%string := VStr "red" ]}.

(** [{ id: 2, nodeThreeObjectType: 'cone', color: 'red', val: 8 }] *)
Definition red_cone : node :=
  mkNode 2 (Some (KNum 2))
    {[ "nodeThreeObjectType"%string := VStr "cone";
       "color"%string := VStr "red";
       "val"%string := VNum (Fin 8) ]}.

End NodeTypesExamples.

(** * Properties of the animation manager *)

Module ManagerFacts.

Import AnimationManager.

Section Facts.
Context {astate : Type}.

Abbreviation anim := (AnimationInstance astate).
Abbreviation atype := (AnimationType astate).

(** *** The steps of [tick] on one instance *)

Lemma transition_in_fields dt (a : anim) :
  inst_id (transition_in dt a) = inst_id a ∧
  inst_name (transition_in dt a) = inst_name a ∧
  inst_state (transition_in dt a) = inst_state a ∧
  inst_options (transition_in dt a) = inst_options a ∧
  startTime (transition_in dt a) = startTime a ∧
  stopping (transition_in dt a) = stopping a ∧
  stopStartTime (transition_in dt a) = stopStartTime a ∧
  initialValues (transition_in dt a) = initialValues a.
Proof. unfold transition_in. by destruct (_ && _). Qed.

Lemma transition_out_fields now (a b : anim) :
  transition_out now a = Some b →
  inst_id b = inst_id a ∧ inst_name b = inst_name a ∧
  inst_state b = inst_state a ∧ inst_options b = inst_options a ∧
  startTime b = startTime a ∧ stopping b = stopping a ∧
  stopStartTime b = stopStartTime a ∧ initialValues b = initialValues a.
Proof.
  unfold transition_out. destruct (stopping a) eqn:Hs.
  - destruct (js_ge _ _); [done|]. intros [= <-]. simpl. by rewrite Hs.
  - intros [= <-]. by rewrite Hs.
Qed.

Lemma check_duration_fields now (a : anim) :
  inst_id (check_duration now a) = inst_id a ∧
  inst_name (check_duration now a) = inst_name a ∧
  inst_state (check_duration now a) = inst_state a ∧
  inst_options (check_duration now a) = inst_options a ∧
  startTime (check_duration now a) = startTime a ∧
  initialValues (check_duration now a) = initialValues a ∧
  transitionProgress (check_duration now a) = transitionProgress a.
Proof.
  unfold check_duration. destruct (negb _); [|done]. by destruct (js_ge _ _).
Qed.

(** An instance that [tick] keeps is the same instance: its id, name,
    options, start time and initial values are not touched. *)
Lemma tick_anim_kept types now dt o (a b : anim) obj obj' ev :
  tick_anim types now dt o a obj = (obj', Some b, ev) →
  inst_id b = inst_id a ∧ inst_name b = inst_name a ∧
  inst_options b = inst_options a ∧ startTime b = startTime a ∧
  initialValues b = initialValues a.
Proof.
  unfold tick_anim. destruct (types !! inst_name a) as [ty|]; [|done].
  destruct (transition_out _ _) as [a2|] eqn:Hout.
  - destruct (update _ _ _ _ _ _) as [obj1 [s|]]; [|done].
    intros [= <- <- <-]. simpl.
    destruct (check_duration_fields now a2) as (-> & -> & _ & -> & -> & -> & _).
    destruct (transition_out_fields _ _ _ Hout) as (-> & -> & _ & -> & -> & _ & _ & ->).
    by destruct (transition_in_fields dt a) as (-> & -> & _ & -> & -> & _ & _ & ->).
  - by destruct (cleanupAnimation _ _ _ _).
Qed.

(** Every event of the step of an instance is about that instance. *)
Lemma tick_anim_events types now dt o (a : anim) obj o' i e :
  e ∈ (tick_anim types now dt o a obj).2 →
  is_cleanup_of o' i e = true ∨ is_update_of o' i e = true →
  o' = o ∧ i = inst_id a.
Proof.
  unfold tick_anim. destruct (types !! inst_name a) as [ty|] eqn:Hty; simpl.
  2: by intros ?%elem_of_nil.
  destruct (transition_out _ _) as [a2|] eqn:Hout.
  - pose proof (check_duration_fields now a2) as (Hid & _).
    pose proof (transition_out_fields _ _ _ Hout) as (Hid2 & _).
    pose proof (transition_in_fields dt a) as (Hid3 & _).
    destruct (update _ _ _ _ _ _) as [obj1 [s|]]; simpl; rewrite Hid, Hid2, Hid3.
    + intros ->%list_elem_of_singleton. simpl.
      intros [?|[ ->%Nat.eqb_eq ->%Z.eqb_eq]%andb_true_iff]; done.
    + intros [ -> | ->%list_elem_of_singleton]%elem_of_cons; simpl.
      * intros [?|[ ->%Nat.eqb_eq ->%Z.eqb_eq]%andb_true_iff]; done.
      * by intros [?|?].
  - unfold cleanupAnimation, run_cleanup.
    pose proof (transition_in_fields dt a) as (Hid3 & Hn3 & _).
    rewrite Hn3, Hty, Hid3.
    destruct (cleanup ty) as [c|]; simpl.
    + destruct (c _ _ _) as [obj1 [[]|]]; simpl; rewrite !elem_of_cons;
        intros He; destruct_or!; subst; simpl;
        try (by intros [?|?]); try (by apply elem_of_nil in He);
        intros [[ ->%Nat.eqb_eq ->%Z.eqb_eq]%andb_true_iff|?]; done.
    + intros ->%list_elem_of_singleton; simpl.
      intros [[ ->%Nat.eqb_eq ->%Z.eqb_eq]%andb_true_iff|?]; done.
Qed.

(** *** The inner loop of [tick] *)

Lemma tick_anims_app types now dt o (l1 l2 : list anim) obj :
  tick_anims types now dt o (l1 ++ l2) obj =
  let '(obj2, r2, e2) := tick_anims types now dt o l2 obj in
  let '(obj1, r1, e1) := tick_anims types now dt o l1 obj2 in
  (obj1, r1 ++ r2, e2 ++ e1).
Proof.
  induction l1 as [|a l1 IH]; simpl.
  - destruct (tick_anims _ _ _ _ l2 _) as [[obj2 r2] e2].
    by rewrite app_nil_r.
  - rewrite IH. destruct (tick_anims _ _ _ _ l2 _) as [[obj2 r2] e2].
    destruct (tick_anims _ _ _ _ l1 _) as [[obj1 r1] e1].
    destruct (tick_anim _ _ _ _ _ _) as [[obj3 [b|]] e3];
      by rewrite <- app_assoc.
Qed.

(** The loop only removes instances: the ids left are a sublist. *)
Lemma tick_anims_ids types now dt o (l : list anim) obj :
  ids (tick_anims types now dt o l obj).1.2 `sublist_of` ids l.
Proof.
  induction l as [|a l IH]; simpl; [constructor|].
  destruct (tick_anims _ _ _ _ l _) as [[obj1 r1] e1]. simpl in IH.
  destruct (tick_anim _ _ _ _ _ _) as [[obj2 [b|]] e2] eqn:Ha; simpl.
  - apply tick_anim_kept in Ha as (-> & _). by constructor.
  - by constructor.
Qed.

Lemma tick_anims_events types now dt o (l : list anim) obj o' i e :
  e ∈ (tick_anims types now dt o l obj).2 →
  is_cleanup_of o' i e = true ∨ is_update_of o' i e = true →
  o' = o ∧ i ∈ ids l.
Proof.
  induction l as [|a l IH]; simpl; [by intros ?%elem_of_nil|].
  destruct (tick_anims _ _ _ _ l _) as [[obj1 r1] e1]. simpl in IH.
  destruct (tick_anim _ _ _ _ _ _) as [[obj2 b] e2] eqn:Ha. simpl.
  intros [He|He]%elem_of_app Hk.
  - destruct (IH He Hk) as [-> Hi]. split; [done|]. by right.
  - assert (He' : e ∈ (tick_anim types now dt o a obj1).2) by by rewrite Ha.
    destruct (tick_anim_events _ _ _ _ _ _ _ _ _ He' Hk) as [-> ->].
    split; [done|]. by left.
Qed.

(** With distinct ids, the instance [i] of the list after the loop is
    the instance [i] of the list before, after its step. *)
Lemma tick_anims_find types now dt o (l : list anim) obj i b :
  NoDup (ids l) →
  List.find (λ a, Z.eqb (inst_id a) i) (tick_anims types now dt o l obj).1.2
    = Some b →
  ∃ a obj1 obj2 ev,
    List.find (λ a, Z.eqb (inst_id a) i) l = Some a ∧
    tick_anim types now dt o a obj1 = (obj2, Some b, ev).
Proof.
  induction l as [|a l IH]; simpl; [done|].
  intros [Hnotin Hnd]%NoDup_cons.
  pose proof (tick_anims_ids types now dt o l obj) as Hsub.
  destruct (tick_anims _ _ _ _ l _) as [[obj1 r1] e1]. simpl in IH, Hsub.
  destruct (tick_anim _ _ _ _ _ _) as [[obj2 [b'|]] e2] eqn:Ha; simpl.
  - pose proof (tick_anim_kept _ _ _ _ _ _ _ _ _ Ha) as (Hid & _).
    rewrite Hid. destruct (inst_id a =? i)%Z eqn:Hi.
    + intros [= ->]. by exists a, obj1, obj2, e2.
    + intros Hf. by apply IH.
  - intros Hf. destruct (inst_id a =? i)%Z eqn:Hi; [|by apply IH].
    apply Z.eqb_eq in Hi. subst i. exfalso. apply Hnotin.
    apply find_some in Hf as [Hin Heq%Z.eqb_eq]. rewrite <- Heq.
    eapply sublist_subseteq; [exact Hsub|]. apply list_elem_of_In in Hin.
    unfold ids. by apply list_elem_of_fmap_2.
Qed.

(** *** The outer loop of [tick] *)

Lemma flat_map_ext_elem {A B} (f g : A → list B) (l : list A) :
  (∀ x, x ∈ l → f x = g x) → flat_map f l = flat_map g l.
Proof.
  induction l as [|x l IH]; simpl; [done|]. intros H.
  rewrite (H x) by by left. rewrite IH; [done|].
  intros y Hy. apply H. by right.
Qed.

Lemma store_animations_self (w : world astate) o res :
  objectAnimations (store_animations w o res) !! o = stored res.1.2 ∧
  heap (store_animations w o res) o = res.1.1.
Proof.
  destruct res as [[obj' [|b l']] ev]; simpl.
  - by rewrite lookup_delete_eq, fn_lookup_insert.
  - by rewrite lookup_insert_eq, fn_lookup_insert.
Qed.

Lemma store_animations_other (w : world astate) o res o' :
  o' ≠ o →
  objectAnimations (store_animations w o res) !! o' = objectAnimations w !! o' ∧
  heap (store_animations w o res) o' = heap w o'.
Proof.
  intros Hne. destruct res as [[obj' [|b l']] ev]; simpl.
  - by rewrite lookup_delete_ne, fn_lookup_insert_ne.
  - by rewrite lookup_insert_ne, fn_lookup_insert_ne.
Qed.

Lemma store_animations_rest (w : world astate) o res :
  animationTypes (store_animations w o res) = animationTypes w ∧
  animationIdCounter (store_animations w o res) = animationIdCounter w ∧
  trace (store_animations w o res) = trace w ++ res.2 ∧
  animatedObjects (store_animations w o res) =
    match res.1.2 with
    | [] => set_delete o (animatedObjects w)
    | _ :: _ => animatedObjects w
    end.
Proof. by destruct res as [[obj' [|b l']] ev]. Qed.

Lemma elem_of_set_delete (o x : objref) s :
  x ∈ set_delete o s ↔ x ≠ o ∧ x ∈ s.
Proof. unfold set_delete. by rewrite list_elem_of_filter. Qed.

Lemma NoDup_set_delete (o : objref) s : NoDup s → NoDup (set_delete o s).
Proof. apply NoDup_filter. Qed.

Lemma tick_object_self now dt (w : world astate) o :
  objectAnimations (tick_object now dt w o) !! o = (self_result w now dt o).1 ∧
  heap (tick_object now dt w o) o = (self_result w now dt o).2.
Proof.
  unfold tick_object, self_result.
  destruct (objectAnimations w !! o) as [l|] eqn:Hl; [|done].
  apply store_animations_self.
Qed.

Lemma tick_object_other now dt (w : world astate) o o' :
  o' ≠ o →
  objectAnimations (tick_object now dt w o) !! o' = objectAnimations w !! o' ∧
  heap (tick_object now dt w o) o' = heap w o'.
Proof.
  intros Hne. unfold tick_object.
  destruct (objectAnimations w !! o) as [l|]; [|done].
  by apply store_animations_other.
Qed.

Lemma tick_object_rest now dt (w : world astate) o :
  animationTypes (tick_object now dt w o) = animationTypes w ∧
  animationIdCounter (tick_object now dt w o) = animationIdCounter w ∧
  trace (tick_object now dt w o) = trace w ++ obj_events w now dt o.
Proof.
  unfold tick_object, obj_events.
  destruct (objectAnimations w !! o) as [l|].
  - by destruct (store_animations_rest w o
         (tick_anims (animationTypes w) now dt o l (heap w o))) as (-> & -> & -> & _).
  - by rewrite app_nil_r.
Qed.

Lemma tick_object_animated now dt (w : world astate) o x :
  (x ∈ animatedObjects (tick_object now dt w o) → x ∈ animatedObjects w) ∧
  (x ∈ animatedObjects w →
   x ≠ o ∨ is_Some (objectAnimations (tick_object now dt w o) !! x) →
   x ∈ animatedObjects (tick_object now dt w o)) ∧
  (NoDup (animatedObjects w) → NoDup (animatedObjects (tick_object now dt w o))).
Proof.
  pose proof (tick_object_self now dt w o) as [Hself _]. revert Hself.
  unfold tick_object, self_result.
  destruct (objectAnimations w !! o) as [l|]; [|by intros _].
  set (res := tick_anims _ _ _ _ _ _). intros Hself.
  destruct (store_animations_rest w o res) as (_ & _ & _ & ->).
  simpl in Hself. destruct (res.1.2) as [|b l'].
  - split_and!.
    + by intros [_ ?]%elem_of_set_delete.
    + intros Hx [Hne|Hsome]; apply elem_of_set_delete.
      * done.
      * split; [|done]. intros ->. rewrite Hself in Hsome. by destruct Hsome.
    + apply NoDup_set_delete.
  - done.
Qed.

(** The pass for one object depends only on the registry and on the
    list and the contents of that object. *)
Lemma self_result_local (w1 w2 : world astate) now dt o :
  animationTypes w1 = animationTypes w2 →
  objectAnimations w1 !! o = objectAnimations w2 !! o →
  heap w1 o = heap w2 o →
  self_result w1 now dt o = self_result w2 now dt o ∧
  obj_events w1 now dt o = obj_events w2 now dt o.
Proof.
  intros Ht Hl Hh. unfold self_result, obj_events. by rewrite Ht, Hl, Hh.
Qed.

Lemma foldl_tick_object now dt os :
  NoDup os → ∀ w : world astate,
  let w' := foldl (tick_object now dt) w os in
  animationTypes w' = animationTypes w ∧
  animationIdCounter w' = animationIdCounter w ∧
  trace w' = trace w ++ flat_map (obj_events w now dt) os ∧
  (∀ o, o ∉ os →
     objectAnimations w' !! o = objectAnimations w !! o ∧
     heap w' o = heap w o) ∧
  (∀ o, o ∈ os →
     objectAnimations w' !! o = (self_result w now dt o).1 ∧
     heap w' o = (self_result w now dt o).2) ∧
  (∀ o, o ∈ animatedObjects w' → o ∈ animatedObjects w) ∧
  (∀ o, o ∈ animatedObjects w → is_Some (objectAnimations w' !! o) →
     o ∈ animatedObjects w') ∧
  (NoDup (animatedObjects w) → NoDup (animatedObjects w')).
Proof.
  induction 1 as [|o1 os Hnotin Hnd IH]; intros w; simpl.
  - split_and!; try done. by rewrite app_nil_r. by intros o ?%elem_of_nil.
  - specialize (IH (tick_object now dt w o1)).
    destruct IH as (Ht & Hc & Htr & Hout & Hin & Hsub & Hkeep & Hnodup).
    destruct (tick_object_rest now dt w o1) as (Ht1 & Hc1 & Htr1).
    split_and!.
    + by rewrite Ht.
    + by rewrite Hc.
    + rewrite Htr, Htr1, <- app_assoc. f_equal. f_equal.
      apply flat_map_ext_elem. intros o Ho.
      assert (o ≠ o1) as Hne by (by intros ->).
      destruct (tick_object_other now dt w o1 o Hne) as [Hl Hh].
      by eapply self_result_local.
    + intros o [Hne Ho]%not_elem_of_cons.
      destruct (Hout o Ho) as [-> ->]. by apply tick_object_other.
    + intros o [->|Ho]%elem_of_cons.
      * destruct (Hout o1 Hnotin) as [-> ->]. apply tick_object_self.
      * assert (o ≠ o1) as Hne by (by intros ->).
        destruct (Hin o Ho) as [-> ->].
        destruct (tick_object_other now dt w o1 o Hne) as [Hl Hh].
        by destruct (self_result_local _ w now dt o Ht1 Hl Hh) as [-> _].
    + intros o Ho%Hsub. by apply (tick_object_animated now dt w o1 o).
    + intros o Ho Hsome. apply Hkeep; [|done].
      apply (tick_object_animated now dt w o1 o); [done|].
      destruct (decide (o = o1)) as [->|Hne]; [right|by left].
      by destruct (Hout o1 Hnotin) as [<- _].
    + intros Hw. by apply Hnodup, (tick_object_animated now dt w o1 o1).
Qed.

Lemma stored_Some (l l' : list anim) : stored l = Some l' → l' = l.
Proof. destruct l; [done|]. by intros [= <-]. Qed.

Lemma tick_spec (w : world astate) now dt :
  NoDup (animatedObjects w) →
  animationTypes (tick w now dt) = animationTypes w ∧
  trace (tick w now dt) =
    trace w ++ flat_map (obj_events w now dt) (animatedObjects w) ∧
  (∀ o, o ∉ animatedObjects w →
     objectAnimations (tick w now dt) !! o = objectAnimations w !! o ∧
     heap (tick w now dt) o = heap w o) ∧
  (∀ o, o ∈ animatedObjects w →
     objectAnimations (tick w now dt) !! o = (self_result w now dt o).1 ∧
     heap (tick w now dt) o = (self_result w now dt o).2) ∧
  (∀ o, o ∈ animatedObjects w →
     is_Some (objectAnimations (tick w now dt) !! o) →
     o ∈ animatedObjects (tick w now dt)).
Proof.
  intros Hnd.
  destruct (foldl_tick_object now dt _ Hnd w)
    as (Ht & _ & Htr & Hout & Hin & _ & Hkeep & _).
  by split_and!.
Qed.

Lemma tick_wf (w : world astate) now dt : wf w → wf (tick w now dt).
Proof.
  intros [Hnd Hids].
  destruct (foldl_tick_object now dt _ Hnd w)
    as (_ & _ & _ & Hout & Hin & _ & _ & Hnd').
  split; [by apply Hnd'|]. intros o l' Hl'.
  destruct (decide (o ∈ animatedObjects w)) as [Ho|Ho].
  - destruct (Hin o Ho) as [Hl _]. unfold tick in Hl'. rewrite Hl in Hl'.
    unfold self_result in Hl'.
    destruct (objectAnimations w !! o) as [l|] eqn:Hlo; [|done].
    simpl in Hl'. apply stored_Some in Hl' as ->.
    eapply sublist_NoDup; [by eapply Hids|]. apply tick_anims_ids.
  - destruct (Hout o Ho) as [Hl _]. unfold tick in Hl'. rewrite Hl in Hl'.
    by eapply Hids.
Qed.

(** The instance [i] of a tracked object after a [tick] is the instance
    [i] before it, after its step; its object stays tracked. *)
Lemma tick_lookup_instance (w : world astate) now dt o i b :
  wf w → o ∈ animatedObjects w →
  lookup_instance (tick w now dt) o i = Some b →
  ∃ a obj1 obj2 ev,
    lookup_instance w o i = Some a ∧
    tick_anim (animationTypes w) now dt o a obj1 = (obj2, Some b, ev) ∧
    o ∈ animatedObjects (tick w now dt).
Proof.
  intros [Hnd Hids] Ho Hb.
  destruct (tick_spec w now dt Hnd) as (_ & _ & _ & Hin & Hkeep).
  destruct (Hin o Ho) as [Hl _]. unfold lookup_instance in *.
  assert (is_Some (objectAnimations (tick w now dt) !! o)) as Hsome.
  { destruct (objectAnimations (tick w now dt) !! o); [by eexists|done]. }
  rewrite Hl in Hb. unfold self_result in Hb.
  destruct (objectAnimations w !! o) as [l|] eqn:Hlo; [|done].
  simpl in Hb.
  destruct (stored _) as [l'|] eqn:Hst; [|done]. simpl in Hb.
  apply stored_Some in Hst as ->.
  destruct (tick_anims_find _ _ _ _ _ _ _ _ (Hids _ _ Hlo) Hb)
    as (a & obj1 & obj2 & ev & Hfa & Hstep).
  exists a, obj1, obj2, ev. split_and!; [done|done|by apply Hkeep].
Qed.

Lemma ticks_app (w : world astate) l1 l2 dt :
  ticks w (l1 ++ l2) dt = ticks (ticks w l1 dt) l2 dt.
Proof. revert w. induction l1 as [|x l1 IH]; intros w; simpl; [done|]. apply IH. Qed.

Lemma ticks_wf (w : world astate) nows dt : wf w → wf (ticks w nows dt).
Proof.
  revert w. induction nows as [|x l IH]; intros w Hw; simpl; [done|].
  by apply IH, tick_wf.
Qed.

(** *** The transition in *)


Lemma js_div_pos (x d : Q) : 0 < d → js_div (Fin x) (Fin d) = Fin (x / d).
Proof.
  intros Hd. simpl. destruct (Qeq_bool d 0) eqn:E; [|done].
  apply Qeq_bool_iff in E. exfalso. lra.
Qed.




(** *** Instances that a tick removes *)

Lemma find_ids_None (l : list anim) i :
  i ∉ ids l → List.find (λ a, Z.eqb (inst_id a) i) l = None.
Proof.
  induction l as [|a l IH]; simpl; [done|].
  intros [Hne Hl]%not_elem_of_cons.
  destruct (inst_id a =? i)%Z eqn:E; [|by apply IH].
  apply Z.eqb_eq in E. congruence.
Qed.

Lemma stored_find (l : list anim) (p : anim → bool) :
  stored l ≫= List.find p = List.find p l.
Proof. by destruct l. Qed.

Lemma ids_app (l1 l2 : list anim) : ids (l1 ++ l2) = ids l1 ++ ids l2.
Proof. apply map_app. Qed.

Lemma NoDup_ids_middle (l1 l2 : list anim) a :
  NoDup (ids (l1 ++ a :: l2)) →
  (inst_id a ∉ ids l1) ∧ (inst_id a ∉ ids l2) ∧ NoDup (ids (l1 ++ l2)).
Proof.
  rewrite !ids_app. simpl. rewrite !NoDup_app, NoDup_cons.
  intros (H1 & H12 & H2 & H3). split_and!; try done.
  - intros Hin. apply (H12 _ Hin). by left.
  - intros x Hx Hx2. apply (H12 _ Hx). by right.
Qed.

(** The pass over a list, cut at one instance. *)
Lemma tick_anims_middle types now dt o (l1 l2 : list anim) a obj :
  tick_anims types now dt o (l1 ++ a :: l2) obj =
  let r2 := tick_anims types now dt o l2 obj in
  let ra := tick_anim types now dt o a r2.1.1 in
  let r1 := tick_anims types now dt o l1 ra.1.1 in
  (r1.1.1,
   r1.1.2 ++ match ra.1.2 with Some b => b :: r2.1.2 | None => r2.1.2 end,
   (r2.2 ++ ra.2) ++ r1.2).
Proof.
  rewrite tick_anims_app. simpl.
  destruct (tick_anims _ _ _ _ l2 _) as [[obj2 r2] e2]. simpl.
  destruct (tick_anim _ _ _ _ _ _) as [[obj3 b] e3]. simpl.
  by destruct (tick_anims _ _ _ _ l1 _) as [[obj1 r1] e1].
Qed.

(** An event of a tick about an instance of [o] is an event of the pass
    over [o]. *)
Lemma tick_trace_about (w : world astate) now dt o i e :
  e ∈ flat_map (obj_events w now dt) (animatedObjects w) →
  is_cleanup_of o i e = true ∨ is_update_of o i e = true →
  e ∈ obj_events w now dt o.
Proof.
  intros He Hk. apply list_elem_of_In, in_flat_map in He as (o' & _ & He).
  apply list_elem_of_In in He. revert He. unfold obj_events.
  destruct (objectAnimations w !! o') as [l|] eqn:Hl; [|by intros ?%elem_of_nil].
  intros He. destruct (tick_anims_events _ _ _ _ _ _ _ _ _ He Hk) as [-> _].
  by rewrite Hl.
Qed.

Lemma tick_removed (w : world astate) now dt o (l1 l2 : list anim) a obj' ev :
  wf w → o ∈ animatedObjects w →
  objectAnimations w !! o = Some (l1 ++ a :: l2) →
  let r2 := tick_anims (animationTypes w) now dt o l2 (heap w o) in
  tick_anim (animationTypes w) now dt o a r2.1.1 = (obj', None, ev) →
  Forall (λ e, is_cleanup_of o (inst_id a) e = false) ev →
  let r1 := tick_anims (animationTypes w) now dt o l1 obj' in
  objectAnimations (tick w now dt) !! o = stored (r1.1.2 ++ r2.1.2) ∧
  heap (tick w now dt) o = r1.1.1 ∧
  lookup_instance (tick w now dt) o (inst_id a) = None ∧
  ∃ evs, trace (tick w now dt) = trace w ++ evs ∧
         Forall (λ e, is_cleanup_of o (inst_id a) e = false) evs.
Proof.
  intros [Hnd Hids] Ho Hl r2 Ha Hev r1.
  destruct (tick_spec w now dt Hnd) as (_ & Htr & _ & Hin & _).
  destruct (Hin o Ho) as [Hl' Hh'].
  unfold self_result in Hl', Hh'. rewrite Hl in Hl', Hh'.
  rewrite tick_anims_middle in Hl', Hh'. cbv zeta in Hl', Hh'.
  fold r2 in Hl', Hh'.
  rewrite Ha in Hl', Hh'. simpl in Hl', Hh'. fold r1 in Hl', Hh'.
  pose proof (Hids _ _ Hl) as Hnodup. simpl in Hnodup.
  apply NoDup_ids_middle in Hnodup as (Hn1 & Hn2 & _).
  assert (inst_id a ∉ ids (r1.1.2 ++ r2.1.2)) as Hnotin.
  { rewrite ids_app. intros [H|H]%elem_of_app.
    - apply Hn1. eapply sublist_subseteq; [apply tick_anims_ids|exact H].
    - apply Hn2. eapply sublist_subseteq; [apply tick_anims_ids|exact H]. }
  split_and!; [done|done| |].
  - unfold lookup_instance. rewrite Hl', stored_find.
    by apply find_ids_None.
  - eexists. split; [exact Htr|]. apply Forall_forall. intros e He.
    destruct (is_cleanup_of o (inst_id a) e) eqn:Hc; [|done]. exfalso.
    apply (tick_trace_about w now dt o (inst_id a)) in He; [|by left].
    unfold obj_events in He. rewrite Hl, tick_anims_middle in He.
    cbv zeta in He. fold r2 in He. rewrite Ha in He. simpl in He. fold r1 in He.
    apply elem_of_app in He as [[He|He]%elem_of_app|He].
    + apply Hn2. eapply (tick_anims_events _ _ _ _ _ _ o); [exact He|by left].
    + rewrite Forall_forall in Hev. specialize (Hev e He). congruence.
    + apply Hn1. eapply (tick_anims_events _ _ _ _ _ _ o); [exact He|by left].
Qed.

(** *** Instances whose update function a tick calls *)

Lemma tick_anim_calls_update types now dt o (a : anim) obj :
  reaches_update types now dt a = true →
  ∃ tp ev, (tick_anim types now dt o a obj).2
           = EvUpdate o (inst_id a) tp :: ev.
Proof.
  intros [[ty Hty]%bool_decide_eq_true [a2 Hout]%bool_decide_eq_true]%andb_true_iff.
  unfold tick_anim. rewrite Hty, Hout.
  destruct (check_duration_fields now a2) as (Hid & _).
  destruct (transition_out_fields _ _ _ Hout) as (Hid2 & _).
  destruct (transition_in_fields dt a) as (Hid3 & _).
  destruct (update _ _ _ _ _ _) as [obj1 [s|]]; simpl;
    rewrite Hid, Hid2, Hid3; by eexists _, _.
Qed.

Lemma tick_anims_calls_update types now dt o (l : list anim) b obj :
  b ∈ l → reaches_update types now dt b = true →
  ∃ e, e ∈ (tick_anims types now dt o l obj).2 ∧
       is_update_of o (inst_id b) e = true.
Proof.
  intros Hb Hr. induction l as [|a l IH]; [by apply elem_of_nil in Hb|].
  simpl. destruct (tick_anims _ _ _ _ l _) as [[obj1 r1] e1] eqn:Hl.
  simpl in IH.
  destruct (tick_anim _ _ _ _ _ _) as [[obj2 a'] e2] eqn:Ha. simpl.
  apply elem_of_cons in Hb as [->|Hb].
  - destruct (tick_anim_calls_update types now dt o a obj1 Hr)
      as (tp & ev & Hev). rewrite Ha in Hev. simpl in Hev. subst e2.
    eexists. split; [apply elem_of_app; right; by left|].
    simpl. by rewrite Nat.eqb_refl, Z.eqb_refl.
  - destruct (IH Hb) as (e & He & Hup). exists e. split; [|done].
    apply elem_of_app. by left.
Qed.

Lemma tick_calls_update (w : world astate) now dt o (l : list anim) b :
  o ∈ animatedObjects w → objectAnimations w !! o = Some l → b ∈ l →
  reaches_update (animationTypes w) now dt b = true →
  ∃ e, e ∈ flat_map (obj_events w now dt) (animatedObjects w) ∧
       is_update_of o (inst_id b) e = true.
Proof.
  intros Ho Hl Hb Hr.
  destruct (tick_anims_calls_update (animationTypes w) now dt o l b (heap w o)
              Hb Hr) as (e & He & Hup).
  exists e. split; [|done]. apply list_elem_of_In, in_flat_map.
  exists o. split; [by apply list_elem_of_In|]. apply list_elem_of_In.
  unfold obj_events. by rewrite Hl.
Qed.

(** *** The loop of [stopAnimation] *)

Lemma stop_anims_app types o sel imm now (l1 l2 : list anim) obj :
  stop_anims types o sel imm now (l1 ++ l2) obj =
  let '(obj2, r2, e2) := stop_anims types o sel imm now l2 obj in
  let '(obj1, r1, e1) := stop_anims types o sel imm now l1 obj2 in
  (obj1, r1 ++ r2, e2 ++ e1).
Proof.
  induction l1 as [|a l1 IH]; simpl.
  - destruct (stop_anims _ _ _ _ _ l2 _) as [[obj2 r2] e2].
    by rewrite app_nil_r.
  - rewrite IH. destruct (stop_anims _ _ _ _ _ l2 _) as [[obj2 r2] e2].
    destruct (stop_anims _ _ _ _ _ l1 _) as [[obj1 r1] e1].
    destruct (shouldStop sel a && negb (stopping a)); [|done].
    destruct imm; [|done].
    destruct (cleanupAnimation _ _ _ _) as [obj3 e3].
    by rewrite <- app_assoc.
Qed.

(** Instances that are not selected, or are stopping already, are left
    alone. *)
Lemma stop_anims_skip types o sel imm now (l : list anim) obj :
  Forall (λ b, shouldStop sel b && negb (stopping b) = false) l →
  stop_anims types o sel imm now l obj = (obj, l, []).
Proof.
  induction 1 as [|b l Hb Hl IH]; simpl; [done|]. by rewrite IH, Hb.
Qed.

Lemma stop_anims_one types o sel imm now (l1 l2 : list anim) a obj :
  Forall (λ b, shouldStop sel b && negb (stopping b) = false) (l1 ++ l2) →
  shouldStop sel a && negb (stopping a) = true →
  stop_anims types o sel imm now (l1 ++ a :: l2) obj =
  if imm then
    ((cleanupAnimation types o a obj).1, l1 ++ l2,
     (cleanupAnimation types o a obj).2)
  else (obj, l1 ++ mark_stopping a now :: l2, []).
Proof.
  intros [H1 H2]%Forall_app Ha. rewrite stop_anims_app. simpl.
  rewrite (stop_anims_skip _ _ _ _ _ l2) by done. rewrite Ha.
  destruct imm.
  - destruct (cleanupAnimation _ _ _ _) as [obj3 e3]. simpl.
    rewrite (stop_anims_skip _ _ _ _ _ l1) by done. by rewrite app_nil_r.
  - by rewrite (stop_anims_skip _ _ _ _ _ l1) by done.
Qed.

Lemma is_running_shouldStop (T : string) (b : anim) :
  shouldStop (SelName T) b && negb (stopping b) = is_running T b.
Proof. done. Qed.

Lemma existsb_false_Forall {A} (p : A → bool) (l : list A) :
  Forall (λ b, p b = false) l → existsb p l = false.
Proof. induction 1 as [|b l Hb Hl IH]; simpl; [done|]. by rewrite Hb, IH. Qed.

Lemma isAnimating_stored (w : world astate) o (l : list anim) name :
  objectAnimations w !! o = stored l →
  isAnimating w (Some o) name =
  match name with
  | Some n =>
      if negb (String.eqb n EmptyString) then existsb (is_running n) l
      else existsb (λ a, negb (stopping a)) l
  | None => existsb (λ a, negb (stopping a)) l
  end.
Proof.
  intros Hl. unfold isAnimating. rewrite Hl.
  destruct l as [|b l]; simpl; [|done].
  destruct name as [n|]; [|done]. by destruct (negb _).
Qed.

(** *** The restoration *)

Lemma restore_fields (initial : InitialValues) (obj : Object3D) :
  scale (restore initial obj) = iv_scale initial ∧
  rotation (restore initial obj) = iv_rotation initial ∧
  position (restore initial obj) = position obj.
Proof. done. Qed.

Lemma restore_material_fields (initial : InitialValues) (obj : Object3D)
    (im mat : Material) :
  iv_material initial = Some im → material obj = Some mat →
  ∃ mat', material (restore initial obj) = Some mat' ∧
    (∀ x, emissiveIntensity im = Some x → emissiveIntensity mat' = Some x) ∧
    (∀ x, opacity im = Some x → opacity mat' = Some x) ∧
    (∀ e, emissive im = Some e → is_Some (emissive mat) →
          emissive mat' = Some e) ∧
    (∀ c, color im = Some c → is_Some (color mat) → color mat' = Some c).
Proof.
  intros Him Hmat. unfold restore. simpl. rewrite Him, Hmat.
  eexists. split; [done|]. unfold restore_material. simpl. split_and!.
  - by intros x ->.
  - by intros x ->.
  - intros e -> [e' ->]. done.
  - intros c -> [c' ->]. done.
Qed.

(** What [startAnimation] puts into a new instance: the clones of the
    object as [init] left it. *)
Lemma startAnimation_captures (e : astate) (w : world astate) now o name opts
    ty i :
  animationTypes w !! name = Some ty →
  List.find (is_running name) (default [] (objectAnimations w !! o)) = None →
  (startAnimation e w now (Some o) name opts).2 = Returned i →
  let w' := (startAnimation e w now (Some o) name opts).1 in
  ∃ a, objectAnimations w' !! o
       = Some (default [] (objectAnimations w !! o) ++ [a]) ∧
       inst_id a = i ∧ inst_name a = name ∧ stopping a = false ∧
       transitionProgress a = Fin 0 ∧ startTime a = now ∧
       initialValues a = capture (heap w' o) ∧
       o ∈ animatedObjects w'.
Proof.
  intros Hty Hfind. unfold startAnimation. rewrite Hty, Hfind.
  destruct (init ty) as [f|].
  - destruct (f (heap w o) _) as [obj1 [s|]] eqn:Hf; [|done].
    simpl. intros [= <-]. eexists. rewrite lookup_insert_eq. split; [done|].
    simpl. rewrite fn_lookup_insert. split_and!; try done.
    unfold set_add. case_decide; [done|]. apply elem_of_app. right. by left.
  - simpl. intros [= <-]. eexists. rewrite lookup_insert_eq. split; [done|].
    simpl. rewrite fn_lookup_insert. split_and!; try done.
    unfold set_add. case_decide; [done|]. apply elem_of_app. right. by left.
Qed.

Lemma stopAnimation_some (w : world astate) now o sel imm (l1 l2 : list anim) a :
  objectAnimations w !! o = Some (l1 ++ a :: l2) →
  stopAnimation w now (Some o) sel imm =
  store_animations w o
    (stop_anims (animationTypes w) o sel imm now (l1 ++ a :: l2) (heap w o)).
Proof.
  intros Hl. unfold stopAnimation. rewrite Hl.
  destruct (l1 ++ a :: l2) eqn:E; [|done]. by destruct l1.
Qed.

(** *** The transition out *)

Lemma transition_in_stopping dt (b : anim) :
  stopping b = true → transition_in dt b = b.
Proof. intros Hs. unfold transition_in. by rewrite Hs, andb_false_r. Qed.

(** The step of a stopping instance: it is cleaned up when the stop
    progress has reached 1, else its update function is called with
    [1 - stopProgress]. *)
Lemma stopping_step types now dt o (b : anim) obj ty :
  types !! inst_name b = Some ty → stopping b = true →
  let tp := js_sub (Fin 1) (stopProgress now b) in
  (js_ge (stopProgress now b) (Fin 1) = true →
   tick_anim types now dt o b obj
   = ((cleanupAnimation types o b obj).1, None,
      (cleanupAnimation types o b obj).2)) ∧
  (js_ge (stopProgress now b) (Fin 1) = false →
   ∃ r obj', update ty obj (inst_state b) dt (inst_options b) tp = (obj', r) ∧
     match r with
     | Returned s =>
         ∃ b', tick_anim types now dt o b obj
               = (obj', Some b', [EvUpdate o (inst_id b) tp]) ∧
               stopping b' = true ∧ transitionProgress b' = tp
     | Thrown =>
         tick_anim types now dt o b obj
         = (obj', None, [EvUpdate o (inst_id b) tp; EvError (inst_name b)])
     end).
Proof.
  intros Hty Hs tp. unfold tick_anim.
  rewrite Hty, transition_in_stopping by done.
  unfold transition_out. rewrite Hs. split; intros Hge; rewrite Hge.
  - by destruct (cleanupAnimation _ _ _ _).
  - fold tp. set (b2 := set_transitionProgress b tp).
    assert (inst_state (check_duration now b2) = inst_state b ∧
            inst_options (check_duration now b2) = inst_options b ∧
            transitionProgress (check_duration now b2) = tp ∧
            inst_id (check_duration now b2) = inst_id b ∧
            inst_name (check_duration now b2) = inst_name b ∧
            stopping (check_duration now b2) = true)
      as (-> & -> & -> & -> & -> & Hs3).
    { unfold b2.
      destruct (check_duration_fields now (set_transitionProgress b tp))
        as (-> & -> & -> & -> & _ & _ & ->).
      simpl. split_and!; try done. unfold check_duration.
      repeat case_match; simpl; done. }
    destruct (update ty obj _ _ _ _) as [obj' [s|]] eqn:Hup.
    + exists (Returned s), obj'. split; [done|]. eexists. split; [done|].
      simpl. split; [done|].
      by destruct (check_duration_fields now b2) as (_&_&_&_&_&_& ->).
    + by exists Thrown, obj'.
Qed.


Lemma stop_progress_below (b : anim) (d now : Q) :
  transitionDuration b = Fin d → 0 < d → now - stopStartTime b < d →
  stopProgress now b = Fin ((now - stopStartTime b) / d) ∧
  js_ge (stopProgress now b) (Fin 1) = false.
Proof.
  intros Hd Hpos Hlt. unfold stopProgress. rewrite Hd, js_div_pos by done.
  assert ((now - stopStartTime b) / d < 1) as Hy.
  { apply Qlt_shift_div_r; [done|]. lra. }
  assert (Qle_bool 1 ((now - stopStartTime b) / d) = false) as Hf.
  { destruct (Qle_bool _ _) eqn:E; [|done]. apply Qle_bool_iff in E. lra. }
  simpl. by rewrite Hf.
Qed.

(** A non-looping instance that is past its duration and is ticked
    while its stop progress is below 1 has its stop-start time set to
    the time of that tick. *)
Lemma stop_start_reset types now dt o (b : anim) obj ty (d D : Q) obj' s :
  types !! inst_name b = Some ty → stopping b = true →
  transitionDuration b = Fin d → 0 < d → now - stopStartTime b < d →
  truthy (prop (inst_options b) "loop") = false →
  to_number (prop (inst_options b) "duration") = Fin D →
  D <= now - startTime b →
  update ty obj (inst_state b) dt (inst_options b)
    (js_sub (Fin 1) (stopProgress now b)) = (obj', Returned s) →
  ∃ b', tick_anim types now dt o b obj
        = (obj', Some b',
           [EvUpdate o (inst_id b) (js_sub (Fin 1) (stopProgress now b))]) ∧
        stopping b' = true ∧ stopStartTime b' = now.
Proof.
  intros Hty Hs Hd Hpos Hlt Hloop HD Hel Hup.
  destruct (stop_progress_below b d now Hd Hpos Hlt) as [_ Hge].
  unfold tick_anim. rewrite Hty, transition_in_stopping by done.
  unfold transition_out. rewrite Hs, Hge.
  set (tp := js_sub (Fin 1) (stopProgress now b)) in *.
  assert (check_duration now (set_transitionProgress b tp)
          = mark_stopping (set_transitionProgress b tp) now) as ->.
  { unfold check_duration.
    cbn [inst_options set_transitionProgress startTime].
    rewrite Hloop, HD. cbn [negb js_ge].
    apply Qle_bool_iff in Hel. by rewrite Hel. }
  cbn [mark_stopping set_transitionProgress inst_state inst_options
       transitionProgress inst_id].
  rewrite Hup. by eexists.
Qed.

(** *** Starting a type that is running already *)

Lemma startAnimation_existing (e : astate) (w : world astate) now o T opts
    ty (l : list anim) existing :
  animationTypes w !! T = Some ty →
  objectAnimations w !! o = Some l →
  List.find (is_running T) l = Some existing →
  startAnimation e w now (Some o) T opts =
  (mkWorld (animationTypes w) (animatedObjects w)
     (<[o := update_first (is_running T)
               (λ a, set_options a (spread (defaultOptions ty) opts)) l]>
        (objectAnimations w))
     (animationIdCounter w) (heap w) (trace w),
   Returned (inst_id existing)).
Proof.
  intros Hty Hl Hfind. unfold startAnimation. rewrite Hty, Hl. simpl.
  by rewrite Hfind.
Qed.

Lemma update_first_length (p : anim → bool) f (l : list anim) :
  length (update_first p f l) = length l.
Proof.
  induction l as [|a l IH]; simpl; [done|].
  destruct (p a); simpl; by rewrite ?IH.
Qed.

(** *** The invariant *)

Lemma running_names_cons (a : anim) (l : list anim) :
  running_names (a :: l) =
  if stopping a then running_names l else inst_name a :: running_names l.
Proof.
  unfold running_names. rewrite filter_cons.
  destruct (stopping a); by case_decide.
Qed.

Lemma running_names_app (l1 l2 : list anim) :
  running_names (l1 ++ l2) = running_names l1 ++ running_names l2.
Proof. unfold running_names. by rewrite filter_app, map_app. Qed.

Lemma running_names_elem (T : string) (b : anim) (l : list anim) :
  b ∈ l → is_running T b = true → T ∈ running_names l.
Proof.
  intros Hb [Hn Hs]%andb_true_iff. apply String.eqb_eq in Hn.
  apply negb_true_iff in Hs. subst T. unfold running_names.
  apply list_elem_of_fmap_2, list_elem_of_filter. by split.
Qed.

Lemma fades_ids (l l' : list anim) : fades l l' → ids l' `sublist_of` ids l.
Proof.
  induction 1 as [|a l l' _ IH|a b l l' _ IH Hid _ _]; simpl.
  - constructor.
  - by constructor.
  - rewrite Hid. by constructor.
Qed.

Lemma fades_running (l l' : list anim) :
  fades l l' → running_names l' `sublist_of` running_names l.
Proof.
  induction 1 as [|a l l' _ IH|a b l l' _ IH _ Hn Hs].
  - constructor.
  - rewrite running_names_cons. destruct (stopping a); [done|by constructor].
  - rewrite !running_names_cons, Hn.
    destruct (stopping a) eqn:Ha.
    + by rewrite Hs.
    + destruct (stopping b); by constructor.
Qed.

Lemma fades_Forall (P : Z → string → Prop) (l l' : list anim) :
  fades l l' →
  Forall (λ a, P (inst_id a) (inst_name a)) l →
  Forall (λ a, P (inst_id a) (inst_name a)) l'.
Proof.
  induction 1 as [|a l l' _ IH|a b l l' _ IH Hid Hn _];
    intros Hl; [done| |].
  - apply Forall_cons in Hl as [_ Hl]. by apply IH.
  - apply Forall_cons in Hl as [Ha Hl]. constructor; [|by apply IH].
    by rewrite Hid, Hn.
Qed.

Lemma fades_refl (l : list anim) : fades l l.
Proof. induction l; [constructor|by apply fades_keep]. Qed.

Lemma tick_anim_stopping types now dt o (a b : anim) obj obj' ev :
  tick_anim types now dt o a obj = (obj', Some b, ev) →
  stopping a = true → stopping b = true.
Proof.
  unfold tick_anim. destruct (types !! inst_name a) as [ty|]; [|done].
  intros Hstep Hs. rewrite transition_in_stopping in Hstep by done.
  revert Hstep. unfold transition_out. rewrite Hs.
  destruct (js_ge _ _); [by destruct (cleanupAnimation _ _ _ _)|].
  destruct (update _ _ _ _ _ _) as [obj1 [s|]]; [|done].
  intros [= _ <- _]. simpl. unfold check_duration.
  repeat case_match; simpl; done.
Qed.

Lemma tick_anims_fades types now dt o (l : list anim) obj :
  fades l (tick_anims types now dt o l obj).1.2.
Proof.
  induction l as [|a l IH]; simpl; [constructor|].
  destruct (tick_anims _ _ _ _ l _) as [[obj1 r1] e1]. simpl in IH.
  destruct (tick_anim _ _ _ _ _ _) as [[obj2 [b|]] e2] eqn:Ha; simpl.
  - destruct (tick_anim_kept _ _ _ _ _ _ _ _ _ Ha) as (Hid & Hn & _).
    apply fades_keep; try done. by eapply tick_anim_stopping.
  - by apply fades_drop.
Qed.

Lemma stop_anims_fades types o sel imm now (l : list anim) obj :
  fades l (stop_anims types o sel imm now l obj).1.2.
Proof.
  induction l as [|a l IH]; simpl; [constructor|].
  destruct (stop_anims _ _ _ _ _ l _) as [[obj1 r1] e1]. simpl in IH.
  destruct (shouldStop sel a && negb (stopping a)).
  - destruct imm.
    + destruct (cleanupAnimation _ _ _ _) as [obj2 e2]. by apply fades_drop.
    + by apply fades_keep.
  - by apply fades_keep.
Qed.

Lemma inv_wf (w : world astate) : inv w → wf w.
Proof.
  intros (Hnd & _ & Hall). split; [done|].
  intros o l Hl. by destruct (Hall o l Hl).
Qed.

(** A loop that drops instances and marks instances as stopping keeps
    the invariant. *)
Lemma store_inv (w : world astate) o (l l' : list anim) obj' ev :
  inv w → objectAnimations w !! o = Some l → fades l l' →
  inv (store_animations w o (obj', l', ev)).
Proof.
  intros (Hnd & Hempty & Hall) Hl Hf.
  destruct (Hall o l Hl) as (Hids & Hbound & Htracked & Hrun).
  assert (NoDup (ids l') ∧
          Forall (λ a, (inst_id a <= animationIdCounter w)%Z ∧
                       inst_name a ≠ EmptyString) l' ∧
          (running_names l' ≠ [] → o ∈ animatedObjects w) ∧
          NoDup (running_names l')) as (Hids' & Hbound' & Htracked' & Hrun').
  { split_and!.
    - eapply sublist_NoDup; [exact Hids|by apply fades_ids].
    - by apply (fades_Forall
                  (λ i n, (i <= animationIdCounter w)%Z ∧ n ≠ EmptyString) l).
    - intros Hne. apply Htracked. intros Hnil.
      pose proof (fades_running _ _ Hf) as Hsub. rewrite Hnil in Hsub.
      by apply sublist_nil_r in Hsub.
    - eapply sublist_NoDup; [exact Hrun|by apply fades_running]. }
  destruct l' as [|b l']; simpl.
  - split_and!; [by apply NoDup_set_delete|done|].
    intros o' k Hk. simpl in Hk.
    destruct (decide (o' = o)) as [->|Hne];
      [by rewrite lookup_delete_eq in Hk|].
    rewrite lookup_delete_ne in Hk by done.
    destruct (Hall o' k Hk) as (H1 & H2 & H3 & H4).
    split_and!; try done. simpl. intros Hr.
    apply elem_of_set_delete. split; [done|by apply H3].
  - split_and!; [done|done|].
    intros o' k Hk. simpl in Hk.
    destruct (decide (o' = o)) as [->|Hne].
    + rewrite lookup_insert_eq in Hk. injection Hk as <-. by split_and!.
    + rewrite lookup_insert_ne in Hk by done. by apply Hall.
Qed.

Lemma tick_object_inv now dt (w : world astate) o :
  inv w → inv (tick_object now dt w o).
Proof.
  intros Hinv. unfold tick_object.
  destruct (objectAnimations w !! o) as [l|] eqn:Hl; [|done].
  pose proof (tick_anims_fades (animationTypes w) now dt o l (heap w o)) as Hf.
  destruct (tick_anims _ _ _ _ _ _) as [[obj' l'] ev]. by eapply store_inv.
Qed.

Lemma tick_inv (w : world astate) now dt : inv w → inv (tick w now dt).
Proof.
  unfold tick. generalize (animatedObjects w) as os. intros os. revert w.
  induction os as [|o os IH]; intros w Hinv; simpl; [done|].
  by apply IH, tick_object_inv.
Qed.


Lemma stopAnimation_inv (w : world astate) now object sel imm :
  inv w → inv (stopAnimation w now object sel imm).
Proof.
  intros Hinv. unfold stopAnimation. destruct object as [o|]; [|done].
  destruct (objectAnimations w !! o) as [[|a l]|] eqn:Hl; [done| |done].
  pose proof (stop_anims_fades (animationTypes w) o sel imm now (a :: l)
                (heap w o)) as Hf.
  destruct (stop_anims _ _ _ _ _ _ _) as [[obj' l'] ev]. by eapply store_inv.
Qed.

Lemma registerAnimation_inv (w w' : world astate) name config :
  inv w → registerAnimation w name config = Returned w' → inv w'.
Proof.
  intros (Hnd & Hempty & Hall). unfold registerAnimation.
  destruct (String.eqb_spec name EmptyString) as [->|Hne]; [done|].
  destruct (cfg_update config); [|done]. intros [= <-].
  split_and!; [done| |done]. simpl. by rewrite lookup_insert_ne.
Qed.

Lemma unregisterAnimation_inv (w : world astate) name :
  inv w → inv (unregisterAnimation w name).1.
Proof.
  intros (Hnd & Hempty & Hall). split_and!; [done| |done]. simpl.
  destruct (decide (name = EmptyString)) as [->|Hne].
  - by rewrite lookup_delete_eq.
  - by rewrite lookup_delete_ne.
Qed.

Lemma inv_empty (h : objref → Object3D) :
  inv (mkWorld (astate := astate) ∅ [] ∅ 0 h []).
Proof.
  split_and!; [constructor|done|]. intros o l Hl. simpl in Hl.
  by rewrite lookup_empty in Hl.
Qed.

Lemma update_first_ids (p : anim → bool) opts (l : list anim) :
  ids (update_first p (λ a, set_options a opts) l) = ids l ∧
  running_names (update_first p (λ a, set_options a opts) l)
  = running_names l.
Proof.
  induction l as [|a l [IH1 IH2]]; simpl; [done|].
  destruct (p a); simpl.
  - by rewrite !running_names_cons.
  - by rewrite IH1, !running_names_cons, IH2.
Qed.

Lemma update_first_Forall (P : Z → string → Prop) (p : anim → bool) opts
    (l : list anim) :
  Forall (λ a, P (inst_id a) (inst_name a)) l →
  Forall (λ a, P (inst_id a) (inst_name a))
    (update_first p (λ a, set_options a opts) l).
Proof.
  induction 1 as [|a l Ha Hl IH]; simpl; [done|].
  destruct (p a); by constructor.
Qed.

Lemma inv_list (w : world astate) o :
  inv w →
  let l := default [] (objectAnimations w !! o) in
  NoDup (ids l) ∧
  Forall (λ a, (inst_id a <= animationIdCounter w)%Z ∧
               inst_name a ≠ EmptyString) l ∧
  (running_names l ≠ [] → o ∈ animatedObjects w) ∧
  NoDup (running_names l).
Proof.
  intros (_ & _ & Hall). simpl.
  destruct (objectAnimations w !! o) as [l|] eqn:Hl; simpl.
  - by apply Hall.
  - split_and!; try done; constructor.
Qed.

Lemma elem_of_set_add (o x : objref) s : x ∈ s ∨ x = o → x ∈ set_add o s.
Proof.
  unfold set_add. case_decide as Ho.
  - intros [?| ->]; done.
  - intros [?| ->]; apply elem_of_app; [by left|right; by left].
Qed.

Lemma NoDup_set_add (o : objref) s : NoDup s → NoDup (set_add o s).
Proof.
  intros Hs. unfold set_add. case_decide as Ho; [done|].
  apply NoDup_app. split_and!; [done| |apply NoDup_singleton].
  intros x Hx ->%list_elem_of_singleton. done.
Qed.

Lemma find_none_running (T : string) (l : list anim) :
  List.find (is_running T) l = None → T ∉ running_names l.
Proof.
  intros Hfind Hin. unfold running_names in Hin.
  apply list_elem_of_fmap in Hin as (b & -> & [Hs Hb]%list_elem_of_filter).
  apply list_elem_of_In in Hb.
  pose proof (find_none _ _ Hfind b Hb) as Hr. unfold is_running in Hr.
  rewrite Hs, String.eqb_refl in Hr. done.
Qed.

Lemma startAnimation_inv (e : astate) (w : world astate) now object name opts :
  inv w → inv (startAnimation e w now object name opts).1.
Proof.
  intros Hinv. pose proof Hinv as (Hnd & Hempty & Hall).
  unfold startAnimation. destruct object as [o|]; [|done].
  destruct (animationTypes w !! name) as [ty|] eqn:Hty; [|done].
  destruct (inv_list w o Hinv) as (Hids & Hbound & Htracked & Hrun).
  set (l := default [] (objectAnimations w !! o)) in *.
  destruct (List.find (is_running name) l) as [existing|] eqn:Hfind.
  - simpl. split_and!; [done|done|]. intros o' k Hk. simpl in Hk.
    destruct (decide (o' = o)) as [->|Hne].
    + rewrite lookup_insert_eq in Hk. injection Hk as <-.
      destruct (update_first_ids (is_running name)
                  (spread (defaultOptions ty) opts) l) as [-> ->].
      split_and!; try done.
      by apply (update_first_Forall
                  (λ i n, (i <= animationIdCounter w)%Z ∧ n ≠ EmptyString)).
    + rewrite lookup_insert_ne in Hk by done. by apply Hall.
  - assert (name ≠ EmptyString) as Hname by (intros ->; congruence).
    destruct (match init ty with
              | Some f => _
              | None => _
              end) as [[obj1 [s|]] ev]; simpl.
    + split_and!; [by apply NoDup_set_add|done|].
      intros o' k Hk. simpl in Hk.
      destruct (decide (o' = o)) as [->|Hne].
      * rewrite lookup_insert_eq in Hk. injection Hk as <-.
        rewrite ids_app, running_names_app. simpl.
        split_and!.
        -- apply NoDup_app. split_and!; [done| |apply NoDup_singleton].
           intros i Hi ->%list_elem_of_singleton.
           apply list_elem_of_fmap in Hi as (b & Hb & Hin).
           rewrite Forall_forall in Hbound.
           destruct (Hbound b Hin) as [Hle _]. lia.
        -- apply Forall_app. split.
           ++ eapply Forall_impl; [exact Hbound|]. simpl.
              intros b [Hle ?]. split; [lia|done].
           ++ constructor; [|constructor]. simpl. split; [lia|done].
        -- intros _. apply elem_of_set_add. by right.
        -- apply NoDup_app. split_and!; [done| |apply NoDup_singleton].
           intros T HT ->%list_elem_of_singleton.
           by apply (find_none_running name l).
      * rewrite lookup_insert_ne in Hk by done.
        destruct (Hall o' k Hk) as (H1 & H2 & H3 & H4).
        split_and!; try done.
        -- eapply Forall_impl; [exact H2|]. simpl.
           intros b [Hle ?]. split; [lia|done].
        -- intros Hr. apply elem_of_set_add. left. by apply H3.
    + split_and!; [done|done|]. intros o' k Hk. simpl in Hk.
      destruct (decide (o' = o)) as [->|Hne].
      * rewrite lookup_insert_eq in Hk. injection Hk as <-. by split_and!.
      * rewrite lookup_insert_ne in Hk by done. by apply Hall.
Qed.

(** The invariant holds in every state of a manager. *)
Lemma reachable_inv (e : astate) (w : world astate) : reachable e w → inv w.
Proof.
  induction 1 as [h|w h _ IH|w w' name config _ IH Hreg|w name _ IH|
                  w now object name options _ IH|w now object sel imm _ IH|
                  w now dt _ IH].
  - apply inv_empty.
  - exact IH.
  - by eapply registerAnimation_inv.
  - by apply unregisterAnimation_inv.
  - by apply startAnimation_inv.
  - by apply stopAnimation_inv.
  - by apply tick_inv.
Qed.

(** What the invariant gives for the instances of an object. *)
Lemma inv_tracked (w : world astate) o (l : list anim) a :
  inv w → objectAnimations w !! o = Some l → a ∈ l → stopping a = false →
  o ∈ animatedObjects w.
Proof.
  intros (_ & _ & Hall) Hl Ha Hs.
  destruct (Hall o l Hl) as (_ & _ & Htracked & _). apply Htracked.
  intros Hnil.
  assert (inst_name a ∈ running_names l) as Hin.
  { apply (running_names_elem _ a); [done|].
    unfold is_running. by rewrite Hs, String.eqb_refl. }
  rewrite Hnil in Hin. by apply elem_of_nil in Hin.
Qed.

Lemma inv_others (w : world astate) o (l1 l2 : list anim) a :
  inv w → objectAnimations w !! o = Some (l1 ++ a :: l2) →
  stopping a = false →
  inst_name a ≠ EmptyString ∧
  Forall (λ b, is_running (inst_name a) b = false) (l1 ++ l2).
Proof.
  intros (_ & _ & Hall) Hl Hs.
  destruct (Hall o _ Hl) as (_ & Hbound & _ & Hrun).
  split.
  { rewrite Forall_forall in Hbound. apply (Hbound a).
    apply elem_of_app. right. by left. }
  rewrite running_names_app, running_names_cons, Hs in Hrun.
  apply NoDup_app in Hrun as (_ & Hdisj & [Hn2 _]%NoDup_cons).
  apply Forall_forall. intros b Hb.
  destruct (is_running (inst_name a) b) eqn:Hr; [|done]. exfalso.
  apply elem_of_app in Hb as [Hb|Hb].
  - apply (Hdisj (inst_name a)).
    + by apply (running_names_elem _ b).
    + by left.
  - apply Hn2. by apply (running_names_elem _ b).
Qed.

(** *** Transition progress after N ticks *)





(** *** An update function that throws *)

Lemma update_throws_step types now dt o (a : anim) obj obj' :
  update_throws types now dt a obj obj' →
  ∃ tp, tick_anim types now dt o a obj
        = (obj', None, [EvUpdate o (inst_id a) tp; EvError (inst_name a)]).
Proof.
  intros (ty & a2 & Hty & Hout & Hup). unfold tick_anim.
  rewrite Hty, Hout, Hup.
  destruct (check_duration_fields now a2) as (-> & -> & _).
  destruct (transition_out_fields _ _ _ Hout) as (-> & -> & _).
  destruct (transition_in_fields dt a) as (-> & -> & _).
  by eexists.
Qed.

(** C4.  [tick] has no exceptional result.  When the update function of
    an instance [a] of object [o] throws, [a] is dropped from the list
    of [o]; neither its cleanup function is called nor its initial
    values restored; the instances after [a] in the list have had, and
    the instances before [a] then get, their ordinary step (these from
    the object as the failed update left it), and the pass over every
    other tracked object is the ordinary one: in this tick the update
    function is called for every instance of every tracked object whose
    type is registered and whose stop transition is not over. *)
Theorem update_throws_isolated (w : world astate) (now : Q) (dt : jsnum)
    (o : objref) (l1 l2 : list anim) (a : anim) (obj' : Object3D) :
  inv w → o ∈ animatedObjects w →
  objectAnimations w !! o = Some (l1 ++ a :: l2) →
  let r2 := tick_anims (animationTypes w) now dt o l2 (heap w o) in
  update_throws (animationTypes w) now dt a r2.1.1 obj' →
  let r1 := tick_anims (animationTypes w) now dt o l1 obj' in
  let w' := tick w now dt in
  objectAnimations w' !! o = stored (r1.1.2 ++ r2.1.2) ∧
  heap w' o = r1.1.1 ∧
  lookup_instance w' o (inst_id a) = None ∧
  (∃ evs, trace w' = trace w ++ evs ∧
          Forall (λ e, is_cleanup_of o (inst_id a) e = false) evs ∧
          ∀ o' l' b, o' ∈ animatedObjects w →
            objectAnimations w !! o' = Some l' → b ∈ l' →
            reaches_update (animationTypes w) now dt b = true →
            ∃ e, e ∈ evs ∧ is_update_of o' (inst_id b) e = true) ∧
  (∀ o', o' ∈ animatedObjects w → o' ≠ o →
     objectAnimations w' !! o' = (self_result w now dt o').1 ∧
     heap w' o' = (self_result w now dt o').2).
Proof.
  intros Hwf%inv_wf Ho Hl r2 Hthrow r1 w'.
  destruct (update_throws_step _ _ _ o _ _ _ Hthrow) as [tp Hstep].
  destruct (tick_removed w now dt o l1 l2 a obj' _ Hwf Ho Hl Hstep)
    as (H1 & H2 & H3 & evs & Htr & Hno).
  { by repeat constructor. }
  destruct Hwf as [Hnd _].
  destruct (tick_spec w now dt Hnd) as (_ & Htr' & _ & Hin & _).
  split_and!; try done.
  - exists evs. split_and!; [done|done|].
    intros o' l' b Ho' Hl' Hb Hr.
    assert (evs = flat_map (obj_events w now dt) (animatedObjects w)) as ->.
    { unfold w' in Htr. rewrite Htr' in Htr. by apply app_inv_head in Htr. }
    by eapply tick_calls_update.
  - intros o' Ho' _. by apply Hin.
Qed.

(** *** Instances of an unregistered type *)


(** *** Stopping an animation *)

(** C1, as the code has it.  When object [o] has a running instance [a]
    of type [T], [stopAnimation(o, T, true)] calls the cleanup function
    of the type (when it has one), restores the initial values of [a]
    and drops [a], so that [isAnimating(o, T)] is false at once.  After
    it the scale and the rotation of [o] are the captured ones; the
    position is the one the animation left (it is not restored); and if
    the object still has a material, its emissive intensity and opacity
    are the captured ones, and so are its emissive and base colours when
    the material still has them. *)
Theorem stop_immediate_restores (w : world astate) (now : Q) (o : objref)
    (T : string) (l1 l2 : list anim) (a : anim) :
  inv w →
  objectAnimations w !! o = Some (l1 ++ a :: l2) →
  inst_name a = T → stopping a = false →
  let w' := stopAnimation w now (Some o) (SelName T) true in
  let c := run_cleanup (animationTypes w) o a (heap w o) in
  trace w' = trace w ++ c.2 ++ [EvRestore o (inst_id a)] ∧
  (∀ ty f, animationTypes w !! T = Some ty → cleanup ty = Some f →
           EvCleanup o (inst_id a) ∈ c.2) ∧
  objectAnimations w' !! o = stored (l1 ++ l2) ∧
  isAnimating w' (Some o) (Some T) = false ∧
  heap w' o = restore (initialValues a) c.1 ∧
  scale (heap w' o) = iv_scale (initialValues a) ∧
  rotation (heap w' o) = iv_rotation (initialValues a) ∧
  position (heap w' o) = position c.1 ∧
  (∀ im mat, iv_material (initialValues a) = Some im →
             material c.1 = Some mat →
     ∃ mat', material (heap w' o) = Some mat' ∧
       (∀ x, emissiveIntensity im = Some x → emissiveIntensity mat' = Some x) ∧
       (∀ x, opacity im = Some x → opacity mat' = Some x) ∧
       (∀ e, emissive im = Some e → is_Some (emissive mat) →
             emissive mat' = Some e) ∧
       (∀ e, color im = Some e → is_Some (color mat) → color mat' = Some e)).
Proof.
  intros Hinv Hl Hname Hsa w' c.
  destruct (inv_others w o l1 l2 a Hinv Hl Hsa) as [HT Hothers].
  rewrite Hname in HT, Hothers.
  assert (is_running T a = true) as Hrun.
  { unfold is_running. rewrite Hname, Hsa. by rewrite String.eqb_refl. }
  assert (w' = store_animations w o
                 (restore (initialValues a) c.1, l1 ++ l2,
                  c.2 ++ [EvRestore o (inst_id a)])) as Hw'.
  { unfold w'. rewrite (stopAnimation_some _ _ _ _ _ _ _ _ Hl).
    rewrite stop_anims_one by done. unfold cleanupAnimation. fold c.
    by destruct c as [obj1 ev1]. }
  destruct (store_animations_self w o
              (restore (initialValues a) c.1, l1 ++ l2,
               c.2 ++ [EvRestore o (inst_id a)])) as [Hl' Hh'].
  destruct (store_animations_rest w o
              (restore (initialValues a) c.1, l1 ++ l2,
               c.2 ++ [EvRestore o (inst_id a)])) as (_ & _ & Htr & _).
  rewrite <- Hw' in Hl', Hh', Htr. simpl in Hl', Hh', Htr.
  split_and!; try done.
  - intros ty f Hty Hf. unfold c, run_cleanup. rewrite Hname, Hty, Hf.
    destruct (f _ _ _) as [obj1 [[]|]]; by left.
  - rewrite (isAnimating_stored _ _ _ _ Hl').
    assert (negb (T =? EmptyString)%string = true) as ->.
    { apply negb_true_iff, String.eqb_neq, HT. }
    by apply existsb_false_Forall.
  - by rewrite Hh'.
  - by rewrite Hh'.
  - by rewrite Hh'.
  - intros im mat Him Hmat. rewrite Hh'.
    by apply restore_material_fields.
Qed.


End Facts.

(** ** The theorems at concrete runs *)

Import Examples.


Lemma update_throws_isolated_witness :
  let w := w_mixed in
  let l := instances w 7%nat in
  lookup_instance (tick w (1 # 10) (Fin (1 # 10))) 7%nat 2 = None ∧
  ids (instances (tick w (1 # 10) (Fin (1 # 10))) 7%nat) = [1; 3]%Z.
Proof.
  intros w l.
  destruct (update_throws_isolated w (1 # 10) (Fin (1 # 10)) 7%nat
              (take 1 l) (drop 2 l) (instance_of w 7%nat 2)
              (mkObject3D (vec 3 3 3) (vec 0 1 0) (vec 1 0 0) None))
    as (H1 & H2 & H3 & H4 & H5).
  - compute_done.
  - compute_done.
  - vm_compute. reflexivity.
  - exists broken. eexists. split_and!; vm_compute; reflexivity.
  - split; [exact H3|]. unfold instances. rewrite H1. vm_compute. reflexivity.
Defined.


(** *** A non-looping animation under a steady frame rate *)

Lemma frame_gap (n : nat) : frame (S n) - frame n < 2 # 10.
Proof. unfold frame, Qlt, Qminus, Qplus, Qopp. simpl. lia. Qed.

Lemma frame_late (n : nat) : 1 <= frame n - 0.
Proof. unfold frame, Qle, Qminus, Qplus, Qopp. simpl. lia. Qed.

Lemma frames_S (n : nat) : frames (S n) = frames n ++ [frame n].
Proof. unfold frames. by rewrite seq_S, map_app. Qed.

Lemma once_invariant (n : nat) :
  let w := ticks w_once (frames (S n)) (Fin (1 # 10)) in
  wf w ∧ 7%nat ∈ animatedObjects w ∧ animationTypes w = registry ∧
  ∃ b, objectAnimations w !! 7%nat = Some [b] ∧
       inst_id b = 1%Z ∧ inst_name b = "test"%string ∧
       inst_options b = once_options ∧ startTime b = 0 ∧
       stopping b = true ∧ stopStartTime b = frame n.
Proof.
  induction n as [|n IH].
  - split_and!; [compute_done|compute_done|vm_compute; reflexivity|].
    eexists. split; [vm_compute; reflexivity|]. by split_and!.
  - rewrite frames_S, ticks_app. cbn [ticks]. cbv zeta in IH |- *.
    set (w := ticks w_once (frames (S n)) (Fin (1 # 10))) in *.
    destruct IH as (Hwf & Ho & Hty & b & Hl & Hid & Hname & Hopts & Hst & Hs & Hss).
    destruct (tick_spec w (frame (S n)) (Fin (1 # 10)) (proj1 Hwf))
      as (Hty' & _ & _ & Hin & Hkeep).
    destruct (Hin _ Ho) as [Hl' _]. unfold self_result in Hl'.
    rewrite Hl in Hl'. simpl in Hl'.
    destruct (stop_start_reset (animationTypes w) (frame (S n)) (Fin (1 # 10))
                7%nat b (heap w 7%nat) testAnimation (2 # 10) 1
                (heap w 7%nat) (S (inst_state b)))
      as (b' & Hstep & Hs' & Hss').
    { by rewrite Hty, Hname. }
    { done. }
    { unfold transitionDuration. by rewrite Hopts. }
    { done. }
    { rewrite Hss. apply frame_gap. }
    { by rewrite Hopts. }
    { by rewrite Hopts. }
    { rewrite Hst. apply frame_late. }
    { done. }
    rewrite Hstep in Hl'. simpl in Hl'.
    destruct (tick_anim_kept _ _ _ _ _ _ _ _ _ Hstep) as (Hid' & Hname' & Hopts' & Hst' & _).
    split_and!.
    + by apply tick_wf.
    + apply Hkeep; [done|]. by rewrite Hl'.
    + by rewrite Hty'.
    + exists b'. split_and!; congruence.
Qed.

(** C5 at a steady frame rate.  A non-looping animation with duration 1
    and transition duration 0.2 is started at time 0 and ticked every
    0.1 s from time 1 on.  After any number of frames the instance is
    still in the list of its object, stopping, with the time of the last
    frame as its stop-start time: it is never removed. *)
Theorem nonlooping_stop_never_completes (n : nat) :
  ∃ b, lookup_instance (ticks w_once (frames (S n)) (Fin (1 # 10))) 7%nat 1
       = Some b ∧
       stopping b = true ∧ stopStartTime b = frame n.
Proof.
  destruct (once_invariant n) as (_ & _ & _ & b & Hl & Hid & _ & _ & _ & Hs & Hss).
  exists b. split; [|done]. unfold lookup_instance. rewrite Hl. simpl.
  by rewrite Hid.
Qed.

(** *** Starting "test" again while it runs *)

(** C2 at a concrete run.  "test" (default options
    [{testOption: 'default'}]) runs on object 7 with the options that
    [startAnimation] resolved.  A second [startAnimation(object, 'test',
    {})] returns the same id, adds no instance, calls no init and keeps
    the state, but leaves as options [{testOption: 'default'}] only:
    not the merge over the resolved options, of which
    [transitionDuration] is lost, so that the next [tick] makes the
    transition-progress NaN. *)
Theorem restart_replaces_options :
  let r := startAnimation 0%nat w_test (1 # 10) (Some 7%nat) "test" ∅ in
  let a := instance_of w_test 7%nat 1 in
  let a' := instance_of r.1 7%nat 1 in
  r.2 = Returned 1%Z ∧
  length (instances r.1 7%nat) = 1%nat ∧
  trace r.1 = trace w_test ∧
  inst_state a' = inst_state a ∧
  inst_options a' = {[ "testOption"%string := VStr "default" ]} ∧
  inst_options a' ≠ spread (inst_options a) ∅ ∧
  prop (inst_options a) "transitionDuration" = VNum (Fin (2 # 10)) ∧
  prop (inst_options a') "transitionDuration" = VUndef ∧
  transitionProgress (instance_of (tick r.1 (2 # 10) (Fin (1 # 10))) 7%nat 1)
  = NaN.
Proof.
  cbv zeta. split_and!; try (vm_compute; reflexivity).
  intros H.
  apply (f_equal (λ m : jsobj, m !! "transitionDuration"%string)) in H.
  vm_compute in H. discriminate H.
Qed.

(** *** What stopping at once does not restore *)

(** An animation has moved the object: the position stays.  An
    animation is stopping already: an immediate stop leaves it in the
    list, calls nothing and restores nothing.  An animation has given
    the object a material without colours: the emissive colour is not
    back. *)
Lemma stop_immediate_counterexample :
  (let a := instance_of w_drift 9%nat 1 in
   let w' := stopAnimation w_drift (2 # 10) (Some 9%nat) (SelName "drift") true in
   lookup_instance w_drift 9%nat 1 = Some a ∧
   isAnimating w_drift (Some 9%nat) (Some "drift"%string) = true ∧
   isAnimating w' (Some 9%nat) (Some "drift"%string) = false ∧
   iv_position (initialValues a) = vec 0 0 0 ∧
   position (heap w' 9%nat) ≠ iv_position (initialValues a)) ∧
  (let a := instance_of w_faded 9%nat 1 in
   let w' := stopAnimation w_faded (21 # 20) (Some 9%nat) (SelName "drift") true in
   lookup_instance w_faded 9%nat 1 = Some a ∧
   stopping a = true ∧
   lookup_instance w' 9%nat 1 = Some a ∧
   trace w' = trace w_faded ∧
   iv_scale (initialValues a) = vec 1 1 1 ∧
   scale (heap w' 9%nat) ≠ iv_scale (initialValues a)) ∧
  (let a := instance_of w_swap 9%nat 1 in
   let w' := stopAnimation w_swap (2 # 10) (Some 9%nat) (SelName "swap") true in
   lookup_instance w_swap 9%nat 1 = Some a ∧
   lookup_instance w' 9%nat 1 = None ∧
   (emissive <$> iv_material (initialValues a)) = Some (Some (vec 0 0 0)) ∧
   (emissive <$> material (heap w' 9%nat)) = Some None).
Proof.
  cbv zeta. split_and!; try (vm_compute; reflexivity).
  - intros H. vm_compute in H. discriminate H.
  - intros H. vm_compute in H. discriminate H.
Qed.

Lemma stop_immediate_restores_witness :
  let a := instance_of w_drift 9%nat 1 in
  let w' := stopAnimation w_drift (2 # 10) (Some 9%nat) (SelName "drift") true in
  scale (heap w_drift 9%nat) = vec 2 2 2 ∧
  scale (heap w' 9%nat) = vec 1 1 1 ∧
  rotation (heap w' 9%nat) = vec 0 0 0.
Proof.
  cbv zeta.
  destruct (stop_immediate_restores w_drift (2 # 10) 9%nat "drift" [] []
              (instance_of w_drift 9%nat 1))
    as (_ & _ & _ & _ & _ & Hs & Hr & _).
  - compute_done.
  - vm_compute. reflexivity.
  - reflexivity.
  - reflexivity.
  - split_and!; [|rewrite Hs|rewrite Hr]; vm_compute; reflexivity.
Defined.

(** *** A gradual stop *)



(** ** The registry, stopping twice, stopping everything, toggling *)

Section MoreFacts.
Context {astate : Type}.

Abbreviation anim := (AnimationInstance astate).
Abbreviation atype := (AnimationType astate).

(** [registerAnimation] throws exactly for the empty name and for a
    config without update function.  After a registration the name is
    registered; [unregisterAnimation] then returns [true] and the name is
    gone, a second [unregisterAnimation] returns [false]; the other
    names are as they were throughout. *)
Theorem registry_round_trip (w : world astate) (name : string)
    (config : AnimationConfig astate) :
  (registerAnimation w name config = Thrown ↔
   name = EmptyString ∨ cfg_update config = None) ∧
  ∀ w1, registerAnimation w name config = Returned w1 →
    let w2 := (unregisterAnimation w1 name).1 in
    hasAnimation w1 name = true ∧
    (unregisterAnimation w1 name).2 = true ∧
    hasAnimation w2 name = false ∧
    (unregisterAnimation w2 name).2 = false ∧
    ∀ n, n ≠ name →
      hasAnimation w1 n = hasAnimation w n ∧
      hasAnimation w2 n = hasAnimation w n.
Proof.
  unfold registerAnimation, hasAnimation. split.
  - destruct (String.eqb_spec name EmptyString) as [->|Hne].
    + split; [by left | done].
    + destruct (cfg_update config) as [u|].
      * split; [done | by intros [? | ?]].
      * split; [by right | done].
  - intros w1 Hreg.
    destruct (String.eqb name EmptyString); [done|].
    destruct (cfg_update config) as [u|]; [|done].
    injection Hreg as <-. simpl.
    rewrite !lookup_insert_eq, !lookup_delete_eq.
    split_and!; try done.
    intros n Hn. by rewrite lookup_delete_ne, lookup_insert_ne by done.
Qed.

Lemma stopAnimation_list (w : world astate) now o sel imm (l : list anim) :
  objectAnimations w !! o = Some l → l ≠ [] →
  stopAnimation w now (Some o) sel imm =
  store_animations w o
    (stop_anims (animationTypes w) o sel imm now l (heap w o)).
Proof. intros Hl Hne. unfold stopAnimation. rewrite Hl. by destruct l. Qed.

Lemma stop_anims_gradual types o sel now (l : list anim) obj :
  stop_anims types o sel false now l obj =
  (obj,
   map (λ a, if shouldStop sel a && negb (stopping a)
             then mark_stopping a now else a) l,
   []).
Proof.
  induction l as [|a l IH]; [done|]. simpl. rewrite IH.
  by destruct (shouldStop sel a && negb (stopping a)).
Qed.

Lemma shouldStop_mark sel (a : anim) now :
  shouldStop sel (mark_stopping a now) = shouldStop sel a.
Proof. by destruct sel. Qed.

Lemma stop_anims_gradual_done sel now (l : list anim) :
  Forall (λ b, shouldStop sel b && negb (stopping b) = false)
    (map (λ a, if shouldStop sel a && negb (stopping a)
               then mark_stopping a now else a) l).
Proof.
  apply Forall_map, Forall_forall. intros a _.
  destruct (shouldStop sel a && negb (stopping a)) eqn:E; [|done].
  rewrite shouldStop_mark. simpl. apply andb_false_r.
Qed.

(** Once [stopAnimation(object, sel)] has begun the stop transition of
    the instances it selects, a second [stopAnimation] with the same
    selector, immediate or not, changes nothing: it neither restarts the
    transition nor cuts it short. *)
Theorem stop_again_changes_nothing (w : world astate) (t1 t2 : Q)
    (object : option objref) (sel : selector) (immediate : bool) :
  let w1 := stopAnimation w t1 object sel false in
  let w2 := stopAnimation w1 t2 object sel immediate in
  animationTypes w2 = animationTypes w1 ∧
  animatedObjects w2 = animatedObjects w1 ∧
  objectAnimations w2 = objectAnimations w1 ∧
  animationIdCounter w2 = animationIdCounter w1 ∧
  (∀ x, heap w2 x = heap w1 x) ∧
  trace w2 = trace w1.
Proof.
  intros w1 w2.
  destruct object as [o|]; [|done].
  destruct (objectAnimations w !! o) as [l|] eqn:Hl.
  2: { unfold w2, w1, stopAnimation. by rewrite Hl, Hl. }
  destruct l as [|a l].
  { unfold w2, w1, stopAnimation. by rewrite Hl, Hl. }
  set (l1 := map (λ a, if shouldStop sel a && negb (stopping a)
                       then mark_stopping a t1 else a) (a :: l)).
  assert (w1 = store_animations w o (heap w o, l1, [])) as Hw1.
  { unfold w1. rewrite (stopAnimation_list _ _ _ _ _ _ Hl) by done.
    by rewrite stop_anims_gradual. }
  assert (l1 ≠ []) as Hne by done.
  assert (objectAnimations w1 !! o = Some l1) as Hl1.
  { rewrite Hw1. destruct (store_animations_self w o (heap w o, l1, []))
      as [-> _]. simpl. by destruct l1. }
  assert (w2 = store_animations w1 o (heap w1 o, l1, [])) as Hw2.
  { unfold w2. rewrite (stopAnimation_list _ _ _ _ _ _ Hl1) by done.
    by rewrite stop_anims_skip by apply stop_anims_gradual_done. }
  rewrite Hw2. destruct l1 as [|b l1]; [done|]. simpl.
  split_and!; try done.
  - by apply insert_id.
  - intros x. destruct (decide (x = o)) as [->|Hx].
    + by rewrite fn_lookup_insert.
    + by rewrite fn_lookup_insert_ne.
  - by rewrite app_nil_r.
Qed.



Lemma stop_anims_none_running types o T imm now (l : list anim) obj :
  Forall (λ b, is_running T b = false)
    (stop_anims types o (SelName T) imm now l obj).1.2.
Proof.
  induction l as [|a l IH]; [by constructor|]. cbn [stop_anims].
  destruct (stop_anims types o (SelName T) imm now l obj) as [[obj1 r1] e1].
  cbn [fst snd] in *. rewrite is_running_shouldStop.
  destruct (is_running T a) eqn:Hr.
  - destruct imm.
    + by destruct (cleanupAnimation types o a obj1).
    + simpl. constructor; [|done]. unfold is_running. simpl.
      apply andb_false_r.
  - simpl. by constructor.
Qed.

Lemma existsb_false_find {A} (p : A → bool) (l : list A) :
  existsb p l = false → List.find p l = None.
Proof.
  induction l as [|a l IH]; [done|]. simpl.
  destruct (p a); [done|]. apply IH.
Qed.

(** With a name that is not empty, [toggleAnimation] returns whether
    the animation was not running, whether or not the name is registered;
    after it the animation is running exactly when it returned [true] for
    a registered name. *)
Theorem toggle_flips (e : astate) (w w' : world astate) (now : Q)
    (o : objref) (name : string) (options : jsobj) (immediate b : bool) :
  name ≠ EmptyString →
  toggleAnimation e w now (Some o) name options immediate = (w', Returned b) →
  b = negb (isAnimating w (Some o) (Some name)) ∧
  isAnimating w' (Some o) (Some name) = b && hasAnimation w name.
Proof.
  intros Hname Htog. unfold toggleAnimation in Htog.
  assert (negb (name =? EmptyString)%string = true) as Hn.
  { by apply negb_true_iff, String.eqb_neq. }
  destruct (isAnimating w (Some o) (Some name)) eqn:Hrun.
  - unfold isAnimating in Hrun.
    destruct (objectAnimations w !! o) as [[|a l]|] eqn:Hl; try done.
    rewrite (stopAnimation_list _ _ _ _ _ _ Hl) in Htog by done.
    set (res := stop_anims _ _ _ _ _ _ _) in Htog.
    injection Htog as <- <-. split; [done|]. rewrite andb_false_l.
    destruct (store_animations_self w o res) as [Hself _].
    rewrite (isAnimating_stored _ _ _ _ Hself), Hn.
    apply existsb_false_Forall, stop_anims_none_running.
  - destruct (startAnimation e w now (Some o) name options) as [w1 [i|]] eqn:Hst;
      [|done].
    injection Htog as <- <-. split; [done|]. rewrite andb_true_l.
    unfold hasAnimation.
    destruct (animationTypes w !! name) as [ty|] eqn:Hty.
    + rewrite bool_decide_eq_true_2 by by eexists.
      assert (List.find (is_running name) (default [] (objectAnimations w !! o))
              = None) as Hfind.
      { apply existsb_false_find. unfold isAnimating in Hrun.
        destruct (objectAnimations w !! o) as [[|a l]|]; try done.
        by rewrite Hn in Hrun. }
      destruct (startAnimation_captures e w now o name options ty i Hty Hfind)
        as (a & Hl' & _ & Ha & Hs & _).
      { by rewrite Hst. }
      rewrite Hst in Hl'. simpl in Hl'.
      assert (Some (default [] (objectAnimations w !! o) ++ [a])
              = stored (default [] (objectAnimations w !! o) ++ [a])) as Hsd.
      { by destruct (default [] _). }
      rewrite Hsd in Hl'. rewrite (isAnimating_stored _ _ _ _ Hl'), Hn.
      rewrite existsb_app. simpl. unfold is_running at 2.
      rewrite Ha, Hs, String.eqb_refl. simpl. apply orb_true_r.
    + rewrite bool_decide_eq_false_2 by by intros [? ?].
      unfold startAnimation in Hst. rewrite Hty in Hst.
      injection Hst as <- _. exact Hrun.
Qed.

(** ** The ids that [startAnimation] returns *)

Lemma store_ids_from_one (w : world astate) o (l l' : list anim) obj' ev :
  ids_from_one w → objectAnimations w !! o = Some l → fades l l' →
  ids_from_one (store_animations w o (obj', l', ev)).
Proof.
  intros [Hc Hall] Hl Hf.
  assert (Forall (λ a : anim, (1 <= inst_id a)%Z) l') as Hl'.
  { by apply (fades_Forall (λ i _, (1 <= i)%Z) l), (Hall o). }
  destruct l' as [|b l']; simpl; (split; [done|]); simpl.
  - by apply map_Forall_delete.
  - by apply map_Forall_insert_2.
Qed.

Lemma tick_ids_from_one (w : world astate) now dt :
  ids_from_one w → ids_from_one (tick w now dt).
Proof.
  unfold tick. generalize (animatedObjects w) as os. intros os. revert w.
  induction os as [|o os IH]; intros w Hw; simpl; [done|].
  apply IH. unfold tick_object.
  destruct (objectAnimations w !! o) as [l|] eqn:Hl; [|done].
  pose proof (tick_anims_fades (animationTypes w) now dt o l (heap w o)) as Hf.
  destruct (tick_anims _ _ _ _ _ _) as [[obj' l'] ev].
  by eapply store_ids_from_one.
Qed.

Lemma stopAnimation_ids_from_one (w : world astate) now object sel imm :
  ids_from_one w → ids_from_one (stopAnimation w now object sel imm).
Proof.
  intros Hw. unfold stopAnimation. destruct object as [o|]; [|done].
  destruct (objectAnimations w !! o) as [[|a l]|] eqn:Hl; [done| |done].
  pose proof (stop_anims_fades (animationTypes w) o sel imm now (a :: l)
                (heap w o)) as Hf.
  destruct (stop_anims _ _ _ _ _ _ _) as [[obj' l'] ev].
  by eapply store_ids_from_one.
Qed.

Lemma startAnimation_ids_from_one (e : astate) (w : world astate) now object
    name opts :
  ids_from_one w → ids_from_one (startAnimation e w now object name opts).1.
Proof.
  intros [Hc Hall]. unfold startAnimation. destruct object as [o|]; [|done].
  destruct (animationTypes w !! name) as [ty|]; [|done].
  assert (Forall (λ a : anim, (1 <= inst_id a)%Z)
            (default [] (objectAnimations w !! o))) as Hl.
  { destruct (objectAnimations w !! o) as [l|] eqn:Hl; [by apply (Hall o)|].
    by constructor. }
  destruct (List.find (is_running name) _) as [existing|].
  - split; [done|]. simpl. apply map_Forall_insert_2; [|done].
    by apply (update_first_Forall (λ i _, (1 <= i)%Z)).
  - destruct (match init ty with
              | Some f => _
              | None => _
              end) as [[obj1 [s|]] ev]; simpl.
    + split; simpl; [lia|]. apply map_Forall_insert_2; [|done].
      apply Forall_app. split; [done|]. constructor; [simpl; lia|constructor].
    + split; [done|]. simpl. by apply map_Forall_insert_2.
Qed.

(** The ids are positive in every state of a manager. *)
Lemma reachable_ids_from_one (e : astate) (w : world astate) :
  reachable e w → ids_from_one w.
Proof.
  induction 1 as [h|w h _ IH|w w' name config _ IH Hreg|w name _ IH|
                  w now object name options _ IH|w now object sel imm _ IH|
                  w now dt _ IH].
  - split; [done|]. apply map_Forall_empty.
  - exact IH.
  - unfold registerAnimation in Hreg.
    destruct (String.eqb name EmptyString); [done|].
    destruct (cfg_update config); [|done]. by injection Hreg as <-.
  - exact IH.
  - by apply startAnimation_ids_from_one.
  - by apply stopAnimation_ids_from_one.
  - by apply tick_ids_from_one.
Qed.

Lemma find_id_app (l1 l2 : list anim) a :
  inst_id a ∉ ids l1 →
  List.find (λ b, Z.eqb (inst_id b) (inst_id a)) (l1 ++ a :: l2) = Some a.
Proof.
  intros Hni. induction l1 as [|b l1 IH]; simpl.
  - by rewrite Z.eqb_refl.
  - simpl in Hni. apply not_elem_of_cons in Hni as [Hne Hni].
    destruct (Z.eqb_spec (inst_id b) (inst_id a)); [congruence|]. by apply IH.
Qed.

Lemma lookup_instance_split (w : world astate) o i (a : anim) :
  lookup_instance w o i = Some a →
  inst_id a = i ∧
  ∃ l1 l2, objectAnimations w !! o = Some (l1 ++ a :: l2).
Proof.
  unfold lookup_instance.
  destruct (objectAnimations w !! o) as [l|]; [|done]. simpl.
  intros [Hin Hid]%find_some. split; [by apply Z.eqb_eq|].
  apply list_elem_of_In, list_elem_of_split in Hin as (l1 & l2 & ->).
  by exists l1, l2.
Qed.

Lemma lookup_instance_middle (w : world astate) o (l1 l2 : list anim) a :
  NoDup (ids (l1 ++ a :: l2)) →
  objectAnimations w !! o = Some (l1 ++ a :: l2) →
  lookup_instance w o (inst_id a) = Some a.
Proof.
  intros Hnd Hl. unfold lookup_instance. rewrite Hl. simpl.
  apply find_id_app. by apply NoDup_ids_middle in Hnd as (? & _).
Qed.

Lemma update_first_find (p : anim → bool) f (l : list anim) existing :
  List.find p l = Some existing → f existing ∈ update_first p f l.
Proof.
  induction l as [|b l IH]; [done|]. simpl. destruct (p b).
  - intros [= ->]. by left.
  - intros H. right. by apply IH.
Qed.

(** For a manager with positive ids, [startAnimation] returns [-1]
    exactly when the object is null or the name is not registered, and
    then it only warns.  Otherwise, unless the init function throws, it
    returns the positive id of an instance of that name on the object
    that is not stopping: the object is tracked and [isAnimating] is
    true for it. *)
Theorem start_result (e : astate) (w w' : world astate) (now : Q)
    (object : option objref) (name : string) (options : jsobj) (i : Z) :
  inv w → ids_from_one w →
  startAnimation e w now object name options = (w', Returned i) →
  (i = (-1)%Z ↔ object = None ∨ hasAnimation w name = false) ∧
  (i = (-1)%Z → w' = log w [EvWarn]) ∧
  (i ≠ (-1)%Z →
   ∃ o a, object = Some o ∧ (1 <= i)%Z ∧
     lookup_instance w' o i = Some a ∧
     inst_name a = name ∧ stopping a = false ∧
     o ∈ animatedObjects w' ∧
     isAnimating w' (Some o) (Some name) = true ∧
     isAnimating w' (Some o) None = true).
Proof.
  intros Hinv [Hc Hpos] Hst.
  pose proof (startAnimation_inv e w now object name options Hinv) as Hinv'.
  rewrite Hst in Hinv'. simpl in Hinv'.
  unfold hasAnimation.
  destruct object as [o|].
  2: { injection Hst as <- <-. split_and!; [|done|done].
       split; [by left|done]. }
  destruct (animationTypes w !! name) as [ty|] eqn:Hty.
  2: { unfold startAnimation in Hst. rewrite Hty in Hst.
       injection Hst as <- <-. split_and!; [|done|done].
       split; [by right|done]. }
  assert (name ≠ EmptyString) as Hname.
  { destruct Hinv as (_ & He & _). intros ->. congruence. }
  assert (negb (name =? EmptyString)%string = true) as Hn.
  { by apply negb_true_iff, String.eqb_neq. }
  assert (∃ l a, objectAnimations w' !! o = Some l ∧ a ∈ l ∧
                 inst_id a = i ∧ (1 <= i)%Z ∧
                 inst_name a = name ∧ stopping a = false) as
    (l & a & Hl & Hin & Hid & Hi & Ha & Hs).
  { destruct (List.find (is_running name) (default [] (objectAnimations w !! o)))
      as [existing|] eqn:Hfind.
    - destruct (objectAnimations w !! o) as [l|] eqn:Hl; [|done].
      simpl in Hfind.
      rewrite (startAnimation_existing e w now o name options ty l existing)
        in Hst by done.
      injection Hst as <- <-. simpl. rewrite lookup_insert_eq.
      eexists _, (set_options existing (spread (defaultOptions ty) options)).
      split; [done|].
      split.
      { exact (update_first_find (is_running name)
                 (λ a, set_options a (spread (defaultOptions ty) options))
                 l existing Hfind). }
      apply find_some in Hfind as [Hin Hrun].
      apply list_elem_of_In in Hin.
      apply andb_true_iff in Hrun as [Hnm%String.eqb_eq Hrs%negb_true_iff].
      assert (Forall (λ a : anim, (1 <= inst_id a)%Z) l) as Hl1
        by by apply (Hpos o).
      rewrite Forall_forall in Hl1. simpl.
      split_and!; try done. by apply Hl1.
    - destruct (startAnimation_captures e w now o name options ty i Hty Hfind)
        as (a & Hl' & Hid & Ha & Hs & _); [by rewrite Hst|].
      rewrite Hst in Hl'. simpl in Hl'.
      exists (default [] (objectAnimations w !! o) ++ [a]), a.
      split_and!; try done.
      + apply elem_of_app. right. by left.
      + unfold startAnimation in Hst. rewrite Hty, Hfind in Hst.
        destruct (match init ty with
                  | Some f => _
                  | None => _
                  end) as [[obj1 [s|]] ev]; [|done].
        injection Hst as _ <-. lia. }
  assert (i ≠ (-1)%Z) as Hne by lia.
  split_and!; [|done|].
  { split; [done|]. by intros [? | ?]. }
  intros _. exists o, a.
  assert (o ∈ animatedObjects w') as Ho by by eapply inv_tracked.
  assert (Some l = stored l) as Hsd.
  { destruct l; [by apply elem_of_nil in Hin|done]. }
  rewrite Hsd in Hl.
  split_and!; try done.
  - apply list_elem_of_split in Hin as (l1 & l2 & ->).
    rewrite <- Hsd in Hl. rewrite <- Hid.
    apply (lookup_instance_middle _ _ l1 l2); [|done].
    destruct Hinv' as (_ & _ & Hall). by destruct (Hall o _ Hl).
  - rewrite (isAnimating_stored _ _ _ _ Hl), Hn.
    apply existsb_exists. exists a. split; [by apply list_elem_of_In|].
    unfold is_running. by rewrite Ha, Hs, String.eqb_refl.
  - rewrite (isAnimating_stored _ _ _ _ Hl).
    apply existsb_exists. exists a. split; [by apply list_elem_of_In|].
    by rewrite Hs.
Qed.

(** ** clear *)

Lemma stopAnimation_other (w : world astate) now o sel imm o' :
  o' ≠ o →
  objectAnimations (stopAnimation w now (Some o) sel imm) !! o'
  = objectAnimations w !! o' ∧
  heap (stopAnimation w now (Some o) sel imm) o' = heap w o'.
Proof.
  intros Hne. unfold stopAnimation.
  destruct (objectAnimations w !! o) as [[|a l]|]; [done| |done].
  by apply store_animations_other.
Qed.

Lemma stopAnimation_rest (w : world astate) now object sel imm :
  animationTypes (stopAnimation w now object sel imm) = animationTypes w ∧
  animationIdCounter (stopAnimation w now object sel imm)
  = animationIdCounter w.
Proof.
  unfold stopAnimation. destruct object as [o|]; [|done].
  destruct (objectAnimations w !! o) as [[|a l]|]; [done| |done].
  by destruct (store_animations_rest w o
       (stop_anims (animationTypes w) o sel imm now (a :: l) (heap w o)))
    as (? & ? & _).
Qed.

Lemma stop_anims_all_stopping types o imm now (l : list anim) obj :
  Forall (λ b, stopping b = true)
    (stop_anims types o SelAll imm now l obj).1.2.
Proof.
  induction l as [|a l IH]; [by constructor|]. cbn [stop_anims].
  destruct (stop_anims types o SelAll imm now l obj) as [[obj1 r1] e1].
  cbn [fst snd shouldStop andb] in *.
  destruct (stopping a) eqn:Hs; cbn [negb].
  - by constructor.
  - destruct imm.
    + by destruct (cleanupAnimation types o a obj1).
    + by constructor.
Qed.

Lemma stopAll_self_stopping (w : world astate) now o imm (l' : list anim) :
  objectAnimations (stopAllAnimations w now (Some o) imm) !! o = Some l' →
  Forall (λ b, stopping b = true) l'.
Proof.
  unfold stopAllAnimations, stopAnimation.
  destruct (objectAnimations w !! o) as [[|a l]|] eqn:Hl.
  - rewrite Hl. by intros [= <-].
  - destruct (store_animations_self w o
      (stop_anims (animationTypes w) o SelAll imm now (a :: l) (heap w o)))
      as [-> _].
    intros ->%stored_Some. apply stop_anims_all_stopping.
  - by rewrite Hl.
Qed.

Lemma clear_loop (now : objref → Q) imm os :
  NoDup os → ∀ w : world astate,
  let w' := foldl (λ w1 o, stopAllAnimations w1 (now o) (Some o) imm) w os in
  animationTypes w' = animationTypes w ∧
  (inv w → inv w') ∧
  (∀ o, o ∉ os → objectAnimations w' !! o = objectAnimations w !! o) ∧
  (∀ o l', o ∈ os → objectAnimations w' !! o = Some l' →
           Forall (λ b, stopping b = true) l').
Proof.
  induction os as [|o os IH]; intros Hnd w; cbn [foldl].
  - split_and!; try done. by intros o l' Ho%elem_of_nil.
  - apply NoDup_cons in Hnd as [Hni Hnd].
    set (w1 := stopAllAnimations w (now o) (Some o) imm).
    cbv zeta.
    destruct (IH Hnd w1) as (Hty & Hinv & Hout & Hin).
    split_and!.
    + rewrite Hty. by destruct (stopAnimation_rest w (now o) (Some o) SelAll imm).
    + intros Hw. by apply Hinv, stopAnimation_inv.
    + intros o' [Hne Ho']%not_elem_of_cons. rewrite Hout by done.
      by apply stopAnimation_other.
    + intros o' l' [-> | Ho']%elem_of_cons Hl'.
      * rewrite Hout in Hl' by done. by eapply stopAll_self_stopping.
      * by eapply Hin.
Qed.

Lemma running_names_nil (l : list anim) :
  running_names l = [] → Forall (λ b, stopping b = true) l.
Proof.
  induction l as [|a l IH]; [by constructor|].
  rewrite running_names_cons. destruct (stopping a) eqn:Hs; [|done].
  intros H. constructor; [done|by apply IH].
Qed.

Lemma all_stopping_running_names (l : list anim) :
  Forall (λ b, stopping b = true) l → running_names l = [].
Proof.
  induction 1 as [|a l Ha _ IH]; [done|].
  by rewrite running_names_cons, Ha.
Qed.

Lemma isAnimating_all_stopping (w : world astate) o name :
  (∀ l, objectAnimations w !! o = Some l →
        Forall (λ b, stopping b = true) l) →
  isAnimating w (Some o) name = false.
Proof.
  intros Hall. unfold isAnimating.
  destruct (objectAnimations w !! o) as [[|a l]|]; [done| |done].
  specialize (Hall _ eq_refl).
  assert (∀ p : anim → bool, (∀ b, stopping b = true → p b = false) →
            existsb p (a :: l) = false) as Hno.
  { intros p Hp. apply existsb_false_Forall.
    eapply Forall_impl; [exact Hall|]. done. }
  destruct name as [n|]; [destruct (negb _)|]; apply Hno.
  - intros b Hb. unfold is_running. rewrite Hb. apply andb_false_r.
  - by intros b ->.
  - by intros b ->.
Qed.

Lemma clear_all_stopping (w : world astate) now imm o (l : list anim) :
  inv w → objectAnimations (clear w now imm) !! o = Some l →
  Forall (λ b, stopping b = true) l.
Proof.
  intros Hinv Hl. pose proof Hinv as (Hnd & _ & Hall).
  destruct (clear_loop now imm (animatedObjects w) Hnd w)
    as (_ & _ & Hout & Hin).
  unfold clear in Hl. simpl in Hl.
  destruct (decide (o ∈ animatedObjects w)) as [Ho|Ho].
  - by eapply Hin.
  - rewrite Hout in Hl by done.
    destruct (Hall o l Hl) as (_ & _ & Htr & _).
    apply running_names_nil.
    destruct (decide (running_names l = [])) as [E|E]; [done|].
    destruct Ho. by apply Htr.
Qed.

(** After [clear], immediate or not, no object is tracked and
    [isAnimating] is false for every object and every name; a [tick]
    then does nothing, also for the instances that are still in their
    stop transition.  [clear] keeps the invariant of the manager. *)
Theorem clear_stops_everything (w : world astate) (now : objref → Q)
    (immediate : bool) :
  inv w →
  let w' := clear w now immediate in
  animatedObjects w' = [] ∧
  (∀ object name, isAnimating w' object name = false) ∧
  (∀ t dt, tick w' t dt = w') ∧
  inv w'.
Proof.
  intros Hinv w'. split_and!; [done| |done|].
  - intros [o|] name; [|done]. apply isAnimating_all_stopping.
    intros l Hl. by eapply clear_all_stopping.
  - pose proof Hinv as (Hnd & _ & _).
    destruct (clear_loop now immediate (animatedObjects w) Hnd w)
      as (Hty & Hinv1 & _ & _).
    destruct (Hinv1 Hinv) as (_ & He & Hall).
    split_and!; [apply NoDup_nil_2|done|].
    intros o l Hl. destruct (Hall o l Hl) as (H1 & H2 & _ & H4).
    split_and!; try done. intros Hr. destruct Hr.
    apply all_stopping_running_names.
    by apply (clear_all_stopping w now immediate o).
Qed.

Lemma stopAll_gradual_keeps (w : world astate) now o :
  let w' := stopAllAnimations w now (Some o) false in
  trace w' = trace w ∧ (∀ x, heap w' x = heap w x) ∧
  ∀ o', ids (default [] (objectAnimations w' !! o'))
        = ids (default [] (objectAnimations w !! o')).
Proof.
  unfold stopAllAnimations, stopAnimation.
  destruct (objectAnimations w !! o) as [[|a l]|] eqn:Hl; [done| |done].
  rewrite stop_anims_gradual.
  set (l1 := map _ (a :: l)).
  assert (ids l1 = ids (a :: l)) as Hids.
  { unfold l1, ids. rewrite map_map. apply map_ext. intros b.
    by destruct (shouldStop SelAll b && negb (stopping b)). }
  assert (l1 ≠ []) as Hne by done. clearbody l1.
  destruct (store_animations_self w o (heap w o, l1, [])) as [Hs Hh].
  destruct (store_animations_rest w o (heap w o, l1, [])) as (_ & _ & Htr & _).
  cbv zeta. split_and!.
  - rewrite Htr. apply app_nil_r.
  - intros x. destruct (decide (x = o)) as [->|Hx]; [done|].
    by apply store_animations_other.
  - intros o'. destruct (decide (o' = o)) as [->|Ho'].
    + rewrite Hs, Hl. transitivity (ids l1); [by destruct l1 | exact Hids].
    + by destruct (store_animations_other w o (heap w o, l1, []) o' Ho')
        as [-> _].
Qed.

(** [clear(false)] only marks instances as stopping: it removes no
    instance, calls no function and changes no object.  As no object is
    tracked after it, no later [tick] ends these stop transitions: no
    cleanup function is ever called and no initial value restored
    for them by [tick]. *)
Theorem clear_gradual_strands (w : world astate) (now : objref → Q) :
  let w' := clear w now false in
  trace w' = trace w ∧
  (∀ x, heap w' x = heap w x) ∧
  (∀ o, ids (default [] (objectAnimations w' !! o))
        = ids (default [] (objectAnimations w !! o))) ∧
  ∀ nows dt, ticks w' nows dt = w'.
Proof.
  intros w'.
  assert (∀ os (w0 : world astate),
            let w1 := foldl (λ w1 o, stopAllAnimations w1 (now o) (Some o) false)
                        w0 os in
            trace w1 = trace w0 ∧ (∀ x, heap w1 x = heap w0 x) ∧
            ∀ o, ids (default [] (objectAnimations w1 !! o))
                 = ids (default [] (objectAnimations w0 !! o))) as Hloop.
  { induction os as [|o os IH]; intros w0; cbn [foldl]; [done|].
    destruct (IH (stopAllAnimations w0 (now o) (Some o) false))
      as (H1 & H2 & H3).
    destruct (stopAll_gradual_keeps w0 (now o) o) as (K1 & K2 & K3).
    cbv zeta. split_and!.
    - by rewrite H1.
    - intros x. by rewrite H2.
    - intros o'. by rewrite H3. }
  destruct (Hloop (animatedObjects w) w) as (H1 & H2 & H3).
  split_and!; try done.
  intros nows dt. induction nows as [|t nows IH]; [done|]. exact IH.
Qed.

(** ** How long an instance lives under [tick] *)

(** One [tick] at an instance [a] in the middle of the list of a tracked
    object. *)
Lemma tick_middle (w : world astate) now dt o (l1 l2 : list anim) a :
  wf w → o ∈ animatedObjects w →
  objectAnimations w !! o = Some (l1 ++ a :: l2) →
  let r2 := tick_anims (animationTypes w) now dt o l2 (heap w o) in
  let ra := tick_anim (animationTypes w) now dt o a r2.1.1 in
  lookup_instance (tick w now dt) o (inst_id a) = ra.1.2 ∧
  ∃ evs, trace (tick w now dt) = trace w ++ evs ∧ ∀ e, e ∈ ra.2 → e ∈ evs.
Proof.
  intros [Hnd Hids] Ho Hl r2 ra.
  destruct (tick_spec w now dt Hnd) as (_ & Htr & _ & Hin & _).
  destruct (Hin o Ho) as [Hl' _].
  unfold self_result in Hl'. rewrite Hl in Hl'.
  rewrite tick_anims_middle in Hl'. cbv zeta in Hl'.
  fold r2 in Hl'. fold ra in Hl'. cbn [fst snd] in Hl'.
  set (r1 := tick_anims (animationTypes w) now dt o l1 ra.1.1) in Hl'.
  pose proof (Hids _ _ Hl) as Hnodup. simpl in Hnodup.
  apply NoDup_ids_middle in Hnodup as (Hn1 & Hn2 & _).
  assert (inst_id a ∉ ids r1.1.2) as Hr1.
  { intros H. apply Hn1.
    eapply sublist_subseteq; [apply tick_anims_ids|exact H]. }
  assert (inst_id a ∉ ids r2.1.2) as Hr2.
  { intros H. apply Hn2.
    eapply sublist_subseteq; [apply tick_anims_ids|exact H]. }
  split.
  - unfold lookup_instance. rewrite Hl', stored_find.
    destruct ra as [[obja [b|]] eva] eqn:Hra; cbn [fst snd].
    + destruct (tick_anim_kept _ _ _ _ _ _ _ _ _ Hra) as (Hid & _).
      rewrite <- Hid in Hr1 |- *. by apply find_id_app.
    + apply find_ids_None. rewrite ids_app.
      by intros [H|H]%elem_of_app.
  - eexists. split; [exact Htr|]. intros e He.
    apply list_elem_of_In, in_flat_map. exists o.
    split; [by apply list_elem_of_In|]. apply list_elem_of_In.
    unfold obj_events. rewrite Hl, tick_anims_middle. cbv zeta.
    fold r2. fold ra. cbn [snd].
    rewrite !elem_of_app. left. by right.
Qed.

Lemma tick_anim_looping types now dt o (a : anim) obj ty :
  types !! inst_name a = Some ty → stopping a = false →
  truthy (prop (inst_options a) "loop") = true → update_returns ty →
  ∃ obj' b ev, tick_anim types now dt o a obj = (obj', Some b, ev) ∧
               stopping b = false.
Proof.
  intros Hty Hs Hloop Hret. unfold tick_anim. rewrite Hty.
  destruct (transition_in_fields dt a) as (_ & _ & _ & Hopt & _ & Hst & _).
  unfold transition_out. rewrite Hst, Hs.
  unfold check_duration. rewrite Hopt, Hloop. cbn [negb].
  destruct (Hret obj (inst_state (transition_in dt a)) dt
              (inst_options (transition_in dt a))
              (transitionProgress (transition_in dt a))) as (obj' & s' & ->).
  eexists _, _, _. split; [done|]. simpl. by rewrite Hst.
Qed.

(** A looping instance that is not stopping, of a registered type whose
    update function does not throw, is still there and not stopping
    after any number of calls of [tick]. *)
Theorem looping_keeps_running (w : world astate) (o : objref) (i : Z)
    (a : anim) (ty : atype) (nows : list Q) (dt : jsnum) :
  inv w → lookup_instance w o i = Some a → stopping a = false →
  truthy (prop (inst_options a) "loop") = true →
  animationTypes w !! inst_name a = Some ty → update_returns ty →
  running_instance (ticks w nows dt) o i = true.
Proof.
  intros Hinv Ha Hs Hloop Hty Hret. revert w a Hinv Ha Hs Hloop Hty.
  induction nows as [|now nows IH]; intros w a Hinv Ha Hs Hloop Hty.
  - simpl. unfold running_instance. by rewrite Ha, Hs.
  - simpl.
    destruct (lookup_instance_split _ _ _ _ Ha) as (Hid & l1 & l2 & Hl).
    assert (o ∈ animatedObjects w) as Ho.
    { eapply inv_tracked; [done|exact Hl| |done].
      apply elem_of_app. right. by left. }
    destruct (tick_middle w now dt o l1 l2 a (inv_wf _ Hinv) Ho Hl)
      as [Hlk _].
    destruct (tick_anim_looping (animationTypes w) now dt o a
                (tick_anims (animationTypes w) now dt o l2 (heap w o)).1.1
                ty Hty Hs Hloop Hret) as (obj' & b & ev & Hstep & Hsb).
    rewrite Hstep, Hid in Hlk. simpl in Hlk.
    destruct (tick_anim_kept _ _ _ _ _ _ _ _ _ Hstep)
      as (_ & Hname & Hopt & _).
    apply (IH (tick w now dt) b); try done.
    + by apply tick_inv.
    + by rewrite Hopt.
    + rewrite Hname.
      destruct (tick_spec w now dt) as (-> & _); [by destruct Hinv|done].
Qed.

Lemma tick_anim_loop_stop_start types now dt o (a b : anim) obj obj' ev :
  tick_anim types now dt o a obj = (obj', Some b, ev) →
  stopping a = true → truthy (prop (inst_options a) "loop") = true →
  stopStartTime b = stopStartTime a.
Proof.
  intros Hstep Hs Hloop. unfold tick_anim in Hstep.
  destruct (types !! inst_name a) as [ty|]; [|done].
  rewrite transition_in_stopping in Hstep by done.
  destruct (transition_out now a) as [a2|] eqn:Hout.
  2: { by destruct (cleanupAnimation types o a obj). }
  destruct (transition_out_fields _ _ _ Hout)
    as (_ & _ & _ & Hopt & _ & _ & Hsst & _).
  assert (check_duration now a2 = a2) as Hcd.
  { unfold check_duration. by rewrite Hopt, Hloop. }
  rewrite Hcd in Hstep.
  destruct (update ty obj _ _ _ _) as [obj1 [s|]]; [|done].
  by injection Hstep as _ <- _.
Qed.

Lemma stop_progress_done (a : anim) (d now : Q) :
  transitionDuration a = Fin d → 0 < d → stopStartTime a + d <= now →
  js_ge (stopProgress now a) (Fin 1) = true.
Proof.
  intros Hd Hpos Hle. unfold stopProgress. rewrite Hd, js_div_pos by done.
  assert (1 <= (now - stopStartTime a) / d) as H1.
  { apply Qle_shift_div_l; [done|]. lra. }
  simpl. apply Qle_bool_iff in H1. rewrite H1. simpl.
  by apply Qle_bool_iff.
Qed.

(** The state of a stop transition of the instance [i] of [o] that
    began at [t0]: the instance is stopping since [t0], with the options
    [opts], on a tracked object; or it is gone and its initial values
    have been restored. *)
Lemma stop_transition_step (w : world astate) now dt o i t0 opts name ty evs0 :
  inv w → animationTypes w !! name = Some ty → update_returns ty →
  truthy (prop opts "loop") = true →
  (∃ b, lookup_instance w o i = Some b ∧ o ∈ animatedObjects w ∧
        stopping b = true ∧ stopStartTime b = t0 ∧ inst_options b = opts ∧
        inst_name b = name) ∨
  (lookup_instance w o i = None ∧ EvRestore o i ∈ evs0) →
  ∃ evs, trace (tick w now dt) = trace w ++ evs ∧
    ((∃ b, lookup_instance (tick w now dt) o i = Some b ∧
           o ∈ animatedObjects (tick w now dt) ∧
           stopping b = true ∧ stopStartTime b = t0 ∧ inst_options b = opts ∧
           inst_name b = name) ∨
     (lookup_instance (tick w now dt) o i = None ∧ EvRestore o i ∈ evs0 ++ evs)) ∧
    (∀ d, to_number (prop opts "transitionDuration") = Fin d → 0 < d →
          t0 + d <= now →
          lookup_instance (tick w now dt) o i = None ∧
          EvRestore o i ∈ evs0 ++ evs).
Proof.
  intros Hinv Hty Hret Hloop Hcase.
  pose proof (inv_wf _ Hinv) as Hwf. pose proof Hwf as [Hnd _].
  destruct (tick_spec w now dt Hnd) as (_ & Htr & Hout & _ & Hkeep).
  destruct Hcase as [(b & Hb & Ho & Hsb & Hsst & Hopt & Hname) | [Hnone Hev]].
  - destruct (lookup_instance_split _ _ _ _ Hb) as (Hid & l1 & l2 & Hl).
    destruct (tick_middle w now dt o l1 l2 b Hwf Ho Hl)
      as (Hlk & evs & Htr' & Hevs).
    rewrite Hid in Hlk. rewrite <- Hname in Hty.
    set (obj := (tick_anims (animationTypes w) now dt o l2 (heap w o)).1.1)
      in *.
    destruct (stopping_step (animationTypes w) now dt o b obj ty Hty Hsb)
      as [Hdone Hgo].
    exists evs. split; [done|].
    assert (js_ge (stopProgress now b) (Fin 1) = true →
            lookup_instance (tick w now dt) o i = None ∧
            EvRestore o i ∈ evs0 ++ evs) as Hend.
    { intros Hge. rewrite (Hdone Hge) in Hlk, Hevs. split; [done|].
      apply elem_of_app. right. apply Hevs. unfold cleanupAnimation.
      destruct (run_cleanup _ _ _ _) as [obj1 ev1]. simpl.
      apply elem_of_app. right. rewrite Hid. by left. }
    split.
    + destruct (js_ge (stopProgress now b) (Fin 1)) eqn:Hge.
      * right. by apply Hend.
      * left. destruct (Hgo eq_refl) as (r & obj' & Hup & Hr).
        destruct (Hret obj (inst_state b) dt (inst_options b)
                    (js_sub (Fin 1) (stopProgress now b)))
          as (obj2 & s2 & Hup2).
        rewrite Hup2 in Hup. injection Hup as <- <-.
        destruct Hr as (b' & Hstep & Hsb' & _).
        rewrite Hstep in Hlk. simpl in Hlk.
        destruct (tick_anim_kept _ _ _ _ _ _ _ _ _ Hstep)
          as (_ & Hname' & Hopt' & _).
        exists b'. split_and!; try done.
        -- apply Hkeep; [done|]. unfold lookup_instance in Hlk.
           destruct (objectAnimations (tick w now dt) !! o); [by eexists|done].
        -- rewrite <- Hsst. eapply tick_anim_loop_stop_start; [done..|].
           by rewrite Hopt.
        -- congruence.
        -- congruence.
    + intros d Hd Hpos Hle. apply Hend.
      apply (stop_progress_done b d); [|done|by rewrite Hsst].
      unfold transitionDuration. by rewrite Hopt.
  - assert (lookup_instance (tick w now dt) o i = None) as Hnone'.
    { destruct (lookup_instance (tick w now dt) o i) as [b|] eqn:Hb; [|done].
      destruct (decide (o ∈ animatedObjects w)) as [Ho|Ho].
      - destruct (tick_lookup_instance w now dt o i b Hwf Ho Hb)
          as (a0 & _ & _ & _ & Ha0 & _). congruence.
      - unfold lookup_instance in Hb, Hnone.
        destruct (Hout o Ho) as [Heq _]. rewrite Heq in Hb. congruence. }
    eexists. split; [exact Htr|].
    assert (EvRestore o i ∈ evs0 ++
              flat_map (obj_events w now dt) (animatedObjects w)) as Hin.
    { apply elem_of_app. by left. }
    split; [by right|done].
Qed.

(** The stop transition of a looping instance of a tracked object ends:
    when the type stays registered and its update function does not
    throw, then after any calls of [tick] of which the last one comes
    [transitionDuration] or more after the stop began, the instance is
    gone and its initial values have been restored. *)
Theorem gradual_stop_ends (w : world astate) (o : objref) (i : Z) (a : anim)
    (ty : atype) (d : Q) (nows : list Q) (now : Q) (dt : jsnum) :
  inv w → o ∈ animatedObjects w → lookup_instance w o i = Some a →
  stopping a = true → truthy (prop (inst_options a) "loop") = true →
  animationTypes w !! inst_name a = Some ty → update_returns ty →
  transitionDuration a = Fin d → 0 < d → stopStartTime a + d <= now →
  let w' := ticks w (nows ++ [now]) dt in
  lookup_instance w' o i = None ∧
  ∃ evs, trace w' = trace w ++ evs ∧ EvRestore o i ∈ evs.
Proof.
  intros Hinv Ho Ha Hs Hloop Hty Hret Hd Hpos Hle w'.
  assert (∀ nows (w1 : world astate) evs0,
            inv w1 → animationTypes w1 !! inst_name a = Some ty →
            (∃ b, lookup_instance w1 o i = Some b ∧ o ∈ animatedObjects w1 ∧
                  stopping b = true ∧ stopStartTime b = stopStartTime a ∧
                  inst_options b = inst_options a ∧
                  inst_name b = inst_name a) ∨
            (lookup_instance w1 o i = None ∧ EvRestore o i ∈ evs0) →
            lookup_instance (ticks w1 (nows ++ [now]) dt) o i = None ∧
            ∃ evs, trace (ticks w1 (nows ++ [now]) dt) = trace w1 ++ evs ∧
                   EvRestore o i ∈ evs0 ++ evs) as Hall.
  { clear nows w' Hinv Ho Ha Hty.
    induction nows as [|t nows IH]; intros w1 evs0 Hinv Hty Hcase.
    - simpl.
      destruct (stop_transition_step w1 now dt o i (stopStartTime a)
                  (inst_options a) (inst_name a) ty evs0 Hinv Hty Hret Hloop
                  Hcase) as (evs & Htr & _ & Hend).
      destruct (Hend d Hd Hpos Hle) as [H1 H2].
      split; [done|]. by exists evs.
    - simpl.
      destruct (stop_transition_step w1 t dt o i (stopStartTime a)
                  (inst_options a) (inst_name a) ty evs0 Hinv Hty Hret Hloop
                  Hcase) as (evs & Htr & Hcase' & _).
      destruct (IH (tick w1 t dt) (evs0 ++ evs)) as (Hnone & evs' & Htr' & Hin).
      + by apply tick_inv.
      + destruct (tick_spec w1 t dt) as (-> & _); [by destruct Hinv|done].
      + exact Hcase'.
      + split; [done|]. exists (evs ++ evs').
        split; [by rewrite Htr', Htr, app_assoc|by rewrite app_assoc]. }
  destruct (Hall nows w []) as (Hnone & evs & Htr & Hin); try done.
  - left. exists a. by split_and!.
  - split; [done|]. by exists evs.
Qed.

(** ** getAnimationState and getStats *)

Lemma assign_other {V} (m : gmap string V) (k n : string) (v : V) :
  k ≠ n → assign m k v !! n = m !! n.
Proof.
  intros Hne. unfold assign. destruct (String.eqb k "__proto__"); [done|].
  by rewrite lookup_insert_ne.
Qed.

Lemma assign_self {V} (m : gmap string V) (n : string) (v : V) :
  n ≠ "__proto__"%string → assign m n v !! n = Some v.
Proof.
  intros Hne. unfold assign.
  destruct (String.eqb_spec n "__proto__"); [done|].
  by rewrite lookup_insert_eq.
Qed.

Lemma all_states_last (n : string) (l3 l4 : list anim) b :
  n ≠ "__proto__"%string → inst_name b = n →
  Forall (λ c, inst_name c ≠ n) l4 →
  all_states (l3 ++ b :: l4) !! n = Some (inst_state b).
Proof.
  intros Hn Hb Hl4. unfold all_states. rewrite foldl_app. simpl.
  generalize (foldl (λ states a, assign states (inst_name a) (inst_state a))
                ∅ l3) as m. intros m.
  assert (assign m (inst_name b) (inst_state b) !! n = Some (inst_state b))
    as Hm by (rewrite Hb; by apply assign_self).
  revert Hm. generalize (assign m (inst_name b) (inst_state b)) as m'.
  induction Hl4 as [|c l4 Hc _ IH]; intros m' Hm'; simpl; [done|].
  apply IH. by rewrite assign_other.
Qed.

Lemma find_first (p : anim → bool) (l1 l2 : list anim) a :
  Forall (λ c, p c = false) l1 → p a = true →
  List.find p (l1 ++ a :: l2) = Some a.
Proof.
  intros Hl1 Ha. induction Hl1 as [|c l1 Hc _ IH]; simpl.
  - by rewrite Ha.
  - by rewrite Hc.
Qed.

(** For a name [n] with several instances on an object (one fading out
    and one started since), [getAnimationState(o, n)] is the state of
    the first of them in the list, stopping or not, while the entry for
    [n] in [getAnimationState(o)] is the state of the last one. *)
Theorem state_of_first_or_last (w : world astate) (o : objref) (n : string)
    (l1 l2 l3 l4 : list anim) (a b : anim) :
  n ≠ EmptyString → n ≠ "__proto__"%string →
  objectAnimations w !! o = Some (l1 ++ a :: l2) →
  l1 ++ a :: l2 = l3 ++ b :: l4 →
  inst_name a = n → Forall (λ c, inst_name c ≠ n) l1 →
  inst_name b = n → Forall (λ c, inst_name c ≠ n) l4 →
  getAnimationState w (Some o) (Some n) = StOne (inst_state a) ∧
  ∃ states, getAnimationState w (Some o) None = StAll states ∧
            states !! n = Some (inst_state b).
Proof.
  intros Hn Hp Hl Heq Ha Hl1 Hb Hl4. unfold getAnimationState. rewrite Hl.
  split.
  - assert (negb (n =? EmptyString)%string = true) as ->.
    { by apply negb_true_iff, String.eqb_neq. }
    rewrite (find_first _ l1 l2 a); [done| |].
    + eapply Forall_impl; [exact Hl1|]. simpl. intros c Hc.
      by apply String.eqb_neq.
    + by apply String.eqb_eq.
  - eexists. split; [done|]. rewrite Heq. by apply all_states_last.
Qed.

Lemma count_name_other (m : gmap string tally) (k n : string) :
  k ≠ n → count_name m k !! n = m !! n.
Proof. intros Hne. unfold count_name. by apply assign_other. Qed.

Lemma count_name_self (m : gmap string tally) (n : string) (c : nat) :
  n ∉ inherited_keys →
  m !! n = (if Nat.eqb c 0 then None else Some (Count c)) →
  count_name m n !! n = Some (Count (S c)).
Proof.
  intros Hn Hm. unfold count_name. rewrite assign_self.
  - rewrite Hm. destruct c; simpl; [|done].
    by rewrite bool_decide_eq_false_2.
  - intros ->. apply Hn. by left.
Qed.

Lemma foldl_count_name (n : string) (names : list string) :
  n ∉ inherited_keys → ∀ (m : gmap string tally) (c : nat),
  m !! n = (if Nat.eqb c 0 then None else Some (Count c)) →
  foldl count_name m names !! n =
  (let c' := (c + length (filter (λ x, x = n) names))%nat in
   if Nat.eqb c' 0 then None else Some (Count c')).
Proof.
  intros Hn. induction names as [|x names IH]; intros m c Hm; simpl.
  - by rewrite Nat.add_0_r.
  - destruct (decide (x = n)) as [->|Hx].
    + rewrite filter_cons_True by done. simpl.
      rewrite (IH _ (S c)) by by apply count_name_self.
      cbv zeta. by replace (S c + length (filter (λ x, x = n) names))%nat
        with (c + S (length (filter (λ x, x = n) names)))%nat by lia.
    + rewrite filter_cons_False by done. apply IH.
      by rewrite count_name_other.
Qed.

Lemma count_named_names (n : string) (l : list anim) :
  length (filter (λ x, x = n) (map inst_name l)) = count_named n l.
Proof.
  unfold count_named. induction l as [|a l IH]; [done|]. simpl.
  destruct (decide (inst_name a = n)) as [Ha|Ha].
  - rewrite !filter_cons_True by done. simpl. by rewrite IH.
  - by rewrite !filter_cons_False by done.
Qed.

Lemma getStats_loop (w : world astate) (os : list objref) :
  ∀ (t : nat) (m : gmap string tally),
  foldl (λ '(totalAnimations, byType) o,
           match objectAnimations w !! o with
           | Some animations =>
               ((totalAnimations + length animations)%nat,
                foldl count_name byType (map inst_name animations))
           | None => (totalAnimations, byType)
           end) (t, m) os
  = ((t + length (flat_map (λ o, default [] (objectAnimations w !! o)) os))%nat,
     foldl count_name m
       (map inst_name
          (flat_map (λ o, default [] (objectAnimations w !! o)) os))).
Proof.
  induction os as [|o os IH]; intros t m; simpl.
  - by rewrite Nat.add_0_r.
  - destruct (objectAnimations w !! o) as [l|]; simpl.
    + rewrite IH, length_app, map_app, foldl_app. f_equal. lia.
    + by rewrite IH.
Qed.

(** [getStats] counts the instances of the tracked objects: their
    number is [totalAnimations], and for a name that an object literal
    does not inherit, [byType] holds the number of instances of that
    name, and no entry when there is none. *)
Theorem stats_count (w : world astate) (n : string) :
  n ∉ inherited_keys →
  stat_totalAnimations (getStats w) = length (tracked_instances w) ∧
  stat_byType (getStats w) !! n =
  (let c := count_named n (tracked_instances w) in
   if Nat.eqb c 0 then None else Some (Count c)).
Proof.
  intros Hn. unfold getStats. rewrite getStats_loop. simpl.
  split; [done|].
  rewrite (foldl_count_name n _ Hn ∅ 0) by done. simpl.
  by rewrite count_named_names.
Qed.

End MoreFacts.

(** ** The further properties at concrete runs *)

Import MoreExamples.


Lemma toggle_flips_witness :
  let r := toggleAnimation 0%nat w_test 1 (Some 7%nat) "test" ∅ true in
  r.2 = Returned false ∧
  isAnimating r.1 (Some 7%nat) (Some "test"%string) = false.
Proof.
  intros r.
  destruct (toggle_flips 0%nat w_test r.1 1 7%nat "test" ∅ true false)
    as [_ H].
  - done.
  - vm_compute. reflexivity.
  - split; [vm_compute; reflexivity|exact H].
Defined.

Lemma start_result_witness :
  (startAnimation 0%nat w0 0 (Some 7%nat) "test" ∅).2 = Returned 1%Z ∧
  isAnimating w_test (Some 7%nat) (Some "test"%string) = true ∧
  running_instance w_test 7%nat 1 = true.
Proof.
  destruct (start_result 0%nat w0 w_test 0 (Some 7%nat) "test" ∅ 1)
    as (_ & _ & H).
  - compute_done.
  - compute_done.
  - vm_compute. reflexivity.
  - destruct H as (o & a & [= <-] & _ & Ha & _ & Hs & _ & Hr & _); [done|].
    split_and!; [vm_compute; reflexivity|exact Hr|].
    unfold running_instance. by rewrite Ha, Hs.
Defined.

Lemma clear_stops_everything_witness :
  isAnimating w_mixed (Some 8%nat) None = true ∧
  isAnimating (clear w_mixed (at_time 1) true) (Some 8%nat) None = false ∧
  animatedObjects (clear w_mixed (at_time 1) true) = [].
Proof.
  destruct (clear_stops_everything w_mixed (at_time 1) true) as (H1 & H2 & _).
  - compute_done.
  - split_and!; [vm_compute; reflexivity|apply H2|exact H1].
Defined.

Lemma looping_keeps_running_witness :
  running_instance (ticks w_test [1 # 10; 2 # 10] (Fin (1 # 10))) 7%nat 1
  = true.
Proof.
  apply (looping_keeps_running w_test 7%nat 1 (instance_of w_test 7%nat 1)
           testAnimation).
  - compute_done.
  - vm_compute. reflexivity.
  - reflexivity.
  - vm_compute. reflexivity.
  - vm_compute. reflexivity.
  - intros obj s dt opts tp. by eexists _, _.
Defined.

Lemma gradual_stop_ends_witness :
  running_instance w_test 7%nat 1 = true ∧
  lookup_instance (ticks w_fading ([15 # 100] ++ [3 # 10]) (Fin (1 # 10)))
    7%nat 1 = None.
Proof.
  destruct (gradual_stop_ends w_fading 7%nat 1 (instance_of w_fading 7%nat 1)
              testAnimation (2 # 10) [15 # 100] (3 # 10) (Fin (1 # 10)))
    as [H _].
  - compute_done.
  - compute_done.
  - vm_compute. reflexivity.
  - reflexivity.
  - vm_compute. reflexivity.
  - vm_compute. reflexivity.
  - intros obj s dt opts tp. by eexists _, _.
  - vm_compute. reflexivity.
  - reflexivity.
  - vm_compute. discriminate.
  - split; [vm_compute; reflexivity|exact H].
Defined.

Lemma state_of_first_or_last_witness :
  let l := instances w_restarted 7%nat in
  map stopping l = [true; false] ∧
  getAnimationState w_restarted (Some 7%nat) (Some "test"%string) = StOne 1%nat ∧
  ∃ states, getAnimationState w_restarted (Some 7%nat) None = StAll states ∧
            states !! "test"%string = Some 0%nat.
Proof.
  intros l.
  destruct (state_of_first_or_last w_restarted 7%nat "test"
              [] (drop 1 l) (take 1 l) [] (instance_of w_restarted 7%nat 1)
              (instance_of w_restarted 7%nat 2)) as [H1 H2].
  - done.
  - done.
  - vm_compute. reflexivity.
  - vm_compute. reflexivity.
  - reflexivity.
  - constructor.
  - reflexivity.
  - constructor.
  - split_and!; [vm_compute; reflexivity|exact H1|exact H2].
Defined.

Lemma stats_count_witness :
  stat_totalAnimations (getStats w_mixed) = 4%nat ∧
  stat_byType (getStats w_mixed) !! "test"%string = Some (Count 2).
Proof.
  destruct (stats_count w_mixed "test") as [H1 H2].
  - compute_done.
  - split; [rewrite H1|rewrite H2]; vm_compute; reflexivity.
Defined.

End ManagerFacts.

(** * Properties of the node object factory *)

Module FactoryFacts.

Import NodeObjectFactory.

(** *** The caches *)






(** *** The pools *)

Lemma pop_snoc (p : list ref) (obj : ref) : pop (p ++ [obj]) = Some (p, obj).
Proof. unfold pop. by rewrite last_snoc, removelast_last. Qed.


(** [factory_wf] holds at the start and is kept by every operation. *)
Lemma factory_wf_empty objs : factory_wf (empty_factory objs).
Proof.
  split; [|done]. intros T [p Hp]. simpl in Hp. by rewrite lookup_empty in Hp.
Qed.

Lemma factory_wf_registerType (f f' : factory) T c :
  factory_wf f → registerType f T c = Returned f' → factory_wf f'.
Proof.
  intros [Hpools Hempty]. unfold registerType.
  destruct (String.eqb_spec T EmptyString) as [->|Hne]; [done|].
  intros [= <-]. split; simpl.
  - intros T'. destruct (decide (T' = T)) as [->|Hne'].
    + intros _. rewrite lookup_insert_eq. by eexists.
    + rewrite lookup_insert_ne by done.
      destruct (objectPools f !! T); [|rewrite lookup_insert_ne by done];
        apply Hpools.
  - by rewrite lookup_insert_ne.
Qed.

Lemma factory_wf_unregisterType (f : factory) T :
  factory_wf f → factory_wf (unregisterType f T).1.
Proof.
  intros [Hpools Hempty]. unfold unregisterType.
  destruct (objectPools f !! T) as [pool|] eqn:Hp; split; simpl.
  - intros T'. destruct (decide (T' = T)) as [->|Hne'].
    + rewrite lookup_delete_eq. by intros [? ?].
    + rewrite !lookup_delete_ne by done. apply Hpools.
  - destruct (decide (T = EmptyString)) as [->|Hne].
    + by rewrite lookup_delete_eq.
    + by rewrite lookup_delete_ne.
  - intros T'. destruct (decide (T' = T)) as [->|Hne'].
    + rewrite Hp. by intros [? ?].
    + rewrite lookup_delete_ne by done. apply Hpools.
  - destruct (decide (T = EmptyString)) as [->|Hne].
    + by rewrite lookup_delete_eq.
    + by rewrite lookup_delete_ne.
Qed.

Lemma factory_wf_createObject (f : factory) n a :
  factory_wf f → factory_wf (createObject f n a).1.
Proof.
  intros [Hpools Hempty]. unfold createObject.
  destruct (negb _); [done|].
  destruct (prop (node_attrs n) a) as [| |b|x|T|g]; try done.
  destruct (typeRegistry f !! T) as [c|] eqn:Hc; [|done].
  destruct (objectPools f !! T ≫= pop) as [[pool' obj]|] eqn:Hpop.
  - split; [|done]. simpl. intros T'.
    destruct (decide (T' = T)) as [->|Hne'].
    + intros _. by rewrite Hc.
    + rewrite lookup_insert_ne by done. apply Hpools.
  - by destruct (c n _) as [s' [obj|]].
Qed.

Lemma factory_wf_releaseObject (f : factory) k :
  factory_wf f → factory_wf (releaseObject f k).
Proof.
  intros [Hpools Hempty]. unfold releaseObject.
  destruct (activeObjects f !! k) as [[obj T]|]; [|done].
  split; [|done]. simpl. intros T'.
  destruct (objectPools f !! T) as [pool|] eqn:Hp; [|apply Hpools].
  destruct (decide (T' = T)) as [->|Hne'].
  - intros _. apply Hpools. by eexists.
  - rewrite lookup_insert_ne by done. apply Hpools.
Qed.

Lemma factory_wf_clearPools (f : factory) :
  factory_wf f → factory_wf (clearPools f).
Proof.
  intros [Hpools Hempty]. split; [|done]. simpl. intros T.
  rewrite lookup_fmap. intros [x Hx].
  apply Hpools. destruct (objectPools f !! T); [by eexists|done].
Qed.

Lemma factory_wf_clear (f : factory) : factory_wf (clear f).
Proof.
  split; [|done]. intros T [p Hp]. simpl in Hp. by rewrite lookup_empty in Hp.
Qed.

Lemma factory_wf_disposeCache (f : factory) :
  factory_wf f → factory_wf (disposeCache f).
Proof. done. Qed.

Lemma reachable_wf (f : factory) : reachable f → factory_wf f.
Proof.
  induction 1 as [objs|f s _ IH|f f' T c _ IH Hreg|f T _ IH|f n a _ IH|
                  f k _ IH|f _ IH|f _ IH|f _ IH|f _ IH].
  - apply factory_wf_empty.
  - exact IH.
  - by eapply factory_wf_registerType.
  - by apply factory_wf_unregisterType.
  - by apply factory_wf_createObject.
  - by apply factory_wf_releaseObject.
  - by apply factory_wf_clearPools.
  - apply factory_wf_clear.
  - by apply factory_wf_disposeCache.
  - apply factory_wf_disposeCache, factory_wf_clear.
Qed.

(** *** Disposing a pooled object *)

(** When every key of the caches is a string, as the keys that
    [getGeometry] and [getMaterial] store are, [_disposeObject] disposes
    the geometry of the object, cached or not. *)
Lemma disposeObject_geometry (s : store) (obj g : ref) :
  (∀ k, is_Some (geometryCache s !! k) → ∃ key, k = KStr key) →
  geometry (objects s obj) = Some g →
  EvDispose g ∈ trace (disposeObject s obj).
Proof.
  intros Hkeys Hg. unfold disposeObject. rewrite Hg.
  assert (has (geometryCache s) (KRef g) = false) as ->.
  { unfold has. apply bool_decide_eq_false_2. intros H.
    by destruct (Hkeys _ H). }
  simpl negb. cbv iota.
  assert (EvDispose g ∈ trace (log s [EvDispose g])) as Hin.
  { simpl. apply elem_of_app. right. by left. }
  destruct (material (objects s obj)) as [|m|arr ms]; [done| |].
  - destruct (negb _); [|done]. simpl. apply elem_of_app. by left.
  - destruct (negb _); [|done]. simpl. apply elem_of_app. by left.
Qed.



(** ** The factory at concrete runs *)

Import FactoryExamples.





(** C3 at a concrete run.  The cube of node 1 is in the pool of 'cube';
    its geometry 0 and its material 1 are the resources cached under
    ["cube_4"] and ["lambert_#ffffaa_0.75"], which the cube of node 2,
    still shown, uses too.  [unregisterType('cube')], [clearPools()] and
    [clear()] each call [dispose] on both, and leave them in the
    caches. *)
Theorem pool_teardown_disposes_cached :
  objectPools f_pooled !! "cube"%string = Some [2%nat] ∧
  objects (st f_pooled) 2%nat = mkMesh false (Some 0%nat) (MatOne 1%nat) ∧
  objects (st f_pooled) 3%nat = mkMesh true (Some 0%nat) (MatOne 1%nat) ∧
  geometryCache (st f_pooled) !! KStr "cube_4" = Some 0%nat ∧
  materialCache (st f_pooled) !! KStr "lambert_#ffffaa_0.75" = Some 1%nat ∧
  disposals 0 (trace (st f_pooled)) = 0%nat ∧
  disposals 1 (trace (st f_pooled)) = 0%nat ∧
  (let f' := (unregisterType f_pooled "cube").1 in
   disposals 0 (trace (st f')) = 1%nat ∧
   disposals 1 (trace (st f')) = 1%nat ∧
   geometryCache (st f') !! KStr "cube_4" = Some 0%nat ∧
   materialCache (st f') !! KStr "lambert_#ffffaa_0.75" = Some 1%nat) ∧
  (let f' := clearPools f_pooled in
   disposals 0 (trace (st f')) = 1%nat ∧
   disposals 1 (trace (st f')) = 1%nat ∧
   geometryCache (st f') !! KStr "cube_4" = Some 0%nat) ∧
  (let f' := clear f_pooled in
   disposals 0 (trace (st f')) = 1%nat ∧
   disposals 1 (trace (st f')) = 1%nat ∧
   geometryCache (st f') !! KStr "cube_4" = Some 0%nat).
Proof. cbv zeta. split_and!; vm_compute; reflexivity. Qed.

(** ** The registry of types *)

(** [registerType] throws exactly for the empty name.  After it the
    type is registered with the creator given; a pool that the type
    had is kept as it is, and an empty pool is made otherwise; the other
    types and the active objects are untouched.  [unregisterType] then
    returns [true] and removes the type and its pool, and a second
    [unregisterType] returns [false]. *)
Theorem type_registry_round_trip (f : factory) (T : string) (c : creator) :
  (registerType f T c = Thrown ↔ T = EmptyString) ∧
  ∀ f1, registerType f T c = Returned f1 →
    hasType f1 T = true ∧
    typeRegistry f1 !! T = Some c ∧
    objectPools f1 !! T = Some (default [] (objectPools f !! T)) ∧
    (∀ T', T' ≠ T →
       hasType f1 T' = hasType f T' ∧
       objectPools f1 !! T' = objectPools f !! T') ∧
    activeObjects f1 = activeObjects f ∧
    (unregisterType f1 T).2 = true ∧
    hasType (unregisterType f1 T).1 T = false ∧
    objectPools (unregisterType f1 T).1 !! T = None ∧
    (unregisterType (unregisterType f1 T).1 T).2 = false.
Proof.
  unfold registerType. split.
  - destruct (String.eqb_spec T EmptyString); by split.
  - intros f1 Hreg. destruct (String.eqb T EmptyString); [done|].
    injection Hreg as <-. unfold hasType, unregisterType. simpl.
    assert ((match objectPools f !! T with
             | Some _ => objectPools f
             | None => <[T:=[]]> (objectPools f)
             end) !! T = Some (default [] (objectPools f !! T))) as Hpool.
    { destruct (objectPools f !! T) eqn:E; [done|]. by rewrite lookup_insert_eq. }
    rewrite Hpool. simpl.
    repeat (rewrite ?lookup_insert_eq, ?lookup_delete_eq; simpl).
    split_and!; try done.
    intros T' HT'. rewrite lookup_insert_ne by done. split; [done|].
    destruct (objectPools f !! T); [done|]. by rewrite lookup_insert_ne.
Qed.

(** A type that is registered again keeps its pool: the next
    [createObject] for it returns the object pooled last, as it was made
    by the earlier creator, and calls no creator. *)
Theorem reregistered_type_reuses_pool (f f1 : factory) (T : string)
    (c : creator) (p : list ref) (obj : ref) (n : node) (a : string) :
  objectPools f !! T = Some (p ++ [obj]) →
  registerType f T c = Returned f1 →
  prop (node_attrs n) a = VStr T →
  let r := createObject f1 n a in
  r.2 = Some obj ∧
  objectPools r.1 !! T = Some p ∧
  activeObjects r.1 !! nodeId_of n = Some (obj, T) ∧
  trace (st r.1) = trace (st f).
Proof.
  intros Hpool Hreg Hattr. unfold registerType in Hreg.
  destruct (String.eqb_spec T EmptyString) as [->|HT]; [done|].
  injection Hreg as <-. unfold createObject. rewrite Hattr. simpl.
  assert (negb (T =? EmptyString)%string = true) as ->.
  { by apply negb_true_iff, String.eqb_neq. }
  simpl. rewrite lookup_insert_eq, Hpool, Hpool. simpl.
  rewrite pop_snoc. simpl. rewrite !lookup_insert_eq. by split_and!.
Qed.

(** ** What createObject tracks *)

Lemma createObject_outcome (f : factory) (n : node) (a : string) :
  let r := createObject f n a in
  typeRegistry r.1 = typeRegistry f ∧
  match r.2 with
  | Some obj =>
      ∃ T, prop (node_attrs n) a = VStr T ∧
           is_Some (typeRegistry f !! T) ∧
           activeObjects r.1 = <[nodeId_of n := (obj, T)]> (activeObjects f)
  | None =>
      objectPools r.1 = objectPools f ∧ activeObjects r.1 = activeObjects f
  end.
Proof.
  unfold createObject.
  destruct (negb (truthy (prop (node_attrs n) a))); [done|].
  destruct (prop (node_attrs n) a) as [| |b|x|T|g]; try done.
  destruct (typeRegistry f !! T) as [c|] eqn:Hc; [|done].
  destruct (objectPools f !! T ≫= pop) as [[pool' obj]|].
  - simpl. split; [done|]. exists T. by split_and!.
  - destruct (c n _) as [s' [obj|]]; simpl; [|done].
    split; [done|]. exists T. by split_and!.
Qed.

(** A [createObject] that gives null changes neither the registry nor
    the pools nor the table of active objects, whatever the reason (no
    type on the node, a type that is not registered, a creator that
    throws).  One that gives an object has found the type of the node
    registered, and tracks this object under the id of the node in place
    of what was tracked under it. *)
Theorem create_tracks_or_fails (f : factory) (n : node) (a : string) :
  let r := createObject f n a in
  typeRegistry r.1 = typeRegistry f ∧
  match r.2 with
  | Some obj =>
      ∃ T, prop (node_attrs n) a = VStr T ∧
           is_Some (typeRegistry f !! T) ∧
           activeObjects r.1 = <[nodeId_of n := (obj, T)]> (activeObjects f)
  | None =>
      objectPools r.1 = objectPools f ∧ activeObjects r.1 = activeObjects f
  end.
Proof. apply createObject_outcome. Qed.

Lemma elem_of_pooled (f : factory) (x : ref) :
  x ∈ pooled f ↔ ∃ T p, objectPools f !! T = Some p ∧ x ∈ p.
Proof.
  unfold pooled. rewrite list_elem_of_In, in_concat. split.
  - intros (p & Hp%list_elem_of_In & Hx%list_elem_of_In).
    apply list_elem_of_fmap in Hp as ([T p'] & -> & Hin).
    apply elem_of_map_to_list in Hin. by exists T, p'.
  - intros (T & p & Hp & Hx). exists p.
    split; [|by apply list_elem_of_In]. apply list_elem_of_In.
    apply list_elem_of_fmap. exists (T, p). split; [done|].
    by apply elem_of_map_to_list.
Qed.

Lemma elem_of_removelast {A} (l : list A) (x : A) :
  x ∈ removelast l → x ∈ l.
Proof.
  induction l as [|y l IH]; [done|]. simpl.
  destruct l as [|z l]; [by intros ?%elem_of_nil|].
  intros [-> | H]%elem_of_cons; [by left|]. right. by apply IH.
Qed.

(** A [createObject] for a node id that is tracked already replaces the
    entry: the object tracked before, when it is tracked nowhere else,
    is then in no pool and in no entry of the table, so that nothing
    will release it, hide it or dispose it. *)
Theorem create_again_forgets (f f' : factory) (n : node) (a : string)
    (obj1 obj2 : ref) (T1 : string) :
  activeObjects f !! nodeId_of n = Some (obj1, T1) →
  (∀ k T, k ≠ nodeId_of n → activeObjects f !! k ≠ Some (obj1, T)) →
  obj1 ∉ pooled f →
  createObject f n a = (f', Some obj2) → obj2 ≠ obj1 →
  (∃ T2, activeObjects f' !! nodeId_of n = Some (obj2, T2)) ∧
  forgotten f' obj1 ∧
  forgotten (releaseObject f' (nodeId_of n)) obj1.
Proof.
  intros Hact Helse Hpool Hcreate Hne.
  pose proof (createObject_outcome f n a) as Hspec.
  rewrite Hcreate in Hspec. simpl in Hspec.
  destruct Hspec as (Hreg & T2 & Hattr & HT2 & Hact').
  assert (∀ x, x ∈ pooled f' → x ∈ pooled f) as Hsub.
  { intros x. rewrite !elem_of_pooled. intros (T & p & Hp & Hx).
    unfold createObject in Hcreate. rewrite Hattr in Hcreate.
    destruct (negb (truthy (VStr T2))); [done|].
    destruct (typeRegistry f !! T2) as [c|]; [|done].
    destruct (objectPools f !! T2 ≫= pop) as [[pool' obj]|] eqn:Hpop.
    - injection Hcreate as <- <-. simpl in Hp.
      destruct (decide (T = T2)) as [->|HT].
      + rewrite lookup_insert_eq in Hp. injection Hp as <-.
        destruct (objectPools f !! T2) as [pool|] eqn:E; [|done].
        simpl in Hpop. unfold pop in Hpop.
        destruct (last pool); [|done]. injection Hpop as <- <-.
        exists T2, pool. split; [done|]. by apply elem_of_removelast.
      + rewrite lookup_insert_ne in Hp by done. by exists T, p.
    - destruct (c n _) as [s' [obj|]]; [|done].
      injection Hcreate as <- <-. by exists T, p. }
  assert (forgotten f' obj1) as Hf'.
  { split; [by intros H%Hsub|].
    intros k T Hk. rewrite Hact' in Hk.
    destruct (decide (k = nodeId_of n)) as [->|Hkn].
    - rewrite lookup_insert_eq in Hk. congruence.
    - rewrite lookup_insert_ne in Hk by done. by apply (Helse k T). }
  split_and!; [exists T2; by rewrite Hact', lookup_insert_eq|done|].
  destruct Hf' as [Hp' Ha']. unfold releaseObject.
  rewrite Hact', lookup_insert_eq. split.
  - rewrite elem_of_pooled. simpl. intros (T & p & Hp & Hx).
    destruct (objectPools f' !! T2) as [pool|] eqn:E.
    + destruct (decide (T = T2)) as [->|HT].
      * rewrite lookup_insert_eq in Hp. injection Hp as <-.
        apply elem_of_app in Hx as [Hx|Hx%list_elem_of_singleton]; [|done].
        apply Hp', elem_of_pooled. by exists T2, pool.
      * rewrite lookup_insert_ne in Hp by done.
        apply Hp', elem_of_pooled. by exists T, p.
    + apply Hp', elem_of_pooled. by exists T, p.
  - intros k T. simpl. rewrite <- Hact'.
    destruct (decide (k = nodeId_of n)) as [->|Hkn].
    + by rewrite lookup_delete_eq.
    + rewrite lookup_delete_ne by done. apply Ha'.
Qed.

(** ** What the teardown of pools disposes *)





(** ** disposeCache *)


(** ** getStats *)

Lemma pool_stats_lookup (pools : gmap string (list ref)) (T : string) :
  map_fold (λ typeName pool poolStats, assign poolStats typeName (length pool))
    ∅ pools !! T
  = if String.eqb T "__proto__" then None else length <$> pools !! T.
Proof.
  apply (map_fold_weak_ind
           (λ r m, r !! T = if String.eqb T "__proto__" then None
                            else length <$> m !! T)).
  - rewrite !lookup_empty. by destruct (String.eqb T "__proto__").
  - intros i x m r Hi IH. unfold assign.
    destruct (String.eqb_spec i "__proto__") as [->|Hp].
    + rewrite IH. destruct (String.eqb_spec T "__proto__") as [->|HT]; [done|].
      by rewrite lookup_insert_ne.
    + destruct (decide (i = T)) as [->|HiT].
      * rewrite !lookup_insert_eq.
        by destruct (String.eqb_spec T "__proto__").
      * by rewrite !lookup_insert_ne.
Qed.

(** [releaseObject] of a tracked id whose type has a pool moves one
    object in the statistics: one active object less, one more pooled
    object of that type, and the rest of the statistics unchanged. *)
Theorem release_moves_stats (f : factory) (nodeId : jskey) (obj : ref)
    (T : string) (pool : list ref) :
  activeObjects f !! nodeId = Some (obj, T) →
  objectPools f !! T = Some pool →
  T ≠ "__proto__"%string →
  let s := getStats f in
  let s' := getStats (releaseObject f nodeId) in
  stat_activeObjects s = S (stat_activeObjects s') ∧
  stat_pooledObjects s !! T = Some (length pool) ∧
  stat_pooledObjects s' !! T = Some (S (length pool)) ∧
  (∀ T', T' ≠ T → stat_pooledObjects s' !! T' = stat_pooledObjects s !! T') ∧
  stat_registeredTypes s' = stat_registeredTypes s ∧
  stat_cachedGeometries s' = stat_cachedGeometries s ∧
  stat_cachedMaterials s' = stat_cachedMaterials s.
Proof.
  intros Hact Hpool HT s s'. unfold s, s', getStats, releaseObject.
  rewrite Hact, Hpool. simpl.
  assert ((T =? "__proto__")%string = false) as Hp by by apply String.eqb_neq.
  rewrite !pool_stats_lookup, Hp, Hpool, lookup_insert_eq. simpl.
  split_and!; try done.
  - rewrite <- (insert_delete_id (activeObjects f) nodeId (obj, T)) at 1 by done.
    rewrite map_size_insert_None; [done|]. apply lookup_delete_eq.
  - by rewrite length_app, Nat.add_1_r.
  - intros T' HT'. rewrite !pool_stats_lookup.
    by rewrite lookup_insert_ne.
Qed.

(** ** The accessor of createAccessor *)

(** When the factory has no object for a node, what the accessor gives
    instead (nothing, the fallback object, or what the fallback
    function returns) is not tracked: the registry, the pools and the
    table of active objects are as before the call. *)
Theorem accessor_fallback_untracked (fb : fallback) (a : string)
    (f : factory) (n : node) :
  (createObject f n a).2 = None →
  let r := createAccessor fb a f n in
  typeRegistry r.1 = typeRegistry f ∧
  objectPools r.1 = objectPools f ∧
  activeObjects r.1 = activeObjects f ∧
  match fb with
  | FbNone => r.2 = Returned None
  | FbValue v => r.2 = Returned (Some v)
  | FbFun g => r.2 = (g n (st (createObject f n a).1)).2
  end.
Proof.
  intros Hnone r. unfold r, createAccessor.
  pose proof (createObject_outcome f n a) as Hspec.
  destruct (createObject f n a) as [f' [obj|]]; [done|].
  simpl in Hspec. destruct Hspec as (H1 & H2 & H3).
  destruct fb as [|g|v]; simpl; [done| |done].
  by destruct (g n (st f')).
Qed.

(** ** The further properties of the factory at concrete runs *)

Import FactoryMoreExamples.

Lemma reregistered_type_reuses_pool_witness :
  objectPools f_pooled !! "cube"%string = Some [2%nat] ∧
  (createObject (register f_pooled "cube" failing_creator) (cube_node 5) attr).2
  = Some 2%nat.
Proof.
  split; [vm_compute; reflexivity|].
  apply (reregistered_type_reuses_pool f_pooled
           (register f_pooled "cube" failing_creator) "cube" failing_creator
           [] 2%nat (cube_node 5) attr).
  - vm_compute. reflexivity.
  - vm_compute. reflexivity.
  - vm_compute. reflexivity.
Defined.

Lemma f_active_entries (k : jskey) (e : ref * string) :
  activeObjects f_active !! k = Some e →
  (k = KNum 1 ∧ e = (2%nat, "cube"%string)) ∨
  (k = KNum 2 ∧ e = (3%nat, "cube"%string)).
Proof.
  intros H%elem_of_map_to_list. vm_compute in H.
  apply list_elem_of_In in H. simpl in H.
  destruct H as [[= <- <-]|[[= <- <-]|[]]]; [by right|by left].
Qed.

Lemma create_again_forgets_witness :
  (createObject f_active (cube_node 1) attr).2 = Some 4%nat ∧
  activeObjects f_active !! KNum 1 = Some (2%nat, "cube"%string) ∧
  forgotten (createObject f_active (cube_node 1) attr).1 2%nat.
Proof.
  destruct (createObject f_active (cube_node 1) attr) as [f' r] eqn:E.
  assert (r = Some 4%nat) as ->.
  { apply (f_equal snd) in E. vm_compute in E. congruence. }
  destruct (create_again_forgets f_active f' (cube_node 1) attr 2%nat 4%nat
              "cube") as (_ & H & _).
  - vm_compute. reflexivity.
  - intros k T Hk H. by destruct (f_active_entries k _ H) as [[? _]|[_ [=]]].
  - compute_done.
  - exact E.
  - done.
  - split_and!; [reflexivity|vm_compute; reflexivity|exact H].
Defined.




Lemma release_moves_stats_witness :
  stat_activeObjects (getStats f_active) = 2%nat ∧
  stat_activeObjects (getStats (releaseObject f_active (KNum 1))) = 1%nat ∧
  stat_pooledObjects (getStats (releaseObject f_active (KNum 1))) !! "cube"%string
  = Some 1%nat.
Proof.
  destruct (release_moves_stats f_active (KNum 1) 2%nat "cube" [])
    as (H1 & _ & H3 & _).
  - vm_compute. reflexivity.
  - vm_compute. reflexivity.
  - done.
  - split_and!; [vm_compute; reflexivity| |exact H3].
    apply eq_add_S. rewrite <- H1. vm_compute. reflexivity.
Defined.

Lemma accessor_fallback_untracked_witness :
  let r := createAccessor (FbValue 7%nat) attr f_cube plain_node in
  r.2 = Returned (Some 7%nat) ∧ activeObjects r.1 = activeObjects f_cube.
Proof.
  intros r.
  destruct (accessor_fallback_untracked (FbValue 7%nat) attr f_cube plain_node)
    as (_ & _ & H3 & H4).
  - vm_compute. reflexivity.
  - by split.
Defined.

End FactoryFacts.
(** ** Properties of the easing functions *)

Module EasingFacts.

Import Easing.

Lemma cube_le (p q : Q) : 0 <= p → p <= q → p * p * p <= q * q * q.
Proof.
  intros Hp Hpq.
  assert (0 <= q - p) as H1 by lra.
  assert (0 <= q * q + q * p + p * p) as H2 by nra.
  pose proof (Qmult_le_0_compat _ _ H1 H2). lra.
Qed.

Lemma cube_nonneg (p : Q) : 0 <= p → 0 <= p * p * p.
Proof. intros Hp. pose proof (cube_le 0 p). lra. Qed.


Lemma linear_range q : 0 <= q <= 1 → unit_interval (linear (Fin q)).
Proof. done. Qed.

Lemma easeInQuad_range q : 0 <= q <= 1 → unit_interval (easeInQuad (Fin q)).
Proof. intros H. simpl. split; nra. Qed.

Lemma easeOutQuad_range q : 0 <= q <= 1 → unit_interval (easeOutQuad (Fin q)).
Proof. intros H. simpl. split; nra. Qed.

Lemma easeInOutQuad_range q :
  0 <= q <= 1 → unit_interval (easeInOutQuad (Fin q)).
Proof.
  intros H. unfold easeInOutQuad, pow2. simpl. split_cases; simpl; split; nra.
Qed.

Lemma easeOutCubic_range q :
  0 <= q <= 1 → unit_interval (easeOutCubic (Fin q)).
Proof.
  intros H. simpl.
  pose proof (cube_nonneg (1 + - q)). pose proof (cube_le (1 + - q) 1).
  split; lra.
Qed.

Lemma easeInCubic_range q : 0 <= q <= 1 → unit_interval (easeInCubic (Fin q)).
Proof.
  intros H. simpl. pose proof (cube_nonneg q). pose proof (cube_le q 1).
  split; lra.
Qed.

Lemma easeInOutCubic_range q :
  0 <= q <= 1 → unit_interval (easeInOutCubic (Fin q)).
Proof.
  intros H. unfold easeInOutCubic, pow3. simpl. split_cases; simpl.
  - pose proof (cube_nonneg q). pose proof (cube_le q (1 # 2)). split; lra.
  - pose proof (cube_nonneg (-2 * q + 2)).
    pose proof (cube_le (-2 * q + 2) 1). split; lra.
Qed.

Lemma easeOutBounce_range q :
  0 <= q <= 1 → unit_interval (easeOutBounce (Fin q)).
Proof.
  intros H. unfold easeOutBounce. simpl. split_cases; simpl; split; nra.
Qed.

(** For a time between 0 and 1, the value of each easing function but
    the elastic one is a number between 0 and 1, in exact arithmetic. *)
Theorem easing_range (t : jsnum) :
  unit_interval t → Forall (λ f, unit_interval (f t)) bounded_easings.
Proof.
  destruct t as [q| | |]; try done. intros H.
  unfold bounded_easings. rewrite !Forall_cons, Forall_nil.
  split_and!; [| | | | | | | |done].
  - by apply linear_range.
  - by apply easeInQuad_range.
  - by apply easeOutQuad_range.
  - by apply easeInOutQuad_range.
  - by apply easeOutCubic_range.
  - by apply easeInCubic_range.
  - by apply easeInOutCubic_range.
  - by apply easeOutBounce_range.
Qed.

Lemma easeInOutQuad_le p q :
  0 <= p → p <= q → q <= 1 →
  js_le (easeInOutQuad (Fin p)) (easeInOutQuad (Fin q)).
Proof.
  intros H1 H2 H3. unfold easeInOutQuad, pow2. simpl.
  split_cases; simpl; nra.
Qed.

Lemma easeOutCubic_le p q :
  0 <= p → p <= q → q <= 1 →
  js_le (easeOutCubic (Fin p)) (easeOutCubic (Fin q)).
Proof.
  intros H1 H2 H3. simpl. pose proof (cube_le (1 + - q) (1 + - p)). lra.
Qed.

Lemma easeInCubic_le p q :
  0 <= p → p <= q → q <= 1 →
  js_le (easeInCubic (Fin p)) (easeInCubic (Fin q)).
Proof. intros H1 H2 H3. simpl. by apply cube_le. Qed.

Lemma easeInOutCubic_le p q :
  0 <= p → p <= q → q <= 1 →
  js_le (easeInOutCubic (Fin p)) (easeInOutCubic (Fin q)).
Proof.
  intros H1 H2 H3. unfold easeInOutCubic, pow3. simpl. split_cases; simpl.
  - pose proof (cube_le p q). lra.
  - pose proof (cube_le p (1 # 2)). pose proof (cube_le (-2 * q + 2) 1). lra.
  - lra.
  - pose proof (cube_le (-2 * q + 2) (-2 * p + 2)). lra.
Qed.

(** Between 0 and 1 the linear, quadratic and cubic easing functions
    never go back: a later time gives a value that is not smaller, in
    exact arithmetic. *)
Theorem easing_monotone (s t : jsnum) :
  unit_interval s → unit_interval t → js_le s t →
  Forall (λ f, js_le (f s) (f t)) monotone_easings.
Proof.
  destruct s as [p| | |]; try done. destruct t as [q| | |]; try done.
  intros [Hp _] [_ Hq] Hpq. simpl in Hpq.
  unfold monotone_easings. rewrite !Forall_cons, Forall_nil.
  split_and!; [| | | | | | |done].
  - done.
  - simpl. nra.
  - simpl. nra.
  - by apply easeInOutQuad_le.
  - by apply easeOutCubic_le.
  - by apply easeInCubic_le.
  - by apply easeInOutCubic_le.
Qed.


Lemma easing_range_witness :
  Forall (λ f, unit_interval (f (Fin (10 # 11)))) bounded_easings.
Proof. apply (easing_range (Fin (10 # 11))). by split. Defined.

Lemma easing_monotone_witness :
  Forall (λ f, js_le (f (Fin (1 # 4))) (f (Fin (3 # 4)))) monotone_easings.
Proof.
  apply (easing_monotone (Fin (1 # 4)) (Fin (3 # 4))); [by split|by split|done].
Defined.

End EasingFacts.

(** ** Properties of the built-in animations *)

Module BuiltInFacts.

Import AnimationManager Easing BuiltIn ManagerFacts.

(** *** spin *)





(** *** pulse and glow *)




(** *** The built-in animations at concrete runs *)

Import Examples BuiltInExamples.







End BuiltInFacts.

(** ** Properties of the built-in node object types *)

Module NodeTypesFacts.

Import NodeObjectFactory NodeTypes.

Section Facts.

Variable Math_cbrt : jsval → jsnum.
Variable to_string : jsval → string.

(** What a cache lookup with a constructor as creation function
    gives. *)
Lemma get_or_create_construct c (cache : gmap jskey ref) next key id :
  ∃ r next' ev,
    get_or_create c cache next key (construct id)
    = (<[KStr key := r]> cache, next', ev, Returned r) ∧
    (next <= next')%nat ∧
    <[KStr key := r]> cache !! KStr key = Some r ∧
    (∀ r0, cache !! KStr key = Some r0 → r = r0) ∧
    (∀ k r0, cache !! k = Some r0 → <[KStr key := r]> cache !! k = Some r0).
Proof.
  unfold get_or_create.
  destruct (cache !! KStr key) as [r|] eqn:E.
  - exists r, next, []. rewrite insert_id by done. split_and!; try done.
    + congruence.
  - simpl. exists next, (S next), [EvCreateFn c key id].
    split_and!; try done.
    + lia.
    + by rewrite lookup_insert_eq.
    + intros k r0 Hk. rewrite lookup_insert_ne; [done|]. congruence.
Qed.

Lemma build_outcome gk gid mk mid (s : store) :
  ∃ s' obj g m,
    build gk gid mk mid s = (s', Returned obj) ∧
    (nextRef s <= obj < nextRef s')%nat ∧
    objects s' = <[obj := mkMesh true (Some g) (MatOne m)]> (objects s) ∧
    materialCache s' !! KStr mk = Some m ∧
    (∀ k r, materialCache s !! k = Some r → materialCache s' !! k = Some r).
Proof.
  unfold build, getGeometry, getMaterial.
  destruct (get_or_create_construct Geometry (geometryCache s) (nextRef s) gk gid)
    as (g & n1 & e1 & -> & Hn1 & _).
  cbn [geometryCache materialCache nextRef objects trace].
  destruct (get_or_create_construct Material (materialCache s) n1 mk mid)
    as (m & n2 & e2 & -> & Hn2 & Hm & _ & Hmono).
  unfold new_mesh. cbn [geometryCache materialCache nextRef objects trace].
  eexists _, n2, g, m. split; [reflexivity|]. simpl.
  split_and!; try done; lia.
Qed.

Lemma builtInTypes_build (T : string) (c : creator) :
  (T, c) ∈ builtInTypes Math_cbrt to_string →
  T ≠ EmptyString ∧
  ∃ gk gid mid,
    ∀ n s, c n s = build (gk n) gid (materialKey to_string n) mid s.
Proof.
  unfold builtInTypes. rewrite !elem_of_cons, elem_of_nil.
  intros [[= -> ->]|[[= -> ->]|[[= -> ->]|[]]]]; (split; [done|]).
  - by eexists (λ n, _), _, _.
  - by eexists (λ n, _), _, _.
  - by eexists (λ n, _), _, _.
Qed.

Lemma create_built_in (f : factory) (n : node) (a T : string) (c : creator) :
  (T, c) ∈ builtInTypes Math_cbrt to_string →
  typeRegistry f !! T = Some c →
  objectPools f !! T ≫= pop = None →
  prop (node_attrs n) a = VStr T →
  ∃ f' obj g m,
    createObject f n a = (f', Some obj) ∧
    typeRegistry f' = typeRegistry f ∧ objectPools f' = objectPools f ∧
    (nextRef (st f) <= obj < nextRef (st f'))%nat ∧
    objects (st f') = <[obj := mkMesh true (Some g) (MatOne m)]> (objects (st f)) ∧
    materialCache (st f') !! KStr (materialKey to_string n) = Some m ∧
    (∀ k r, materialCache (st f) !! k = Some r →
            materialCache (st f') !! k = Some r).
Proof.
  intros Hin Hreg Hpool Hattr.
  destruct (builtInTypes_build T c Hin) as (HT & gk & gid & mid & Hc).
  unfold createObject. rewrite Hattr. simpl.
  assert (negb (T =? EmptyString)%string = true) as ->.
  { by apply negb_true_iff, String.eqb_neq. }
  simpl. rewrite Hreg, Hpool, Hc.
  destruct (build_outcome (gk n) gid (materialKey to_string n) mid
              (log (st f) [EvCreator T]))
    as (s' & obj & g & m & -> & Hlt & Hobj & Hm & Hmono).
  simpl in Hlt, Hobj, Hmono.
  eexists _, obj, g, m. split; [reflexivity|]. simpl.
  split_and!; try done; lia.
Qed.

(** Two nodes of built-in types (the same type or not) that give the
    same colour and the same opacity get, from a factory without pooled
    objects of these types, two meshes with one material: the one that
    the material cache holds for their key. *)
Theorem same_look_shares_material (f : factory) (n1 n2 : node)
    (a T1 T2 : string) (c1 c2 : creator) :
  (T1, c1) ∈ builtInTypes Math_cbrt to_string →
  (T2, c2) ∈ builtInTypes Math_cbrt to_string →
  typeRegistry f !! T1 = Some c1 → typeRegistry f !! T2 = Some c2 →
  objectPools f !! T1 ≫= pop = None → objectPools f !! T2 ≫= pop = None →
  prop (node_attrs n1) a = VStr T1 → prop (node_attrs n2) a = VStr T2 →
  node_prop n1 "color" = node_prop n2 "color" →
  node_prop n1 "opacity" = node_prop n2 "opacity" →
  let r1 := createObject f n1 a in
  let r2 := createObject r1.1 n2 a in
  ∃ obj1 obj2 m,
    r1.2 = Some obj1 ∧ r2.2 = Some obj2 ∧ obj1 ≠ obj2 ∧
    material (objects (st r2.1) obj1) = MatOne m ∧
    material (objects (st r2.1) obj2) = MatOne m ∧
    materialCache (st r2.1) !! KStr (materialKey to_string n1) = Some m.
Proof.
  intros Hin1 Hin2 Hreg1 Hreg2 Hpool1 Hpool2 Hattr1 Hattr2 Hcol Hop r1 r2.
  assert (materialKey to_string n2 = materialKey to_string n1) as Hkey.
  { unfold materialKey, color_of, opacity_of. by rewrite Hcol, Hop. }
  destruct (create_built_in f n1 a T1 c1 Hin1 Hreg1 Hpool1 Hattr1)
    as (f1 & obj1 & g1 & m1 & Hc1 & Hr1 & Hp1 & Hlt1 & Hobj1 & Hm1 & Hmono1).
  assert (r1 = (f1, Some obj1)) as Hr1' by done.
  destruct (create_built_in f1 n2 a T2 c2 Hin2) as
    (f2 & obj2 & g2 & m2 & Hc2 & Hr2 & Hp2 & Hlt2 & Hobj2 & Hm2 & Hmono2);
    [by rewrite Hr1|by rewrite Hp1|done|].
  assert (r2 = (f2, Some obj2)) as Hr2'.
  { unfold r2. by rewrite Hr1'. }
  rewrite Hr1', Hr2'. simpl.
  assert (m2 = m1) as ->.
  { rewrite Hkey in Hm2. apply Hmono2 in Hm1. congruence. }
  exists obj1, obj2, m1.
  assert (obj1 ≠ obj2) as Hne by lia.
  split_and!; try done.
  - rewrite Hobj2, fn_lookup_insert_ne by done.
    by rewrite Hobj1, fn_lookup_insert.
  - by rewrite Hobj2, fn_lookup_insert.
  - by rewrite <- Hkey.
Qed.

Lemma registerType_spec (f : factory) (T : string) (c : creator) :
  T ≠ EmptyString →
  ∃ f', registerType f T c = Returned f' ∧
    typeRegistry f' = <[T := c]> (typeRegistry f) ∧
    (∀ T', objectPools f' !! T'
           = if decide (T' = T) then Some (default [] (objectPools f !! T))
             else objectPools f !! T') ∧
    activeObjects f' = activeObjects f ∧ st f' = st f.
Proof.
  intros HT. unfold registerType.
  assert ((T =? EmptyString)%string = false) as -> by by apply String.eqb_neq.
  eexists. split; [reflexivity|]. simpl. split_and!; try done.
  intros T'. destruct (decide (T' = T)) as [->|Hne].
  - destruct (objectPools f !! T) eqn:E; [done|]. by rewrite lookup_insert_eq.
  - destruct (objectPools f !! T); [done|]. by rewrite lookup_insert_ne.
Qed.

Lemma register_all_spec (types : list (string * creator)) (f : factory) :
  NoDup types.*1 →
  (∀ T, T ∈ types.*1 → T ≠ EmptyString) →
  ∃ f', register_all f types = Returned f' ∧
    (∀ T c, (T, c) ∈ types →
       typeRegistry f' !! T = Some c ∧
       objectPools f' !! T = Some (default [] (objectPools f !! T))) ∧
    (∀ T, T ∉ types.*1 →
       typeRegistry f' !! T = typeRegistry f !! T ∧
       objectPools f' !! T = objectPools f !! T) ∧
    activeObjects f' = activeObjects f ∧ st f' = st f.
Proof.
  revert f. induction types as [|[T c] rest IH]; intros f Hnd Hne.
  - exists f. split_and!; try done. intros T c HT. by apply elem_of_nil in HT.
  - rewrite fmap_cons in Hnd, Hne. simpl in Hnd, Hne.
    apply NoDup_cons in Hnd as [HT Hnd].
    destruct (registerType_spec f T c) as (f1 & Hreg & Hr1 & Hp1 & Ha1 & Hs1).
    { apply Hne. by left. }
    destruct (IH f1 Hnd) as (f' & Hall & Hin & Hout & Ha & Hs).
    { intros T' HT'. apply Hne. by right. }
    exists f'. cbn [register_all]. rewrite Hreg. split; [exact Hall|].
    split_and!.
    + intros T' c' [[= -> ->]|Hrest]%elem_of_cons.
      * destruct (Hout T HT) as [-> ->].
        rewrite Hr1, lookup_insert_eq, Hp1. by rewrite decide_True.
      * destruct (Hin T' c' Hrest) as [-> ->]. split; [done|].
        rewrite Hp1. rewrite decide_False; [done|].
        intros ->. apply HT. apply list_elem_of_fmap. by exists (T, c').
    + intros T'. rewrite fmap_cons, not_elem_of_cons. simpl.
      intros [HTT Hrest]. destruct (Hout T' Hrest) as [-> ->].
      rewrite Hr1, lookup_insert_ne by done. rewrite Hp1.
      by rewrite decide_False.
    + congruence.
    + congruence.
Qed.

(** [registerBuiltInTypes] does not throw; after it the three types
    are registered with their [create] functions, each with the pool it
    had or an empty one, and the other types, the tracked objects and
    the caches are as before. *)
Theorem built_in_types_registered (f : factory) :
  ∃ f', registerBuiltInTypes Math_cbrt to_string f = Returned f' ∧
    (∀ T c, (T, c) ∈ builtInTypes Math_cbrt to_string →
       typeRegistry f' !! T = Some c ∧
       objectPools f' !! T = Some (default [] (objectPools f !! T))) ∧
    (∀ T, T ∉ (builtInTypes Math_cbrt to_string).*1 →
       typeRegistry f' !! T = typeRegistry f !! T ∧
       objectPools f' !! T = objectPools f !! T) ∧
    activeObjects f' = activeObjects f ∧ st f' = st f.
Proof.
  apply register_all_spec.
  - unfold builtInTypes. simpl. rewrite !NoDup_cons, !not_elem_of_cons.
    split_and!; try done; try apply not_elem_of_nil. apply NoDup_nil_2.
  - unfold builtInTypes. simpl. intros T.
    rewrite !elem_of_cons, elem_of_nil. by intros [->|[->|[->|[]]]].
Qed.

End Facts.

Import FactoryExamples NodeTypesExamples.

Lemma same_look_shares_material_witness :
  ∃ obj1 obj2 m,
    (createObject f_built_in red_cube attr).2 = Some obj1 ∧
    (createObject (createObject f_built_in red_cube attr).1 red_cone attr).2
    = Some obj2 ∧
    obj1 ≠ obj2 ∧
    material
      (objects
         (st (createObject (createObject f_built_in red_cube attr).1
                red_cone attr).1) obj1) = MatOne m ∧
    material
      (objects
         (st (createObject (createObject f_built_in red_cube attr).1
                red_cone attr).1) obj2) = MatOne m ∧
    materialCache
      (st (createObject (createObject f_built_in red_cube attr).1
             red_cone attr).1) !! KStr "lambert_red_0.75" = Some m.
Proof.
  apply (same_look_shares_material sample_cbrt sample_text f_built_in
           red_cube red_cone attr "cube" "cone"
           (NodeTypes.cube_create sample_cbrt sample_text)
           (NodeTypes.cone_create sample_cbrt sample_text)).
  - by left.
  - right. by left.
  - reflexivity.
  - reflexivity.
  - reflexivity.
  - reflexivity.
  - reflexivity.
  - reflexivity.
  - reflexivity.
  - reflexivity.
Defined.

End NodeTypesFacts.

